(** * The SQL builder and DAO before-hook of node-azure-rest-api, embedded in Rocq

    Shallow embedding of [src/sql/sql.ts], of the parts of [src/lib/base.dao.ts]
    that clean and check entity parameters, and of [src/errors/sql.error.ts]
    and [src/errors/dao.error.ts].

    Conventions of the embedding.
    - JavaScript strings are [string]s (byte strings); template literals are
      written out with [++].
    - JavaScript numbers that are indices or sizes are [nat] or [Z]; they are
      printed as [String(n)] prints integers (an index stays below [1e21],
      where the exponent form begins).  NaN, infinite values and fractions
      are outside the model.
    - A thrown exception is the [Err] case of [result]; the first one raised in
      evaluation order wins.
    - A plain object used as a record is an association list in enumeration
      order: ascending for integer keys, insertion order for the others. *)

From Stdlib Require Import String Ascii List ZArith Lia Bool Arith.
From Stdlib Require Import Decimal DecimalString DecimalNat Permutation Sorted OrderedTypeEx.
Import ListNotations.

Open Scope list_scope.
Open Scope string_scope.

Set Implicit Arguments.

(* ------------------------------------------------------------------ *)
(** ** Exceptions as a result type *)

Inductive result (E A : Type) : Type :=
| Ok (a : A)
| Err (e : E).

Arguments Ok {E A} a.
Arguments Err {E A} e.

Definition bind {E A B : Type} (c : result E A) (k : A -> result E B) : result E B :=
  match c with
  | Ok a => k a
  | Err e => Err e
  end.

Notation "x <- c ;; k" := (bind c (fun x => k))
  (at level 61, c at next level, right associativity).

Definition isOk {E A : Type} (c : result E A) : bool :=
  match c with Ok _ => true | Err _ => false end.

(* ------------------------------------------------------------------ *)
(** ** Strings and numbers *)

(** [String(n)] for an index or a count (a non-negative integer below
    [1e21]). *)
Definition natToString (n : nat) : string :=
  NilEmpty.string_of_uint (Nat.to_uint n).

(** The Number nearest to a non-negative integer: 53 significant bits, ties
    to the even significand. *)
Definition toNumber (m : Z) : Z :=
  let bits := (Z.log2 m + 1)%Z in
  if (bits <=? 53)%Z then m
  else
    let sh := (bits - 53)%Z in
    let q := Z.shiftr m sh in
    let r := (m - Z.shiftl q sh)%Z in
    let half := Z.shiftl 1 (sh - 1) in
    let q' := if (half <? r)%Z || ((r =? half)%Z && Z.odd q) then (q + 1)%Z else q in
    Z.shiftl q' sh.

(** The decimal digits of a non-negative integer. *)
Definition digitsOf (m : Z) : string := NilZero.string_of_uint (N.to_uint (Z.to_N m)).

(** Number::toString looks for the fewest digits [s] with [s * 10^e] read
    back as the Number [x].  With [k] digits for an [x] of [n] digits, the
    candidates are [x] cut after [k] digits and the next integer; of two that
    read back as [x] the nearer one is taken, the even one on a tie. *)
Definition shortestCandidate (x n k : Z) : option (Z * Z) :=
  let e := (n - k)%Z in
  let p := (10 ^ e)%Z in
  let s := (x / p)%Z in
  let lo := (s * p)%Z in
  let hi := ((s + 1) * p)%Z in
  let okLo := (toNumber lo =? x)%Z in
  let okHi := (toNumber hi =? x)%Z in
  if okLo && okHi then
    if (x - lo <? hi - x)%Z then Some (s, e)
    else if (hi - x <? x - lo)%Z then Some ((s + 1)%Z, e)
    else if Z.even s then Some (s, e) else Some ((s + 1)%Z, e)
  else if okLo then Some (s, e)
  else if okHi then Some ((s + 1)%Z, e)
  else None.

(** The digits and the power of ten: [k] goes up from 1, and 17 digits
    always suffice. *)
Fixpoint shortestDigits (fuel : nat) (x n k : Z) : Z * Z :=
  match fuel with
  | O => (x, 0%Z)
  | S fuel' =>
      if (n <=? k)%Z then (x, 0%Z)
      else match shortestCandidate x n k with
           | Some se => se
           | None => shortestDigits fuel' x n (k + 1)%Z
           end
  end.

Fixpoint zeros (n : nat) : string :=
  match n with O => "" | S n' => String "0" (zeros n') end.

(** [String(m)] for a positive integer: the digits followed by zeros up to
    21 places, the exponent form from [1e21] on, [Infinity] beyond the
    largest Number. *)
Definition positiveToString (m : Z) : string :=
  let x := toNumber m in
  if (2 ^ 1024 <=? x)%Z then "Infinity"
  else
    let (s, e) := shortestDigits 17 x (Z.of_nat (String.length (digitsOf x))) 1 in
    let k := Z.of_nat (String.length (digitsOf s)) in
    let (digits, e) :=
      if (s =? 10 ^ (k - 1))%Z then ("1", (e + k - 1)%Z) else (digitsOf s, e) in
    let n := (Z.of_nat (String.length digits) + e)%Z in
    if (n <=? 21)%Z then digits ++ zeros (Z.to_nat e)
    else
      let exponent := "e+" ++ digitsOf (n - 1) in
      match digits with
      | String d EmptyString => String d exponent
      | String d rest => String d ("." ++ rest ++ exponent)
      | EmptyString => exponent
      end.

(** [String(z)] for an integer, read as the Number nearest to it. *)
Definition numToString (z : Z) : string :=
  match z with
  | Z0 => "0"
  | Zpos _ => positiveToString z
  | Zneg _ => "-" ++ positiveToString (- z)
  end.

(** lodash [join(list, sep)]. *)
Definition join (l : list string) (sep : string) : string := String.concat sep l.

(** lodash [includes(list, x)] on strings. *)
Definition includes (l : list string) (x : string) : bool :=
  existsb (String.eqb x) l.

(** [map(list, (v, i) => f v i)]. *)
Fixpoint mapiFrom {A B : Type} (i : nat) (f : A -> nat -> B) (l : list A) : list B :=
  match l with
  | [] => []
  | x :: l' => f x i :: mapiFrom (S i) f l'
  end.

Definition mapi {A B : Type} (f : A -> nat -> B) (l : list A) : list B :=
  mapiFrom 0 f l.

(** [s.includes(pat)]. *)
Fixpoint containsStr (pat s : string) : bool :=
  if String.prefix pat s then true
  else match s with
       | EmptyString => false
       | String _ s' => containsStr pat s'
       end.

(** [s.replaceAll(pat, rep)] for a non-empty [pat]: left to right, matches do
    not overlap.  [skip] counts the characters of a match still to be dropped.
    (The [$]-patterns of a replacement string are not modelled.) *)
Fixpoint replaceAllFrom (skip : nat) (pat rep s : string) : string :=
  match s with
  | EmptyString => EmptyString
  | String c s' =>
      match skip with
      | S k => replaceAllFrom k pat rep s'
      | O =>
          if String.prefix pat s
          then rep ++ replaceAllFrom (String.length pat - 1) pat rep s'
          else String c (replaceAllFrom 0 pat rep s')
      end
  end.

Definition replaceAll (s pat rep : string) : string := replaceAllFrom 0 pat rep s.

(** The characters of a string. *)
Definition chars (s : string) : list ascii := list_ascii_of_string s.

Definition nl : string := String (ascii_of_nat 10) EmptyString.

(** lodash [chunk(array, size)]: the loop [while (index < length)] takes
    [size] elements at a time; [length array] iterations are enough. *)
Fixpoint baseChunk {A : Type} (fuel size : nat) (array : list A) : list (list A) :=
  match fuel with
  | O => []
  | S fuel' =>
      match array with
      | [] => []
      | _ :: _ => firstn size array :: baseChunk fuel' size (skipn size array)
      end
  end.

Definition chunk {A : Type} (array : list A) (size : Z) : list (list A) :=
  let size := Z.to_nat (Z.max size 0) in
  if (Nat.eqb (length array) 0) || (size <? 1)%nat then []
  else baseChunk (length array) size array.

(* ------------------------------------------------------------------ *)
(** ** Data model ([interfaces/base.dao.interface.ts], as used by the code) *)

Inductive Operator : Type :=
| OpEq | OpNe | OpLt | OpLe | OpGt | OpGe | OpLike | OpIn | OpNotIn | OpBetween.

Definition operatorText (o : Operator) : string :=
  match o with
  | OpEq => "=" | OpNe => "!=" | OpLt => "<" | OpLe => "<=" | OpGt => ">"
  | OpGe => ">=" | OpLike => "LIKE" | OpIn => "IN" | OpNotIn => "NOT IN"
  | OpBetween => "BETWEEN"
  end.

(** [operator === '!=' || operator === 'NOT IN'] *)
Definition isNegated (o : Operator) : bool :=
  match o with OpNe | OpNotIn => true | _ => false end.

Inductive Method : Type := MFind | MInsert | MUpdate | MDelete.

Definition methodText (m : Method) : string :=
  match m with
  | MFind => "find" | MInsert => "insert" | MUpdate => "update" | MDelete => "delete"
  end.

(** A value that is not an array.  [PObj ref text] is any other object held
    as a value (a Date, or a FieldQuery stored inside an array): [ref] is its
    identity, which is all that [uniq] looks at, and [text] is what [String]
    gives for it (the date text of a Date, [[object Object]] for a plain
    object); one object has one text. *)
Inductive prim : Type :=
| PNull
| PUndefined
| PBool (b : bool)
| PNum (z : Z)
| PStr (s : string)
| PObj (ref : nat) (text : string).

Definition isNil (v : prim) : bool :=
  match v with PNull | PUndefined => true | _ => false end.

(** [MaybeArray<T>] *)
Inductive MaybeArray : Type :=
| One (v : prim)
| Many (vs : list prim).

(** The value of a field: a raw value or array, or a [FieldQuery] object
    [{ value, operator? }] (an object that has a [value] property); [ref] is
    the identity of that object. *)
Inductive FieldValue : Type :=
| Raw (v : MaybeArray)
| Query (ref : nat) (value : MaybeArray) (operator : option Operator).

(** An [EntityParameter] is an object: its fields in enumeration order. *)
Definition EntityParameter : Type := list (string * FieldValue).

Inductive EntityParameters : Type :=
| EPNil                                 (* null or undefined *)
| EPOne (item : EntityParameter)
| EPMany (items : list EntityParameter).

(** [utils/ensure-array.ts] at [EntityParameters]. *)
Definition ensureArray (input : EntityParameters) : list EntityParameter :=
  match input with
  | EPNil => []
  | EPOne item => [item]
  | EPMany items => items
  end.

(** [String(o)] for a plain object. *)
Definition objectText : string := "[object Object]".

(** [utils/ensure-array.ts] at a field value; a FieldQuery object is a single
    (object) value. *)
Definition ensureArrayValue (input : FieldValue) : list prim :=
  match input with
  | Raw (One v) => if isNil v then [] else [v]
  | Raw (Many vs) => vs
  | Query ref _ _ => [PObj ref objectText]
  end.

(** [isNil(item[key])] for a field value that is present. *)
Definition isNilValue (fv : FieldValue) : bool :=
  match fv with
  | Raw (One v) => isNil v
  | _ => false
  end.

Record ValueKey : Type := mkValueKey { value : prim; key : string }.

Record QueryType : Type := mkQuery { sql : string; params : list (string * ValueKey) }.

(** [errors/sql.error.ts]: an [Error] whose message names the table. *)
Record SqlError : Type := mkSqlError { sqlMessage : string }.

Definition newSqlError (tableName message : string) : SqlError :=
  mkSqlError ("[SQL: " ++ tableName ++ "] " ++ message).

Definition invalidOrderByText : string := "Invalid orderBy".
Definition unknownColumnText : string := "Unknown column name".
Definition invalidBetweenText : string := "Invalid between values".

Definition sqlActionError (tableName : string) (action : Method) (message : string) : SqlError :=
  newSqlError tableName (message ++ " for " ++ methodText action).

(** [SqlError.invalidOrderBy(tableName, action, item)] *)
Definition invalidOrderByOf (tableName : string) (action : Method) (item : string) : SqlError :=
  sqlActionError tableName action (invalidOrderByText ++ " " ++ item).

(** [SqlError.invalidOrderBy(tableName, action)], with the default [item]. *)
Definition invalidOrderBy (tableName : string) (action : Method) : SqlError :=
  invalidOrderByOf tableName action "item".

Definition invalidOrderByColumn (tableName : string) (action : Method) : SqlError :=
  invalidOrderByOf tableName action "column".

Definition invalidBetween (tableName : string) (action : Method) : SqlError :=
  sqlActionError tableName action invalidBetweenText.

Definition unknownColumn (tableName : string) (action : Method) (item : string) : SqlError :=
  sqlActionError tableName action (unknownColumnText ++ " " ++ item).

Definition DEFAULT_TAKE : Z := 100.
Definition DEFAULT_IN_CHUNK : Z := 800.

Inductive LikeMode : Type := LikeRaw | LikeContains | LikeStartsWith | LikeEndsWith.
Definition DEFAULT_LIKE_MODE : LikeMode := LikeRaw.

Inductive UnknownColumn : Type := Ignore | Throw.
Definition DEFAULT_UNKNOWN_COLUMN : UnknownColumn := Ignore.

(** [x ?? d] *)
Definition orDefault {A : Type} (x : option A) (d : A) : A :=
  match x with Some a => a | None => d end.

(** Truthiness of an optional string ([escapeChar ? ... : ...]). *)
Definition truthyStr (x : option string) : option string :=
  match x with
  | Some EmptyString => None
  | other => other
  end.

(** [String(raw ?? '')] *)
Definition primToString (raw : prim) : string :=
  match raw with
  | PNull | PUndefined => ""
  | PBool true => "true"
  | PBool false => "false"
  | PNum z => numToString z
  | PStr s => s
  | PObj _ text => text
  end.

Definition applyLikeValue (raw : prim) (likeMode : LikeMode) (escapeChar : option string) : string :=
  let v := primToString raw in
  let v := match truthyStr escapeChar with
           | Some e => replaceAll (replaceAll (replaceAll v e (e ++ e)) "%" (e ++ "%")) "_" (e ++ "_")
           | None => v
           end in
  match likeMode with
  | LikeContains => "%" ++ v ++ "%"
  | LikeStartsWith => v ++ "%"
  | LikeEndsWith => "%" ++ v
  | LikeRaw => v
  end.

(* ------------------------------------------------------------------ *)
(** ** [mapEntityItems] *)

(** What a callback returns: one pair, or an array of pairs that
    [mapEntityItems] spreads into the result. *)
Inductive CallbackResult (R : Type) : Type :=
| Single (r : R)
| Flat (rs : list R).

Arguments Single {R} r.
Arguments Flat {R} rs.

Definition spread {R : Type} (c : CallbackResult R) : list R :=
  match c with
  | Single r => [r]
  | Flat rs => rs
  end.

(** The value and operator the callback receives for a field. *)
Definition fieldQueryOf (itemValue : FieldValue) : MaybeArray * Operator :=
  match itemValue with
  | Raw v => (v, OpEq)
  | Query _ v operator => (v, orDefault operator OpEq)
  end.

(** [rec[key] = v] on a record with string keys: an existing key keeps its
    place and takes the new value, a new key goes last. *)
Fixpoint recordSet {V : Type} (k : string) (v : V) (rec : list (string * V)) : list (string * V) :=
  match rec with
  | [] => [(k, v)]
  | (k', v') :: rest =>
      if String.eqb k k' then (k', v) :: rest else (k', v') :: recordSet k v rest
  end.

Fixpoint recordGet {V : Type} (k : string) (rec : list (string * V)) : option V :=
  match rec with
  | [] => None
  | (k', v') :: rest => if String.eqb k k' then Some v' else recordGet k rest
  end.

(** lodash [isLength]: a number that is an integer from 0 up to
    [MAX_SAFE_INTEGER]. *)
Definition MAX_SAFE_INTEGER : Z := 9007199254740991.

Definition isLength (fv : FieldValue) : option nat :=
  match fv with
  | Raw (One (PNum z)) =>
      if (0 <=? z)%Z && (z <=? MAX_SAFE_INTEGER)%Z then Some (Z.to_nat z) else None
  | _ => None
  end.

(** lodash [isArrayLike(item)] for an object: its [length] property is a
    length.  The result is that length. *)
Definition arrayLikeLength (item : EntityParameter) : option nat :=
  match recordGet "length" item with
  | Some fv => isLength fv
  | None => None
  end.

(** The pairs lodash [forEach(item, ...)] hands to its iteratee: the own
    fields of an object, but the indices below [length] with [item[index]]
    ([undefined] where there is no such field) for an array-like one. *)
Definition visitedFields (item : EntityParameter) : list (string * FieldValue) :=
  match arrayLikeLength item with
  | Some n =>
      map (fun index =>
             (natToString index,
              orDefault (recordGet (natToString index) item) (Raw (One PUndefined))))
          (seq 0 n)
  | None => item
  end.

Section MapEntityItems.
Variables E R : Type.
Variable callback : MaybeArray -> string -> Operator -> nat -> result E (CallbackResult R).

(** The iteratee of the inner [forEach], over the pairs it is handed. *)
Fixpoint eachField (itemIndex : nat) (fields : list (string * FieldValue)) : result E (list R) :=
  match fields with
  | [] => Ok []
  | (itemKey, itemValue) :: rest =>
      let (v, operator) := fieldQueryOf itemValue in
      callbackResult <- callback v itemKey operator itemIndex ;;
      more <- eachField itemIndex rest ;;
      Ok (spread callbackResult ++ more)%list
  end.

Definition forEachField (itemIndex : nat) (item : EntityParameter) : result E (list R) :=
  eachField itemIndex (visitedFields item).

Fixpoint forEachItem (itemIndex : nat) (items : list EntityParameter) : result E (list R) :=
  match items with
  | [] => Ok []
  | item :: rest =>
      here <- forEachField itemIndex item ;;
      more <- forEachItem (S itemIndex) rest ;;
      Ok (here ++ more)%list
  end.

Definition mapEntityItems (entityParameters : EntityParameters) : result E (list R) :=
  forEachItem 0 (ensureArray entityParameters).

(** The outer loop over the lists of pairs visited, item by item:
    [forEachItem] is [eachItem] on the [visitedFields] of the items. *)
Fixpoint eachItem (itemIndex : nat) (visited : list (list (string * FieldValue)))
  : result E (list R) :=
  match visited with
  | [] => Ok []
  | fields :: rest =>
      here <- eachField itemIndex fields ;;
      more <- eachItem (S itemIndex) rest ;;
      Ok (here ++ more)%list
  end.
End MapEntityItems.

(** lodash [groupBy(pairs, 0)] followed by [mapValues(..., map second)]: the
    keys are item indices, so the object enumerates them in ascending order. *)
Fixpoint recordPush {R : Type} (k : nat) (v : R) (rec : list (nat * list R)) : list (nat * list R) :=
  match rec with
  | [] => [(k, [v])]
  | (k', vs) :: rest =>
      if Nat.eqb k k' then (k', (vs ++ [v])%list) :: rest
      else if Nat.ltb k k' then (k, [v]) :: rec
      else (k', vs) :: recordPush k v rest
  end.

Definition groupByIndex {R : Type} (pairs : list (nat * R)) : list (nat * list R) :=
  fold_left (fun acc p => recordPush (fst p) (snd p) acc) pairs [].

(* ------------------------------------------------------------------ *)
(** ** The predicate compiler: [toGroupParametersSql] *)

Record SqlOptions : Type := mkSqlOptions {
  escapeChar : option string;
  columnsList : option (list string);
  onUnknownColumn : option UnknownColumn;
  inChunkSize : option Z
}.

Definition noSqlOptions : SqlOptions := mkSqlOptions None None None None.

(** The whitelist test at the head of the callback:
    [columnsList && !includes(columnsList, keyStr)]. *)
Definition unknownToList (columnsList : option (list string)) (keyStr : string) : bool :=
  match columnsList with
  | Some cols => negb (includes cols keyStr)
  | None => false
  end.

(** The callback [toGroupParametersSql] hands to [mapEntityItems]. *)
Definition sqlFragment (tableName : string) (action : Method) (options : SqlOptions)
    (itemValue : MaybeArray) (keyStr : string) (operator : Operator) (itemIndex : nat)
  : result SqlError (CallbackResult (nat * string)) :=
  let onUnknown := orDefault (onUnknownColumn options) DEFAULT_UNKNOWN_COLUMN in
  let inChunkSize := orDefault (inChunkSize options) DEFAULT_IN_CHUNK in
  if unknownToList (columnsList options) keyStr then
    match onUnknown with
    | Ignore => Ok (Single (itemIndex, "1=1"))
    | Throw => Err (unknownColumn tableName action keyStr)
    end
  else
    let groupKey := keyStr ++ "_" ++ natToString itemIndex in
    let esc := match truthyStr (escapeChar options) with
               | Some e => " ESCAPE '" ++ e ++ "'"
               | None => ""
               end in
    match itemValue with
    | Many vs =>
        if Nat.eqb (length vs) 0 then
          if isNegated operator then Ok (Single (itemIndex, "1=1"))
          else Ok (Single (itemIndex, "1=0"))
        else
          match operator with
          | OpBetween =>
              if negb (Nat.eqb (length vs) 2) then Err (invalidBetween tableName action)
              else
                Ok (Single (itemIndex,
                  "[" ++ keyStr ++ "] BETWEEN IIF(@" ++ groupKey ++ "_0 < @" ++ groupKey
                  ++ "_1, @" ++ groupKey ++ "_0, @" ++ groupKey ++ "_1) AND IIF(@"
                  ++ groupKey ++ "_0 > @" ++ groupKey ++ "_1, @" ++ groupKey ++ "_0, @"
                  ++ groupKey ++ "_1)"))
          | OpLike =>
              let likes :=
                join (mapi (fun _ i =>
                        "[" ++ keyStr ++ "] LIKE @" ++ groupKey ++ "_" ++ natToString i ++ esc) vs)
                     " OR " in
              Ok (Single (itemIndex, "(" ++ likes ++ ")"))
          | _ =>
              let chunks := chunk vs inChunkSize in
              let chunkClauses :=
                mapi (fun arr cidx =>
                        let placeholders :=
                          join (mapi (fun _ i =>
                                  "@" ++ groupKey ++ "_" ++ natToString cidx ++ "_" ++ natToString i) arr)
                               ", " in
                        if isNegated operator
                        then "[" ++ keyStr ++ "] NOT IN (" ++ placeholders ++ ")"
                        else "[" ++ keyStr ++ "] IN (" ++ placeholders ++ ")")
                     chunks in
              let glue := match operator with OpNotIn => " AND " | _ => " OR " end in
              Ok (Single (itemIndex, "(" ++ join chunkClauses glue ++ ")"))
          end
    | One v =>
        if isNil v then
          if isNegated operator then Ok (Single (itemIndex, "[" ++ keyStr ++ "] IS NOT NULL"))
          else Ok (Single (itemIndex, "[" ++ keyStr ++ "] IS NULL"))
        else
          match operator with
          | OpLike => Ok (Single (itemIndex, "[" ++ keyStr ++ "] LIKE @" ++ groupKey ++ esc))
          | _ => Ok (Single (itemIndex,
                   "[" ++ keyStr ++ "] " ++ operatorText operator ++ " @" ++ groupKey))
          end
    end.

Definition toGroupParametersSql (tableName : string) (action : Method)
    (entityParameters : EntityParameters) (options : SqlOptions)
  : result SqlError (list (nat * list string)) :=
  keyValueArray <- mapEntityItems (sqlFragment tableName action options) entityParameters ;;
  Ok (groupByIndex keyValueArray).

(** [getColumnLists] *)
Definition columnCallback (_ : MaybeArray) (keyStr : string) (_ : Operator) (itemIndex : nat)
  : result SqlError (CallbackResult (nat * string)) :=
  Ok (Single (itemIndex, keyStr)).

Definition getColumnLists (entityParameters : EntityParameters)
  : result SqlError (list (nat * list string)) :=
  keyValueArray <- mapEntityItems columnCallback entityParameters ;;
  Ok (groupByIndex keyValueArray).

(* ------------------------------------------------------------------ *)
(** ** The parameter binder: [toGroupParametersKeyValue] and [getParams] *)

Record KvOptions : Type := mkKvOptions {
  kvInChunkSize : option Z;
  likeMode : option LikeMode;
  kvEscapeChar : option string
}.

Definition noKvOptions : KvOptions := mkKvOptions None None None.

(** The callback [toGroupParametersKeyValue] hands to [mapEntityItems]. *)
Definition keyValues (tableName : string) (action : Method) (options : KvOptions)
    (itemValue : MaybeArray) (keyStr : string) (operator : Operator) (itemIndex : nat)
  : result SqlError (CallbackResult (string * ValueKey)) :=
  let inChunkSize := orDefault (kvInChunkSize options) DEFAULT_IN_CHUNK in
  let likeMode := orDefault (likeMode options) DEFAULT_LIKE_MODE in
  let escapeChar := kvEscapeChar options in
  let groupKey := keyStr ++ "_" ++ natToString itemIndex in
  match itemValue with
  | Many vs =>
      if Nat.eqb (length vs) 0 then Ok (Flat [])
      else
        match operator with
        | OpBetween =>
            if negb (Nat.eqb (length vs) 2) then Err (invalidBetween tableName action)
            else Ok (Flat (mapi (fun v i =>
                             (groupKey ++ "_" ++ natToString i, mkValueKey v keyStr)) vs))
        | OpLike =>
            Ok (Flat (mapi (fun v i =>
                        (groupKey ++ "_" ++ natToString i,
                         mkValueKey (PStr (applyLikeValue v likeMode escapeChar)) keyStr)) vs))
        | _ =>
            let chunksArr := chunk vs inChunkSize in
            Ok (Flat (concat (mapi (fun arr cidx =>
                        mapi (fun v i =>
                                (groupKey ++ "_" ++ natToString cidx ++ "_" ++ natToString i,
                                 mkValueKey v keyStr)) arr)
                      chunksArr)))
        end
  | One v =>
      if isNil v then Ok (Flat [])
      else
        match operator with
        | OpLike => Ok (Flat [(groupKey, mkValueKey (PStr (applyLikeValue v likeMode escapeChar)) keyStr)])
        | _ => Ok (Flat [(groupKey, mkValueKey v keyStr)])
        end
  end.

Definition toGroupParametersKeyValue (tableName : string) (action : Method)
    (entityParameters : EntityParameters) (options : KvOptions)
  : result SqlError (list (string * ValueKey)) :=
  mapEntityItems (keyValues tableName action options) entityParameters.

(** The loop of [getParams]: [params[key] = { value, key: paramKey }] for
    each pair, in order. *)
Definition paramsRecord (keyValueArray : list (string * ValueKey)) : list (string * ValueKey) :=
  fold_left (fun params kv => recordSet (fst kv) (mkValueKey (value (snd kv)) (key (snd kv))) params)
            keyValueArray [].

Definition getParams (tableName : string) (action : Method)
    (entityParameters : EntityParameters) (options : KvOptions)
  : result SqlError (list (string * ValueKey)) :=
  keyValueArray <- toGroupParametersKeyValue tableName action entityParameters options ;;
  Ok (paramsRecord keyValueArray).

(* ------------------------------------------------------------------ *)
(** ** The column-shape grouper *)

(** lodash [sortBy(columns)]: a stable ascending sort; strings compare as the
    JavaScript [<] does on ASCII names, character by character. *)
Fixpoint sortedInsert (x : string) (l : list string) : list string :=
  match l with
  | [] => [x]
  | y :: l' => if String.ltb x y then x :: l else y :: sortedInsert x l'
  end.

Definition sortBy (columns : list string) : list string :=
  fold_left (fun sorted x => sortedInsert x sorted) columns [].

Definition dquote : ascii := ascii_of_nat 34.
Definition backslash : ascii := ascii_of_nat 92.

Definition hexDigit (n : nat) : ascii :=
  if (n <? 10)%nat then ascii_of_nat (48 + n) else ascii_of_nat (87 + n).

(** [QuoteJSONString] on one character: the two-character escapes, [\u00xx]
    for the other control characters, everything else unchanged. *)
Definition quoteJSONChar (c : ascii) : string :=
  let n := nat_of_ascii c in
  if Nat.eqb n 8 then String backslash "b"
  else if Nat.eqb n 9 then String backslash "t"
  else if Nat.eqb n 10 then String backslash "n"
  else if Nat.eqb n 12 then String backslash "f"
  else if Nat.eqb n 13 then String backslash "r"
  else if Nat.eqb n 34 then String backslash (String dquote "")
  else if Nat.eqb n 92 then String backslash (String backslash "")
  else if (n <? 32)%nat then
    String backslash ("u00" ++ String (hexDigit (n / 16)) (String (hexDigit (n mod 16)) ""))
  else String c "".

Fixpoint quoteJSONBody (s : string) : string :=
  match s with
  | EmptyString => EmptyString
  | String c s' => quoteJSONChar c ++ quoteJSONBody s'
  end.

Definition quoteJSONString (s : string) : string :=
  String dquote (quoteJSONBody s ++ String dquote "").

(** [JSON.stringify] of an array of strings. *)
Definition jsonStringify (l : list string) : string :=
  "[" ++ join (map quoteJSONString l) "," ++ "]".

Definition hexValue (c : ascii) : option nat :=
  let n := nat_of_ascii c in
  if (48 <=? n)%nat && (n <=? 57)%nat then Some (n - 48)
  else if (97 <=? n)%nat && (n <=? 102)%nat then Some (n - 87)
  else if (65 <=? n)%nat && (n <=? 70)%nat then Some (n - 55)
  else None.

Inductive parseMode : Type :=
| ExpectString
| InString (cur : string)
| AfterString.

Definition snoc (s : string) (c : ascii) : string := s ++ String c "".

(** [JSON.parse] on the text of an array of strings without white space
    between the tokens, which is what [jsonStringify] writes; [None] is a
    [SyntaxError].  Escapes above [\u007f] are not decoded. *)
Fixpoint parseElems (s : string) (mode : parseMode) (acc : list string) : option (list string) :=
  match s with
  | EmptyString => None
  | String c rest =>
      match mode with
      | ExpectString =>
          if Ascii.eqb c dquote then parseElems rest (InString "") acc else None
      | AfterString =>
          if Ascii.eqb c "," then parseElems rest ExpectString acc
          else if Ascii.eqb c "]" then
            match rest with EmptyString => Some acc | String _ _ => None end
          else None
      | InString cur =>
          if Ascii.eqb c dquote then parseElems rest AfterString (acc ++ [cur])%list
          else if Ascii.eqb c backslash then
            match rest with
            | EmptyString => None
            | String e rest' =>
                if Ascii.eqb e dquote then parseElems rest' (InString (snoc cur dquote)) acc
                else if Ascii.eqb e backslash then parseElems rest' (InString (snoc cur backslash)) acc
                else if Ascii.eqb e "/" then parseElems rest' (InString (snoc cur "/")) acc
                else if Ascii.eqb e "b" then parseElems rest' (InString (snoc cur (ascii_of_nat 8))) acc
                else if Ascii.eqb e "t" then parseElems rest' (InString (snoc cur (ascii_of_nat 9))) acc
                else if Ascii.eqb e "n" then parseElems rest' (InString (snoc cur (ascii_of_nat 10))) acc
                else if Ascii.eqb e "f" then parseElems rest' (InString (snoc cur (ascii_of_nat 12))) acc
                else if Ascii.eqb e "r" then parseElems rest' (InString (snoc cur (ascii_of_nat 13))) acc
                else if Ascii.eqb e "u" then
                  match rest' with
                  | String h1 (String h2 (String h3 (String h4 rest''))) =>
                      match hexValue h1, hexValue h2, hexValue h3, hexValue h4 with
                      | Some a, Some b, Some c', Some d =>
                          let code := ((a * 16 + b) * 16 + c') * 16 + d in
                          if (code <? 128)%nat
                          then parseElems rest'' (InString (snoc cur (ascii_of_nat code))) acc
                          else None
                      | _, _, _, _ => None
                      end
                  | _ => None
                  end
                else None
            end
          else if (nat_of_ascii c <? 32)%nat then None
          else parseElems rest (InString (snoc cur c)) acc
      end
  end.

Definition jsonParse (s : string) : option (list string) :=
  match s with
  | String c rest =>
      if Ascii.eqb c "[" then
        match rest with
        | String c' EmptyString => if Ascii.eqb c' "]" then Some [] else None
        | _ => parseElems rest ExpectString []
        end
      else None
  | EmptyString => None
  end.

(** [if (!reversedGroups[sortedKey]) reversedGroups[sortedKey] = [];
     reversedGroups[sortedKey].push(key)] *)
Fixpoint groupPush (sortedKey : string) (k : nat) (reversedGroups : list (string * list nat))
  : list (string * list nat) :=
  match reversedGroups with
  | [] => [(sortedKey, [k])]
  | (sk, ks) :: rest =>
      if String.eqb sortedKey sk then (sk, (ks ++ [k])%list) :: rest
      else (sk, ks) :: groupPush sortedKey k rest
  end.

Definition groupColumnLists (columnLists : list (nat * list string)) : list (string * list nat) :=
  fold_left (fun reversedGroups kc =>
               groupPush (jsonStringify (sortBy (snd kc))) (fst kc) reversedGroups)
            columnLists [].

Definition groupEntityParametersBySortedColumns (entityParameters : EntityParameters)
  : result SqlError (list (string * list nat)) :=
  columnLists <- getColumnLists entityParameters ;;
  Ok (groupColumnLists columnLists).

(* ------------------------------------------------------------------ *)
(** ** Preparing, filtering and merging entity parameters *)

(** [ensureArray(keyItem)] where the elements stay field values. *)
Definition ensureArrayField (keyItem : FieldValue) : list FieldValue :=
  match keyItem with
  | Raw (One v) => if isNil v then [] else [keyItem]
  | Raw (Many vs) => map (fun v => Raw (One v)) vs
  | Query _ _ _ => [keyItem]
  end.

Definition prepareUpdateEntityParamsByKey (entityParameters : EntityParameters)
    (keyColumn : string) : list EntityParameter :=
  flat_map (fun item =>
              match recordGet keyColumn item with
              | None => []
              | Some keyItem =>
                  if isNilValue keyItem then []
                  else map (fun k => recordSet keyColumn k item) (ensureArrayField keyItem)
              end)
           (ensureArray entityParameters).

(** A [MaybeArray<string>] argument that may be absent. *)
Inductive ColumnFilter : Type :=
| CFNil
| CFOne (column : string)
| CFMany (columns : list string).

Definition filterColumns (c : ColumnFilter) : list string :=
  match c with
  | CFNil => []
  | CFOne s => [s]
  | CFMany l => l
  end.

Inductive FilterOperator : Type := FIn | FOut.

(** lodash [pick(item, paths)]: the result lists the picked fields in the
    order of [paths]. *)
Definition pick (item : EntityParameter) (paths : list string) : EntityParameter :=
  fold_left (fun acc p =>
               match recordGet p item with
               | Some v => recordSet p v acc
               | None => acc
               end)
            paths [].

(** lodash [omit(item, paths)]. *)
Definition omit (item : EntityParameter) (paths : list string) : EntityParameter :=
  filter (fun kv => negb (includes paths (fst kv))) item.

Definition entityParametersFilter (entityParameters : EntityParameters)
    (columnFiltered : ColumnFilter) (operator : FilterOperator) : list EntityParameter :=
  let items := ensureArray entityParameters in
  match columnFiltered with
  | CFNil => items
  | _ =>
      map (fun item =>
             match operator with
             | FIn => pick item (filterColumns columnFiltered)
             | FOut => omit item (filterColumns columnFiltered)
             end)
          items
  end.

(** SameValueZero, the equality of lodash [uniq]. *)
Definition primEqb (a b : prim) : bool :=
  match a, b with
  | PNull, PNull => true
  | PUndefined, PUndefined => true
  | PBool x, PBool y => Bool.eqb x y
  | PNum x, PNum y => Z.eqb x y
  | PStr x, PStr y => String.eqb x y
  | PObj x s, PObj y t => Nat.eqb x y && String.eqb s t
  | _, _ => false
  end.

(** lodash [uniq]: first occurrences, in order. *)
Definition uniq (l : list prim) : list prim :=
  fold_left (fun seen x => if existsb (primEqb x) seen then seen else (seen ++ [x])%list) l [].

(** The array [ids] that [mergeEntityParametersById] collects. *)
Definition collectIds (items : list EntityParameter) : list prim :=
  flat_map (fun item =>
              match recordGet "id" item with
              | None => []
              | Some keyItem => if isNilValue keyItem then [] else ensureArrayValue keyItem
              end)
           items.

Definition mergeEntityParametersById (entityParameters : EntityParameters)
  : list EntityParameter :=
  let ids := collectIds (ensureArray entityParameters) in
  let uniqIds := uniq ids in
  [ [("id", Raw (Many uniqIds))] ].

(* ------------------------------------------------------------------ *)
(** ** Statement builders *)

(** What [sql.ts] can throw: an [SqlError], the [SyntaxError] of
    [JSON.parse], or the [TypeError] of the [in] operator on [null]. *)
Inductive Thrown : Type :=
| Sql (e : SqlError)
| SyntaxError
| TypeError.

Definition raise {A : Type} (c : result SqlError A) : result Thrown A :=
  match c with
  | Ok a => Ok a
  | Err e => Err (Sql e)
  end.

(** [map] with a function that may throw. *)
Fixpoint mapM {E A B : Type} (f : A -> result E B) (l : list A) : result E (list B) :=
  match l with
  | [] => Ok []
  | x :: l' =>
      y <- f x ;;
      ys <- mapM f l' ;;
      Ok (y :: ys)
  end.

Record ColumnsAndValues : Type := mkColumnsAndValues {
  columnSql : string;
  valuesSql : string;
  columns : list string
}.

(** One row of a VALUES list: [(@c1_id, @c2_id)]. *)
Definition valuesRow (columns : list string) (id : nat) : string :=
  let placeholders := map (fun col => "@" ++ col ++ "_" ++ natToString id) columns in
  "(" ++ join placeholders ", " ++ ")".

Definition buildColumnsAndValuesSqlStatements (grouped : list (string * list nat))
  : result Thrown (list ColumnsAndValues) :=
  mapM (fun g : string * list nat =>
          let (sortedKey, ids) := g in
          match jsonParse sortedKey with
          | None => Err SyntaxError
          | Some columns =>
              let columnSql := "([" ++ join columns "],  [" ++ "])" in
              let valuesSql := map (valuesRow columns) ids in
              Ok (mkColumnsAndValues columnSql (join valuesSql ", ") columns)
          end)
       grouped.

Definition buildInsertSqlStatements (grouped : list (string * list nat))
  : result Thrown (list string) :=
  columnsAndValuesSqlStatements <- buildColumnsAndValuesSqlStatements grouped ;;
  Ok (map (fun cv => columnSql cv ++ " VALUES " ++ valuesSql cv) columnsAndValuesSqlStatements).

Definition buildUpdateSqlStatements (grouped : list (string * list nat)) (keyColumn : string)
  : result Thrown (list string) :=
  columnsAndValuesSqlStatements <- buildColumnsAndValuesSqlStatements grouped ;;
  Ok (map (fun cv =>
             let keyStr := keyColumn in
             let columnForSet :=
               map (fun col => col ++ " = source." ++ col)
                   (filter (fun c => negb (String.eqb c keyStr)) (columns cv)) in
             "USING (VALUES" ++ nl ++ "    " ++ valuesSql cv ++ nl
             ++ "  ) AS source" ++ columnSql cv ++ " " ++ nl
             ++ "   ON target." ++ keyStr ++ " = source." ++ keyStr ++ nl
             ++ "   WHEN MATCHED THEN" ++ nl
             ++ "  UPDATE SET " ++ join columnForSet ", ")
          columnsAndValuesSqlStatements).

Inductive Direction : Type := ASC | DESC.

Definition directionText (d : Direction) : string :=
  match d with ASC => "ASC" | DESC => "DESC" end.

(** An entry of [orderBy]: a column name, an object with a [column] (whose
    text is [String(o.column)]), [null], or anything else (a number, an
    object without [column], [undefined]). *)
Inductive OrderBy : Type :=
| ByName (column : string)
| ByColumn (column : string) (direction : option Direction)
| ByNull
| ByOther.

Record OrderOptions : Type := mkOrderOptions {
  skip : option Z;
  take : option Z;
  orderBy : option (list OrderBy);
  defaultOrderBy : option string
}.

(** Truthiness of an optional number. *)
Definition truthyNum (x : option Z) : bool :=
  match x with
  | Some z => negb (Z.eqb z 0)
  | None => false
  end.

Definition isSome {A : Type} (x : option A) : bool :=
  match x with Some _ => true | None => false end.

(** The iteratee of [map(options.orderBy, ...)]: [typeof null] is
    ['object'], so [null] reaches ['column' in o], which throws. *)
Definition orderByEntry (tableName : string) (columnsList : list string) (o : OrderBy)
  : result Thrown string :=
  cd <- match o with
        | ByName c => Ok (c, ASC)
        | ByColumn c d => Ok (c, orDefault d ASC)
        | ByNull => Err TypeError
        | ByOther => Err (Sql (invalidOrderBy tableName MFind))
        end ;;
  if negb (includes columnsList (fst cd)) then Err (Sql (invalidOrderByColumn tableName MFind))
  else Ok ("[" ++ fst cd ++ "] " ++ directionText (snd cd)).

Definition buildOrderBySql (tableName : string) (columnsList : list string)
    (options : OrderOptions) : result Thrown string :=
  match orderBy options with
  | Some (o :: os) =>
      entries <- mapM (orderByEntry tableName columnsList) (o :: os) ;;
      Ok ("ORDER BY " ++ join entries ", ")
  | _ =>
      if truthyNum (skip options) || truthyNum (take options)
      then Ok ("ORDER BY [" ++ orDefault (defaultOrderBy options) "created_at" ++ "] ASC")
      else Ok ""
  end.

Definition defaultColumnFiltered : ColumnFilter := CFOne "id".

Definition insertSql (tableName : string) (entityParameters : EntityParameters)
    (columnFiltered : ColumnFilter) (options : KvOptions) : result Thrown QueryType :=
  let entityParametersFiltered := EPMany (entityParametersFilter entityParameters columnFiltered FOut) in
  let baseSql := "INSERT INTO [" ++ tableName ++ "]" in
  params <- raise (getParams tableName MInsert entityParametersFiltered options) ;;
  reversedColumnLists <- raise (groupEntityParametersBySortedColumns entityParametersFiltered) ;;
  sqlStatements <- buildInsertSqlStatements reversedColumnLists ;;
  let insertSqlStatement := map (fun sqlStatement => baseSql ++ " " ++ sqlStatement ++ ";") sqlStatements in
  Ok (mkQuery (join insertSqlStatement nl) params).

Definition updateByKeySql (tableName : string) (entityParameters : EntityParameters)
    (keyColumn : string) (options : KvOptions) : result Thrown QueryType :=
  let preparedUpdateEntityParams :=
    if negb (String.eqb keyColumn "id") then
      let entityParametersFiltered := EPMany (entityParametersFilter entityParameters (CFOne "id") FOut) in
      EPMany (prepareUpdateEntityParamsByKey entityParametersFiltered keyColumn)
    else EPMany (prepareUpdateEntityParamsByKey entityParameters "id") in
  let baseSql := "MERGE INTO [" ++ tableName ++ "] AS target" in
  params <- raise (getParams tableName MUpdate preparedUpdateEntityParams options) ;;
  reversedColumnLists <- raise (groupEntityParametersBySortedColumns preparedUpdateEntityParams) ;;
  sqlStatements <- buildUpdateSqlStatements reversedColumnLists keyColumn ;;
  let insertSqlStatement := map (fun sqlStatement => baseSql ++ " " ++ sqlStatement ++ ";") sqlStatements in
  Ok (mkQuery (join insertSqlStatement nl) params).

Definition deleteByIdSql (tableName : string) (entityParameters : EntityParameters)
    (inChunkSize : option Z) : result Thrown QueryType :=
  let entityParametersFiltered := EPMany (entityParametersFilter entityParameters (CFOne "id") FIn) in
  let mergedEntityParameter := EPMany (mergeEntityParametersById entityParametersFiltered) in
  let baseSql := "DELETE FROM [" ++ tableName ++ "]" in
  params <- raise (getParams tableName MDelete mergedEntityParameter
                             (mkKvOptions inChunkSize None None)) ;;
  groupedParametersSql <- raise (toGroupParametersSql tableName MDelete mergedEntityParameter
                                   (mkSqlOptions None None None inChunkSize)) ;;
  let sqlStatements :=
    map (fun conditions => baseSql ++ " WHERE (" ++ join conditions " AND " ++ ");")
        (map snd groupedParametersSql) in
  Ok (mkQuery (join sqlStatements nl) params).

Record SelectOptions : Type := mkSelectOptions {
  selSkip : option Z;
  selTake : option Z;
  selOrderBy : option (list OrderBy);
  selDefaultOrderBy : option string;
  selInChunkSize : option Z;
  selLikeMode : option LikeMode;
  selEscapeChar : option string
}.

(** lodash [size] of the [entityParameters] argument: the number of items of
    an array; for a single object its [length] when it is array-like, else
    the number of its fields. *)
Definition sizeOf (entityParameters : EntityParameters) : nat :=
  match entityParameters with
  | EPNil => 0
  | EPOne item =>
      match arrayLikeLength item with
      | Some n => n
      | None => length item
      end
  | EPMany items => length items
  end.

Definition selectByColumnsSql (tableName : string) (columnsList : list string)
    (entityParameters : EntityParameters) (options : SelectOptions) : result Thrown QueryType :=
  let baseSql := "SELECT * FROM [" ++ tableName ++ "]" in
  orderBySql <- buildOrderBySql tableName columnsList
                  (mkOrderOptions (selSkip options) (selTake options)
                                  (selOrderBy options) (selDefaultOrderBy options)) ;;
  let skip := orDefault (selSkip options) 0%Z in
  let take := orDefault (selTake options) DEFAULT_TAKE in
  let pagingSql :=
    if isSome (selSkip options) || isSome (selTake options)
    then "OFFSET " ++ numToString skip ++ " ROWS FETCH NEXT " ++ numToString take ++ " ROWS ONLY"
    else "" in
  if Nat.eqb (sizeOf entityParameters) 0 then
    Ok (mkQuery (nl ++ "    " ++ baseSql ++ nl ++ "    " ++ orderBySql ++ nl
                 ++ "    " ++ pagingSql ++ ";" ++ nl ++ "  ") [])
  else
    params <- raise (getParams tableName MFind entityParameters
                       (mkKvOptions (selInChunkSize options) (selLikeMode options)
                                    (selEscapeChar options))) ;;
    groupedParametersSql <- raise (toGroupParametersSql tableName MFind entityParameters
                                     (mkSqlOptions (selEscapeChar options) (Some columnsList)
                                                   (Some Throw) (selInChunkSize options))) ;;
    let sqlStatements :=
      map (fun conditions => "(" ++ join conditions " AND " ++ ")")
          (map snd groupedParametersSql) in
    let whereSql := "WHERE " ++ join sqlStatements " OR " in
    Ok (mkQuery (nl ++ "    " ++ baseSql ++ nl ++ "    " ++ whereSql ++ nl ++ "    " ++ orderBySql
                 ++ nl ++ "    " ++ pagingSql ++ ";" ++ nl ++ "  ") params).

(* ------------------------------------------------------------------ *)
(** ** [errors/dao.error.ts] *)

Record DaoError : Type := mkDaoError { message : string }.

Definition newDaoError (className message : string) : DaoError :=
  mkDaoError ("[DAO: " ++ className ++ "] " ++ message).

Definition noColumnError : string := "No columns".
Definition noIdError : string := "Missing id".
Definition sqlTypeNotFoundText : string := "SQL type not found".

Definition actionError (className : string) (action : Method) (message : string) : DaoError :=
  newDaoError className (message ++ " for " ++ methodText action).

Definition noColumn (className : string) (action : Method) : DaoError :=
  actionError className action noColumnError.

Definition noId (className : string) (action : Method) : DaoError :=
  actionError className action noIdError.

Definition sqlTypeNotFound (className : string) (action : Method) (paramKey : string) : DaoError :=
  actionError className action (sqlTypeNotFoundText ++ " for " ++ paramKey).

(* ------------------------------------------------------------------ *)
(** ** [lib/base.dao.ts]: the default before-hook and the mutations *)

(** What a DAO call can reject with. *)
Inductive DaoThrown : Type :=
| Dao (e : DaoError)
| FromSql (e : Thrown).

(** [pickBy(item, negate(isNil))] *)
Definition dropNilFields (item : EntityParameter) : EntityParameter :=
  filter (fun kv => negb (isNilValue (snd kv))) item.

(** [negate(isEmpty)] on an item. *)
Definition notEmpty (item : EntityParameter) : bool :=
  negb (Nat.eqb (length item) 0).

(** [keys(item)] *)
Definition keys (item : EntityParameter) : list string := map fst item.

(** Truthiness of a [MaybeArray<string> | undefined]. *)
Definition truthyFilter (columnFiltered : ColumnFilter) : bool :=
  match columnFiltered with
  | CFNil => false
  | CFOne EmptyString => false
  | _ => true
  end.

(** [columnFiltered === 'id'] *)
Definition isIdFilter (columnFiltered : ColumnFilter) : bool :=
  match columnFiltered with
  | CFOne s => String.eqb s "id"
  | _ => false
  end.

Definition cleanParameters (data : EntityParameters) (columnFiltered : ColumnFilter)
  : list EntityParameter :=
  let items := ensureArray data in
  let filtered := filter notEmpty (map dropNilFields items) in
  if truthyFilter columnFiltered then
    let columnsFiltered := filterColumns columnFiltered in
    filter (fun item =>
              let columns := keys item in
              forallb (fun c => includes columns c) columnsFiltered)
           filtered
  else filtered.

Section BaseDao.
(** The DAO instance: its class name, its table, the zod validation of
    [validateField] and whether a column resolves to a backend type in
    [bindParams] are given by the entity schema. *)
Variable className : string.
Variable tableName : string.
Variable validateField : list EntityParameter -> result DaoError (list EntityParameter).
Variable hasSqlType : string -> bool.

Definition defaultBeforeHook (data : EntityParameters) (action : Method)
    (columnFiltered : ColumnFilter) : result DaoError (list EntityParameter) :=
  let cleanedParameters := cleanParameters data columnFiltered in
  if Nat.eqb (length cleanedParameters) 0
     && negb (match action with MFind => true | _ => false end)
  then
    if isIdFilter columnFiltered then Err (noId className action)
    else Err (noColumn className action)
  else validateField cleanedParameters.

(** [runBefore] with the hooks the constructor installs: each one calls
    [defaultBeforeHook]; the hooks of update and delete default
    [columnFiltered] to ['id']. *)
Definition runBefore (data : EntityParameters) (action : Method)
    (columnFiltered : option ColumnFilter) : result DaoError (list EntityParameter) :=
  let columnFiltered :=
    match action, columnFiltered with
    | _, Some c => c
    | (MUpdate | MDelete), None => CFOne "id"
    | _, None => CFNil
    end in
  defaultBeforeHook data action columnFiltered.

Fixpoint bindParams (params : list (string * ValueKey)) (action : Method)
  : result DaoError unit :=
  match params with
  | [] => Ok tt
  | (_, v) :: rest =>
      if hasSqlType (key v) then bindParams rest action
      else Err (sqlTypeNotFound className action (key v))
  end.

(** A mutation returns its outcome and the statements handed to
    [request.query], in order. *)
Definition runMutation (action : Method) (data : EntityParameters)
    (build : list EntityParameter -> result Thrown QueryType)
  : result DaoThrown unit * list string :=
  match runBefore data action (Some (CFOne "id")) with
  | Err e => (Err (Dao e), [])
  | Ok cleanedParameters =>
      match build cleanedParameters with
      | Err e => (Err (FromSql e), [])
      | Ok query =>
          match bindParams (params query) action with
          | Err e => (Err (Dao e), [])
          | Ok _ => (Ok tt, [sql query])
          end
      end
  end.

Definition update (data : EntityParameters) : result DaoThrown unit * list string :=
  runMutation MUpdate data
    (fun cleaned => updateByKeySql tableName (EPMany cleaned) "id" noKvOptions).

Definition delete (data : EntityParameters) : result DaoThrown unit * list string :=
  runMutation MDelete data
    (fun cleaned => deleteByIdSql tableName (EPMany cleaned) None).
End BaseDao.

(* ------------------------------------------------------------------ *)
(** ** What the compiled predicates mean

    The fragments are T-SQL text.  To speak of the rows they select, the
    fragments the array branches emit are given as syntax trees with their
    printer [render] and their value in three-valued logic.  A parameter or a
    column holds a [prim]: [PNull] and [PUndefined] stand for NULL.  Values
    of different kinds never meet in one column (parameters are bound with
    the column's type): they are unequal and their order is left unknown,
    as is the order of dates and other objects ([PObj]), which the
    statements about ranges leave aside. *)

Inductive tri : Type := TTrue | TFalse | TUnknown.

Definition triOfBool (b : bool) : tri := if b then TTrue else TFalse.

Definition triNot (a : tri) : tri :=
  match a with TTrue => TFalse | TFalse => TTrue | TUnknown => TUnknown end.

Definition triAnd (a b : tri) : tri :=
  match a, b with
  | TFalse, _ | _, TFalse => TFalse
  | TTrue, TTrue => TTrue
  | _, _ => TUnknown
  end.

Definition triOr (a b : tri) : tri :=
  match a, b with
  | TTrue, _ | _, TTrue => TTrue
  | TFalse, TFalse => TFalse
  | _, _ => TUnknown
  end.

(** [a = b] *)
Definition sqlEq (a b : prim) : tri :=
  if isNil a || isNil b then TUnknown else triOfBool (primEqb a b).

(** [a < b] *)
Definition sqlLt (a b : prim) : tri :=
  match a, b with
  | PNum x, PNum y => triOfBool (Z.ltb x y)
  | PStr x, PStr y => triOfBool (String.ltb x y)
  | PBool x, PBool y => triOfBool (negb x && y)
  | _, _ => TUnknown
  end.

(** [a <= b] *)
Definition sqlLe (a b : prim) : tri := triOr (sqlLt a b) (sqlEq a b).

(** [IIF(c, a, b)]: [a] when [c] is true, [b] when it is false or unknown. *)
Definition sqlIIF (c : tri) (a b : prim) : prim :=
  match c with TTrue => a | _ => b end.

(** [x IN (v1, ..., vn)] is [x = v1 OR ... OR x = vn]. *)
Definition sqlIn (x : prim) (vs : list prim) : tri :=
  fold_right (fun v acc => triOr (sqlEq x v) acc) TFalse vs.

(** [x BETWEEN lo AND hi] is [x >= lo AND x <= hi]. *)
Definition sqlBetween (x lo hi : prim) : tri :=
  triAnd (sqlLe lo x) (sqlLe x hi).

#[warnings="-register-all"]
Inductive sqlPred : Type :=
| PConst (b : bool)                                   (* 1=1, 1=0 *)
| PIn (column : string) (names : list string)         (* [c] IN (@n, ...) *)
| PNotIn (column : string) (names : list string)      (* [c] NOT IN (@n, ...) *)
| PBetweenIIF (column : string) (n0 n1 : string)
| PAnyOf (ps : list sqlPred)                          (* (p OR ...) *)
| PAllOf (ps : list sqlPred).                         (* (p AND ...) *)

Definition placeholders (names : list string) : string :=
  join (map (fun n => "@" ++ n) names) ", ".

Fixpoint render (p : sqlPred) : string :=
  match p with
  | PConst true => "1=1"
  | PConst false => "1=0"
  | PIn c names => "[" ++ c ++ "] IN (" ++ placeholders names ++ ")"
  | PNotIn c names => "[" ++ c ++ "] NOT IN (" ++ placeholders names ++ ")"
  | PBetweenIIF c n0 n1 =>
      "[" ++ c ++ "] BETWEEN IIF(@" ++ n0 ++ " < @" ++ n1 ++ ", @" ++ n0 ++ ", @" ++ n1
      ++ ") AND IIF(@" ++ n0 ++ " > @" ++ n1 ++ ", @" ++ n0 ++ ", @" ++ n1 ++ ")"
  | PAnyOf ps => "(" ++ join (map render ps) " OR " ++ ")"
  | PAllOf ps => "(" ++ join (map render ps) " AND " ++ ")"
  end.

(** The values bound to a list of placeholders; [None] when one is not bound. *)
Fixpoint boundValues (params : list (string * ValueKey)) (names : list string)
  : option (list prim) :=
  match names with
  | [] => Some []
  | n :: names' =>
      match recordGet n params, boundValues params names' with
      | Some v, Some vs => Some (value v :: vs)
      | _, _ => None
      end
  end.

Definition optMap2 {A B C : Type} (f : A -> B -> C) (a : option A) (b : option B) : option C :=
  match a, b with
  | Some x, Some y => Some (f x y)
  | _, _ => None
  end.

(** The value of a predicate on a row, under the bound parameters; [None]
    when it mentions a parameter that is not bound. *)
Fixpoint holds (params : list (string * ValueKey)) (row : string -> prim) (p : sqlPred)
  : option tri :=
  match p with
  | PConst b => Some (triOfBool b)
  | PIn c names => option_map (sqlIn (row c)) (boundValues params names)
  | PNotIn c names => option_map (fun vs => triNot (sqlIn (row c) vs)) (boundValues params names)
  | PBetweenIIF c n0 n1 =>
      match recordGet n0 params, recordGet n1 params with
      | Some v0, Some v1 =>
          let a := value v0 in
          let b := value v1 in
          Some (sqlBetween (row c) (sqlIIF (sqlLt a b) a b) (sqlIIF (sqlLt b a) a b))
      | _, _ => None
      end
  | PAnyOf ps => fold_right (fun q acc => optMap2 triOr (holds params row q) acc) (Some TFalse) ps
  | PAllOf ps => fold_right (fun q acc => optMap2 triAnd (holds params row q) acc) (Some TTrue) ps
  end.

(** The row is selected. *)
Definition selects (params : list (string * ValueKey)) (row : string -> prim) (p : sqlPred) : bool :=
  match holds params row p with
  | Some TTrue => true
  | _ => false
  end.

(** The tree of the fragment that [sqlFragment] prints for a non-empty array
    under an operator other than BETWEEN and LIKE. *)
Definition chunkNames (groupKey : string) (arr : list prim) (cidx : nat) : list string :=
  mapi (fun _ i => groupKey ++ "_" ++ natToString cidx ++ "_" ++ natToString i) arr.

Definition chunksPred (keyStr : string) (itemIndex : nat) (operator : Operator)
    (chunks : list (list prim)) : sqlPred :=
  let groupKey := keyStr ++ "_" ++ natToString itemIndex in
  let chunkClauses :=
    mapi (fun arr cidx =>
            if isNegated operator then PNotIn keyStr (chunkNames groupKey arr cidx)
            else PIn keyStr (chunkNames groupKey arr cidx))
         chunks in
  match operator with
  | OpNotIn => PAllOf chunkClauses
  | _ => PAnyOf chunkClauses
  end.


(** Membership as [uniq] and SQL judge it on values that are not NULL. *)
Definition member (x : prim) (vs : list prim) : bool := existsb (primEqb x) vs.


(* ------------------------------------------------------------------ *)
(** ** Derived notions used to state the properties *)

(** The fragment [toGroupParametersSql] prints for one field of item
    [itemIndex]. *)
Definition fragmentOf (tableName : string) (action : Method) (options : SqlOptions)
    (itemIndex : nat) (field : string * FieldValue) : result SqlError string :=
  let (v, operator) := fieldQueryOf (snd field) in
  r <- sqlFragment tableName action options v (fst field) operator itemIndex ;;
  Ok (match r with Single p => snd p | Flat _ => "" end).

(** The fragments of every item, given the pairs visited for each item,
    pair by pair, from item [itemIndex] on. *)
Fixpoint fragmentsFrom (tableName : string) (action : Method) (options : SqlOptions)
    (itemIndex : nat) (visited : list (list (string * FieldValue)))
  : result SqlError (list (list string)) :=
  match visited with
  | [] => Ok []
  | fields :: rest =>
      here <- mapM (fragmentOf tableName action options itemIndex) fields ;;
      more <- fragmentsFrom tableName action options (S itemIndex) rest ;;
      Ok (here :: more)
  end.

(** Per-item lists paired with their item index; the items that contribute
    nothing do not appear. *)
Definition byIndexFrom {R : Type} (itemIndex : nat) (perItem : list (list R)) : list (nat * list R) :=
  filter (fun p => negb (Nat.eqb (length (snd p)) 0))
         (mapiFrom itemIndex (fun rs i => (i, rs)) perItem).

(** The entry of a record with index keys. *)
Fixpoint groupOf {R : Type} (k : nat) (rec : list (nat * list R)) : option (list R) :=
  match rec with
  | [] => None
  | (k', rs) :: rest => if Nat.eqb k k' then Some rs else groupOf k rest
  end.

(** [x] does not come after [y] in the order of [sortBy]. *)
Definition notAfter (x y : string) : Prop := String.ltb y x = false.

(** The grouping in the words of the specification: items are grouped by
    their sorted list of column names.  [groupColumnLists] keys the groups by
    the JSON text of that list instead. *)
Definition columnsEqb (a b : list string) : bool :=
  if list_eq_dec string_dec a b then true else false.

Fixpoint shapePush (sortedColumns : list string) (k : nat)
    (groups : list (list string * list nat)) : list (list string * list nat) :=
  match groups with
  | [] => [(sortedColumns, [k])]
  | (c, ks) :: rest =>
      if columnsEqb sortedColumns c then (c, (ks ++ [k])%list) :: rest
      else (c, ks) :: shapePush sortedColumns k rest
  end.

Definition shapeGroups (columnLists : list (nat * list string)) : list (list string * list nat) :=
  fold_left (fun groups kc => shapePush (sortBy (snd kc)) (fst kc) groups) columnLists [].

(** Membership of an index in the group of a shape. *)
Definition inGroup (g : list (list string * list nat)) (c : list string) (i : nat) : Prop :=
  exists ks, In (c, ks) g /\ In i ks.

(** A shape group under its JSON key. *)
Definition jsonKeyed (g : list string * list nat) : string * list nat :=
  (jsonStringify (fst g), snd g).

(** An item lodash iterates field by field: it has no [length] column that
    holds a length. *)
Definition notArrayLike (item : EntityParameter) : bool :=
  match arrayLikeLength item with Some _ => false | None => true end.

(** The column lists of the items that have columns, by item index, as
    [mapEntityItems] reads them. *)
Definition columnListsOf (items : list EntityParameter) : list (nat * list string) :=
  byIndexFrom 0 (map (fun item => keys (visitedFields item)) items).

(** The INSERT statement of one shape group. *)
Definition insertStatement (tableName : string) (g : list string * list nat) : string :=
  "INSERT INTO [" ++ tableName ++ "] ([" ++ join (fst g) "],  [" ++ "]) VALUES "
  ++ join (map (valuesRow (fst g)) (snd g)) ", " ++ ";".

(** The columns and rows of one shape group, as
    [buildColumnsAndValuesSqlStatements] lays them out. *)
Definition columnsAndValuesOf (g : list string * list nat) : ColumnsAndValues :=
  mkColumnsAndValues ("([" ++ join (fst g) "],  [" ++ "])")
                     (join (map (valuesRow (fst g)) (snd g)) ", ")
                     (fst g).

(** The MERGE statement of one shape group. *)
Definition updateStatement (tableName keyColumn : string) (g : list string * list nat) : string :=
  "MERGE INTO [" ++ tableName ++ "] AS target USING (VALUES" ++ nl
  ++ "    " ++ join (map (valuesRow (fst g)) (snd g)) ", " ++ nl
  ++ "  ) AS source([" ++ join (fst g) "],  [" ++ "]) " ++ nl
  ++ "   ON target." ++ keyColumn ++ " = source." ++ keyColumn ++ nl
  ++ "   WHEN MATCHED THEN" ++ nl
  ++ "  UPDATE SET "
  ++ join (map (fun col => col ++ " = source." ++ col)
               (filter (fun c => negb (String.eqb c keyColumn)) (fst g))) ", "
  ++ ";".

(** The items [updateByKeySql] compiles: [id] omitted when the key is
    another column, then one row per key value. *)
Definition preparedUpdateItems (entityParameters : EntityParameters) (keyColumn : string)
  : list EntityParameter :=
  if negb (String.eqb keyColumn "id")
  then prepareUpdateEntityParamsByKey
         (EPMany (entityParametersFilter entityParameters (CFOne "id") FOut)) keyColumn
  else prepareUpdateEntityParamsByKey entityParameters "id".



(** The operators under which a non-empty array is compiled to IN lists. *)
Definition isListOperator (operator : Operator) : bool :=
  match operator with
  | OpBetween | OpLike => false
  | _ => true
  end.

(** The bindings [keyValues] emits for the chunks of an array. *)
Definition chunkBindings (keyStr : string) (itemIndex : nat) (chunks : list (list prim))
  : list (string * ValueKey) :=
  let groupKey := keyStr ++ "_" ++ natToString itemIndex in
  concat (mapi (fun arr cidx =>
                  mapi (fun v i =>
                          (groupKey ++ "_" ++ natToString cidx ++ "_" ++ natToString i,
                           mkValueKey v keyStr))
                       arr)
               chunks).

(** One clause of a chunked list predicate, and the rows it selects. *)
Definition chunkClause (keyStr g : string) (neg : bool) (arr : list prim) (cidx : nat) : sqlPred :=
  if neg then PNotIn keyStr (chunkNames g arr cidx) else PIn keyStr (chunkNames g arr cidx).

Definition chunkLiteral (row : string -> prim) (keyStr : string) (neg : bool) (arr : list prim)
  : bool :=
  if neg then negb (member (row keyStr) arr) else member (row keyStr) arr.

(** No NULL among the values. *)
Definition noneNil (vs : list prim) : bool := forallb (fun v => negb (isNil v)) vs.

(** The condition of the statement [deleteByIdSql] prints for the merged
    ids: always false for none, else the chunked IN list. *)
Definition deleteCondition (ids : list prim) (size : Z) : string :=
  match ids with
  | [] => "1=0"
  | _ :: _ => render (chunksPred "id" 0 OpEq (chunk ids size))
  end.

(* ------------------------------------------------------------------ *)
(** ** Sample inputs used by the properties below *)

Definition neItem : EntityParameters :=
  EPOne [("x", Query 0 (Many [PNum 1; PNum 2]) (Some OpNe))].

Definition collidingItem : EntityParameters :=
  EPOne [("a_0", Raw (One (PNum 7)));
         ("a", Query 0 (Many [PNum 1; PNum 2]) (Some OpBetween))].

Definition skipZero : SelectOptions :=
  mkSelectOptions (Some 0%Z) None None None None None None.



Definition emptyInItems : list EntityParameter :=
  [ [("name", Raw (One (PStr "a")))];
    [("name", Raw (One (PStr "b"))); ("tags", Query 0 (Many []) (Some OpIn))] ].

Definition threeBetweenItems : list EntityParameter :=
  [ [("name", Raw (One (PStr "a")))];
    [("age", Query 0 (Many [PNum 1; PNum 2; PNum 3]) (Some OpBetween))] ].

Definition mixedBatch : EntityParameters :=
  EPMany [ [("id", Raw (One (PNum 1))); ("name", Raw (One (PStr "a")))];
           [("name", Raw (One (PStr "b")))] ].

Definition noIdBatch : EntityParameters :=
  EPMany [ [("id", Raw (One PNull)); ("name", Raw (One (PStr "a")))];
           [("name", Raw (One (PStr "b")))] ].

(** A schema that accepts every item, and one in which every column has a
    backend type. *)
Definition acceptAll (items : list EntityParameter) : result DaoError (list EntityParameter) :=
  Ok items.

Definition allTyped (_ : string) : bool := true.

(** The items the before-hook of update and delete keeps: null and undefined
    fields dropped, then the empty items, then the items without [id]. *)
Definition itemsWithId (data : EntityParameters) : list EntityParameter :=
  filter (fun item => includes (keys item) "id")
         (filter notEmpty (map dropNilFields (ensureArray data))).

Definition idAndName : EntityParameter :=
  [("id", Raw (One (PNum 1))); ("a", Raw (One (PNum 2)))].






Definition overlappingDeletes : EntityParameters :=
  EPMany [ [("id", Raw (Many [PNum 1; PNum 2])); ("name", Raw (One (PStr "a")))];
           [("id", Raw (Many [PNum 2; PNum 3]))];
           [("name", Raw (One (PStr "b")))];
           [("id", Raw (One (PNum 1)))] ].

(* ------------------------------------------------------------------ *)
(** ** Notions for the properties of the rest of the code *)

(** The value of the field is not an array. *)
Definition isScalarField (field : string * FieldValue) : bool :=
  match fst (fieldQueryOf (snd field)) with
  | One _ => true
  | Many _ => false
  end.

Definition scalarItem (item : EntityParameter) : bool := forallb isScalarField item.

(** The binding [keyValues] emits for a field whose value is not an array:
    none for null and undefined, else one under the name of the column and
    the item index. *)
Definition scalarBinding (options : KvOptions) (itemIndex : nat) (field : string * FieldValue)
  : list (string * ValueKey) :=
  match fieldQueryOf (snd field) with
  | (One v, operator) =>
      if isNil v then []
      else
        [(fst field ++ "_" ++ natToString itemIndex,
          mkValueKey
            (match operator with
             | OpLike => PStr (applyLikeValue v (orDefault (likeMode options) DEFAULT_LIKE_MODE)
                                              (kvEscapeChar options))
             | _ => v
             end)
            (fst field))]
  | (Many _, _) => []
  end.

Definition scalarBindings (options : KvOptions) (itemIndex : nat) (item : EntityParameter)
  : list (string * ValueKey) :=
  flat_map (scalarBinding options itemIndex) item.

(** A field written as a plain value that is neither null nor undefined. *)
Definition isPlainField (field : string * FieldValue) : bool :=
  match snd field with
  | Raw (One v) => negb (isNil v)
  | _ => false
  end.

Definition plainItem (item : EntityParameter) : bool := forallb isPlainField item.

(** The column an [orderBy] entry names, if it is a name or an object with
    a [column]. *)
Definition orderColumn (o : OrderBy) : option string :=
  match o with
  | ByName c => Some c
  | ByColumn c _ => Some c
  | ByNull | ByOther => None
  end.

Definition orderDirection (o : OrderBy) : Direction :=
  match o with
  | ByColumn _ (Some d) => d
  | _ => ASC
  end.

(** The entry names a column of the whitelist. *)
Definition validOrder (columnsList : list string) (o : OrderBy) : bool :=
  match orderColumn o with
  | Some c => includes columnsList c
  | None => false
  end.

Definition orderText (o : OrderBy) : string :=
  match orderColumn o with
  | Some c => "[" ++ c ++ "] " ++ directionText (orderDirection o)
  | None => ""
  end.

(** The options [selectByColumnsSql] hands to [buildOrderBySql] and to
    [toGroupParametersSql], and its paging clause. *)
Definition selectOrderOptions (options : SelectOptions) : OrderOptions :=
  mkOrderOptions (selSkip options) (selTake options) (selOrderBy options)
                 (selDefaultOrderBy options).

Definition selectSqlOptions (columnsList : list string) (options : SelectOptions) : SqlOptions :=
  mkSqlOptions (selEscapeChar options) (Some columnsList) (Some Throw) (selInChunkSize options).

Definition selectPaging (options : SelectOptions) : string :=
  if isSome (selSkip options) || isSome (selTake options)
  then "OFFSET " ++ numToString (orDefault (selSkip options) 0%Z) ++ " ROWS FETCH NEXT "
       ++ numToString (orDefault (selTake options) DEFAULT_TAKE) ++ " ROWS ONLY"
  else "".

(** The items that have at least one field. *)
Definition withFields {R : Type} (perItem : list (list R)) : list (list R) :=
  filter (fun rs => negb (Nat.eqb (length rs) 0)) perItem.

(** The error a computation raises, if any. *)
Definition errOf {E A : Type} (c : result E A) : option E :=
  match c with
  | Ok _ => None
  | Err e => Some e
  end.

(** Escaping for LIKE in one pass over the value: the escape character
    goes before each occurrence of itself, of [%] and of [_]. *)
Fixpoint escapeLike (e : ascii) (s : string) : string :=
  match s with
  | EmptyString => EmptyString
  | String c s' =>
      if Ascii.eqb c e || Ascii.eqb c "%" || Ascii.eqb c "_"
      then String e (String c (escapeLike e s'))
      else String c (escapeLike e s')
  end.

(** Reading an escaped pattern back: the character after an escape character
    stands for itself. *)
Fixpoint unescapeLike (e : ascii) (s : string) : string :=
  match s with
  | EmptyString => EmptyString
  | String c s' =>
      if Ascii.eqb c e then
        match s' with
        | EmptyString => EmptyString
        | String d s'' => String d (unescapeLike e s'')
        end
      else String c (unescapeLike e s')
  end.

(** Every [%] and every [_] of the pattern has an escape character before
    it.  (The bracket that opens a character class in T-SQL is not looked
    at.) *)
Fixpoint percentsEscaped (e : ascii) (s : string) : bool :=
  match s with
  | EmptyString => true
  | String c s' =>
      if Ascii.eqb c e then
        match s' with
        | EmptyString => false
        | String _ s'' => percentsEscaped e s''
        end
      else negb (Ascii.eqb c "%" || Ascii.eqb c "_") && percentsEscaped e s'
  end.

(** The wildcards [applyLikeValue] puts around the value. *)
Definition likeWrap (likeMode : LikeMode) (v : string) : string :=
  match likeMode with
  | LikeContains => "%" ++ v ++ "%"
  | LikeStartsWith => v ++ "%"
  | LikeEndsWith => "%" ++ v
  | LikeRaw => v
  end.

(* ------------------------------------------------------------------ *)
(** ** [lib/base.dao.ts]: validation, insert and the queries *)

(** [DaoError.validateField]: each error is a record with one entry, the
    index of the item and the message. *)
Definition validateFieldError (className : string) (errors : list (nat * string)) : DaoError :=
  let formatted :=
    map (fun err => join ["[" ++ natToString (fst err) ++ "]: " ++ snd err] nl) errors in
  newDaoError className (nl ++ join formatted nl).

(** The options of [find] and [findAll]. *)
Record FindOptions : Type := mkFindOptions {
  findSkip : option Z;
  findTake : option Z;
  findOrderBy : option (list OrderBy)
}.

Definition selectOptionsOf (options : option FindOptions) : SelectOptions :=
  match options with
  | Some o => mkSelectOptions (findSkip o) (findTake o) (findOrderBy o) None None None None
  | None => mkSelectOptions None None None None None None None
  end.

Section Dao.
(** The DAO instance: its class name, its table, the columns of its shape,
    the messages of the [safeParse] results that fail for an item (those of
    the fields that are not arrays first, then those of the array elements)
    and whether a column resolves to a backend type. *)
Variable className : string.
Variable tableName : string.
Variable shapeColumns : list string.
Variable failures : EntityParameter -> list string.
Variable hasSqlType : string -> bool.

(** The loop of [validateField] from item [index] on. *)
Fixpoint validateFrom (index : nat) (items validated : list EntityParameter)
    (errorMessages : list (nat * string)) : list EntityParameter * list (nat * string) :=
  match items with
  | [] => (validated, errorMessages)
  | item :: rest =>
      let failedResults := failures item in
      if Nat.eqb (length failedResults) 0
      then validateFrom (S index) rest (validated ++ [item])%list errorMessages
      else validateFrom (S index) rest validated
                        (errorMessages ++ map (pair index) failedResults)%list
  end.

Definition validateField (data : EntityParameters) : result DaoError (list EntityParameter) :=
  let (validated, errorMessages) := validateFrom 0 (ensureArray data) [] [] in
  if (0 <? length errorMessages)%nat then Err (validateFieldError className errorMessages)
  else Ok validated.

(** [runBefore] with the hooks of the constructor and this validation. *)
Definition before (data : EntityParameters) (action : Method)
    (columnFiltered : option ColumnFilter) : result DaoError (list EntityParameter) :=
  runBefore className (fun items => validateField (EPMany items)) data action columnFiltered.

(** A call returns its outcome and the statements handed to
    [request.query], each with the inputs bound on its request. *)
Definition insert (data : EntityParameters)
  : result DaoThrown unit * list (string * list (string * ValueKey)) :=
  match before data MInsert None with
  | Err e => (Err (Dao e), [])
  | Ok cleanedParameters =>
      match insertSql tableName (EPMany cleanedParameters) defaultColumnFiltered noKvOptions with
      | Err e => (Err (FromSql e), [])
      | Ok query =>
          match bindParams className hasSqlType (params query) MInsert with
          | Err e => (Err (Dao e), [])
          | Ok _ => (Ok tt, [(sql query, params query)])
          end
      end
  end.

Definition findAll (options : option FindOptions)
  : result DaoThrown unit * list (string * list (string * ValueKey)) :=
  match selectByColumnsSql tableName shapeColumns (EPMany []) (selectOptionsOf options) with
  | Err e => (Err (FromSql e), [])
  | Ok query => (Ok tt, [(sql query, [])])
  end.

Definition find (data : EntityParameters) (options : option FindOptions)
  : result DaoThrown unit * list (string * list (string * ValueKey)) :=
  match before data MFind None with
  | Err e => (Err (Dao e), [])
  | Ok cleanedParameters =>
      if Nat.eqb (length cleanedParameters) 0 then findAll options
      else
        match selectByColumnsSql tableName shapeColumns (EPMany cleanedParameters)
                                 (selectOptionsOf options) with
        | Err e => (Err (FromSql e), [])
        | Ok query =>
            match bindParams className hasSqlType (params query) MFind with
            | Err e => (Err (Dao e), [])
            | Ok _ => (Ok tt, [(sql query, params query)])
            end
        end
  end.
End Dao.

(** Every field of the item is written as a single plain value, null and
    undefined included. *)
Definition singleValued (item : EntityParameter) : bool :=
  forallb (fun kv : string * FieldValue =>
             match snd kv with
             | Raw (One _) => true
             | _ => false
             end) item.

(* ------------------------------------------------------------------ *)
(** ** [lib/base.dao.ts]: [fetchWithRelations] *)

(** A record of a record set: its columns in order. *)
Definition Row : Type := list (string * prim).

(** lodash [get(rec, column)] for a column name that is a single path
    segment: undefined when the column is absent. *)
Definition getField (rec : Row) (column : string) : prim :=
  orDefault (recordGet column rec) PUndefined.

(** An entry of [meta.foreignKey]. *)
Record ForeignKey : Type := mkForeignKey {
  fkColumn : string;
  fkTable : string;
  fkKey : string
}.

(** [Set.prototype.add]: a set keeps its elements in insertion order. *)
Definition setAdd (s : list prim) (v : prim) : list prim :=
  if member v s then s else (s ++ [v])%list.

(** The inner loop: the values of the column in the main records that are
    neither null nor undefined, added to the set of the table. *)
Definition addColumnValues (column : string) (mainRecords : list Row) (setForTable : list prim)
  : list prim :=
  fold_left (fun s rec =>
               let v := getField rec column in
               if negb (isNil v) then setAdd s v else s)
            mainRecords setForTable.

(** The loop that fills [tableToValues]. *)
Definition relationValues (fks : list ForeignKey) (mainRecords : list Row)
  : list (string * list prim) :=
  fold_left (fun tableToValues fk =>
               let setForTable :=
                 addColumnValues (fkColumn fk) mainRecords
                                 (orDefault (recordGet (fkTable fk) tableToValues) []) in
               if negb (Nat.eqb (length setForTable) 0)
               then recordSet (fkTable fk) setForTable tableToValues
               else tableToValues)
            fks [].

(** The rows attached to one main record for one foreign key. *)
Definition matchedRows (related : list (string * list Row)) (rec : Row) (fk : ForeignKey)
  : list Row :=
  let arr := orDefault (recordGet (fkTable fk) related) [] in
  let val := getField rec (fkColumn fk) in
  if isNil val then []
  else filter (fun record => primEqb (getField record (fkKey fk)) val) arr.

(** The final [map]: each main record with its [related] object. *)
Definition attachRelated (fks : list ForeignKey) (related : list (string * list Row))
    (mainRecords : list Row) : list (Row * list (string * list Row)) :=
  map (fun rec =>
         (rec, fold_left (fun out fk => recordSet (fkTable fk) (matchedRows related rec fk) out)
                         fks []))
      mainRecords.

(** The rows of a table that an IN query on [key] with the values selects. *)
Definition inQueryRows (key : string) (values : list prim) (table : list Row) : list Row :=
  filter (fun record => member (getField record key) values) table.

(* ------------------------------------------------------------------ *)
(** ** [lib/blob.ts]: blob names *)

(** [s.lastIndexOf(c)] for a character; [None] stands for -1. *)
Fixpoint lastIndexOf (c : ascii) (s : string) : option nat :=
  match s with
  | EmptyString => None
  | String x s' =>
      match lastIndexOf c s' with
      | Some i => Some (S i)
      | None => if Ascii.eqb x c then Some 0 else None
      end
  end.

(** [s.slice(from, to)] and [s.slice(from)] for indices within the string. *)
Definition slice (s : string) (from to : nat) : string := String.substring from (to - from) s.

Definition sliceFrom (s : string) (from : nat) : string :=
  String.substring from (String.length s - from) s.

Definition ensureExt (filename ext : string) : string :=
  let lastSlash := lastIndexOf "/" filename in
  let afterLastSlash := match lastSlash with Some i => S i | None => 0 end in
  let beforeSlash := slice filename 0 afterLastSlash in
  let afterSlash := sliceFrom filename afterLastSlash in
  let hasSlash := isSome lastSlash in
  let dir := if hasSlash then beforeSlash else "" in
  let base := if hasSlash then afterSlash else filename in
  let clean :=
    if containsStr "." base
    then slice base 0 (match lastIndexOf "." base with
                       | Some j => j
                       | None => String.length base - 1
                       end)
    else base in
  dir ++ clean ++ "." ++ ext.

(* ------------------------------------------------------------------ *)
(** ** [lib/base-http-handler.ts]: the [orderBy] query parameter *)

(** [s.split(c)] for a one-character separator. *)
Fixpoint splitOn (c : ascii) (s : string) : list string :=
  match s with
  | EmptyString => [EmptyString]
  | String x s' =>
      if Ascii.eqb x c then EmptyString :: splitOn c s'
      else match splitOn c s' with
           | [] => [String x EmptyString]
           | h :: t => String x h :: t
           end
  end.

(** White space, on ASCII text. *)
Definition isSpace (c : ascii) : bool :=
  let n := nat_of_ascii c in
  ((9 <=? n)%nat && (n <=? 13)%nat) || (n =? 32)%nat.

Fixpoint trimStart (s : string) : string :=
  match s with
  | EmptyString => EmptyString
  | String c s' => if isSpace c then trimStart s' else s
  end.

Fixpoint trimEnd (s : string) : string :=
  match s with
  | EmptyString => EmptyString
  | String c s' =>
      match trimEnd s' with
      | EmptyString => if isSpace c then EmptyString else String c EmptyString
      | rest => String c rest
      end
  end.

(** lodash [trim] without a character set. *)
Definition trim (s : string) : string := trimStart (trimEnd s).

Definition cleanSplit (q : option string) (separator : ascii) : list string :=
  filter (fun s => negb (String.eqb s ""))
         (map trim (splitOn separator (orDefault q ""))).

Section ParseOrderBy.
(** lodash [upperCase], which also splits its argument into words. *)
Variable upperCase : string -> string.

(** The callback of [parseOrderBy] on one part; [undefined] for [col] is
    an entry that is neither a name nor an object. *)
Definition parseOrderPart (p : string) : OrderBy :=
  match splitOn ":" p with
  | [] => ByOther
  | [col] => ByName col
  | col :: dir :: _ =>
      if String.eqb dir "" then ByName col
      else
        let d := if String.eqb (upperCase dir) "DESC" then DESC else ASC in
        ByColumn col (Some d)
  end.

Definition parseOrderBy (q : option string) : option (list OrderBy) :=
  match truthyStr q with
  | None => None
  | Some _ =>
      let parts := cleanSplit q "," in
      if Nat.eqb (length parts) 0 then None
      else Some (map parseOrderPart parts)
  end.
End ParseOrderBy.

(* ------------------------------------------------------------------ *)
(** ** [lib/db.ts]: the connection pool *)

(** [DbError]: the message. *)
Definition newDbError (errorType message : string) : string :=
  "[Db: " ++ errorType ++ "] " ++ message.

Definition connectionFailed : string := "CONNECTION FAILED".

Definition connectionError (message : string) : string :=
  newDbError connectionFailed ("No retries left" ++ ": " ++ message).

Definition connectionWarn (delay retries : nat) : string :=
  newDbError connectionFailed
    ("Retrying in " ++ natToString delay ++ "ms... (" ++ natToString retries ++ " retries left)").

Definition dBConnectedSuccessfully : string := "[Db: CONNECTION] DB connected successfully".

(** A connection pool, and the state of the [Database] singleton together
    with what the calls did: the number of calls of [sql.connect], the lines
    written to the console and the delays waited for, in order. *)
Record Pool : Type := mkPool { poolId : nat; connected : bool }.

Record DbState : Type := mkDbState {
  pool : option Pool;
  connects : nat;
  console : list string;
  waits : list nat
}.

(** [getPool]; [connect n] is the outcome of the [n]-th call of
    [sql.connect]: a pool, or the message of the error it rejects with. *)
Fixpoint getPool (connect : nat -> result string Pool) (retries delay : nat) (st : DbState)
  : result string Pool * DbState :=
  let reusable :=
    match pool st with
    | Some p => if connected p then Some p else None
    | None => None
    end in
  match reusable with
  | Some p => (Ok p, st)
  | None =>
      match connect (connects st) with
      | Ok p =>
          (Ok p, mkDbState (Some p) (S (connects st))
                           (console st ++ [dBConnectedSuccessfully])%list (waits st))
      | Err message =>
          match retries with
          | S retries' =>
              getPool connect retries' delay
                      (mkDbState (pool st) (S (connects st))
                                 (console st ++ [connectionWarn delay retries])%list
                                 (waits st ++ [delay])%list)
          | O => (Err (connectionError message),
                  mkDbState None (S (connects st)) (console st) (waits st))
          end
      end
  end.

(** The warnings of [k] failed attempts that had retries left, counting
    down from [retries]. *)
Fixpoint retryWarnings (delay retries k : nat) : list string :=
  match k with
  | O => []
  | S k' => connectionWarn delay retries :: retryWarnings delay (retries - 1) k'
  end.

(* ------------------------------------------------------------------ *)
(** ** Further sample inputs *)

Definition mixedScalars : EntityParameters :=
  EPMany [ [("id", Raw (One (PNum 7))); ("name", Raw (One (PStr "a"))); ("age", Raw (One (PNum 30)))];
           [("name", Raw (One (PStr "b"))); ("active", Raw (One (PBool true)))] ].

Definition noSelectOptions : SelectOptions := mkSelectOptions None None None None None None None.

Definition adultsOrBob : EntityParameters :=
  EPMany [ [("age", Query 0 (One (PNum 18)) (Some OpGe)); ("active", Raw (One (PBool true)))];
           [];
           [("name", Raw (One (PStr "bob")))] ].

Definition nullAge : list EntityParameter :=
  [ [("name", Raw (One (PStr "a"))); ("age", Query 0 (One PNull) (Some OpLt))] ].

Definition repeatedDeletes : list EntityParameter :=
  [ [("id", Raw (One (PNum 2)))]; [("id", Raw (Many [PNum 1; PNum 2]))] ].

Definition nullFilters : EntityParameters :=
  EPOne [("age", Raw (One PNull)); ("name", Raw (One PUndefined))].

Definition noFailures (_ : EntityParameter) : list string := [].

(** A schema in which [age] must not be negative. *)
Definition ageFailures (item : EntityParameter) : list string :=
  match recordGet "age" item with
  | Some (Raw (One (PNum z))) => if (z <? 0)%Z then ["age: too small"] else []
  | _ => []
  end.

Definition withNulls : EntityParameters :=
  EPMany [ [("id", Raw (One (PNum 7))); ("name", Raw (One (PStr "a"))); ("age", Raw (One PNull))];
           [("note", Raw (One PUndefined))];
           [("name", Raw (One (PStr "b"))); ("age", Raw (One (PNum 30)))] ].

Definition photoKeys : list ForeignKey :=
  [mkForeignKey "user_id" "users" "id"; mkForeignKey "album_id" "albums" "id"].

Definition photos : list Row :=
  [ [("id", PNum 1); ("user_id", PNum 10); ("album_id", PNull)];
    [("id", PNum 2); ("user_id", PNum 11); ("album_id", PNum 5)];
    [("id", PNum 3); ("user_id", PNum 10); ("album_id", PNum 5)] ].

Definition users : list Row :=
  [ [("id", PNum 10); ("name", PStr "a")];
    [("id", PNum 11); ("name", PStr "b")];
    [("id", PNum 12); ("name", PStr "c")] ].

(** A server that refuses the first two connections. *)
Definition thirdTimeLucky (n : nat) : result string Pool :=
  if (n <? 2)%nat then Err "ETIMEOUT" else Ok (mkPool n true).

Definition alwaysDown (_ : nat) : result string Pool := Err "ETIMEOUT".

Definition freshDb : DbState := mkDbState None 0 [] [].
(* ================================================================== *)
(** * Properties *)

(* ------------------------------------------------------------------ *)
(** ** Strings and decimal numerals *)

Lemma append_assoc (a b c : string) : (a ++ b) ++ c = a ++ (b ++ c).
Proof. induction a as [|x a IH]; simpl; [reflexivity | now rewrite IH]. Qed.

Lemma append_nil_r (a : string) : a ++ "" = a.
Proof. induction a as [|x a IH]; simpl; [reflexivity | now rewrite IH]. Qed.

Lemma append_inj_l (a b c : string) : a ++ b = a ++ c -> b = c.
Proof.
  induction a as [|x a IH]; simpl; intros H; [exact H|].
  injection H as H. now apply IH.
Qed.

Lemma chars_append (a b : string) : chars (a ++ b) = (chars a ++ chars b)%list.
Proof. induction a as [|x a IH]; simpl; [reflexivity | now rewrite <- IH]. Qed.

(** A string is cut at the first occurrence of a character in one way only. *)
Lemma cut_at_first (c : ascii) (s1 s2 t1 t2 : string) :
  ~ In c (chars s1) -> ~ In c (chars s2) ->
  s1 ++ String c t1 = s2 ++ String c t2 -> s1 = s2 /\ t1 = t2.
Proof.
  revert s2. induction s1 as [|x s1 IH]; intros [|y s2] H1 H2 H; simpl in *.
  - injection H as H. now split.
  - injection H as Hc _. subst y. exfalso. apply H2. now left.
  - injection H as Hc _. subst x. exfalso. apply H1. now left.
  - injection H as Hxy H. subst y.
    destruct (IH s2) as [E1 E2]; [tauto | tauto | exact H |].
    now subst.
Qed.

Lemma digits_no_underscore (d : Decimal.uint) :
  ~ In "_"%char (chars (NilEmpty.string_of_uint d)).
Proof.
  induction d; simpl; [tauto | intros [H|H]; [discriminate | auto] ..].
Qed.

Lemma natToString_no_underscore (n : nat) : ~ In "_"%char (chars (natToString n)).
Proof. apply digits_no_underscore. Qed.

Lemma digits_no_i (d : Decimal.uint) :
  ~ In "i"%char (chars (NilEmpty.string_of_uint d)).
Proof.
  induction d; simpl; [tauto | intros [H|H]; [discriminate | auto] ..].
Qed.

Lemma natToString_not_id (n : nat) : natToString n <> "id".
Proof.
  intros H. apply (digits_no_i (Nat.to_uint n)). fold (natToString n). rewrite H.
  now left.
Qed.

Lemma string_of_uint_inj (d d' : Decimal.uint) :
  NilEmpty.string_of_uint d = NilEmpty.string_of_uint d' -> d = d'.
Proof.
  intros H. apply (f_equal NilEmpty.uint_of_string) in H.
  rewrite !NilEmpty.usu in H. now injection H.
Qed.

Lemma natToString_inj (n m : nat) : natToString n = natToString m -> n = m.
Proof.
  unfold natToString. intros H. apply string_of_uint_inj in H.
  now apply Unsigned.to_uint_inj.
Qed.

(** Two indices printed after a common prefix determine the name. *)
Lemma indexed_name_inj (g : string) (c i c' i' : nat) :
  g ++ "_" ++ natToString c ++ "_" ++ natToString i
  = g ++ "_" ++ natToString c' ++ "_" ++ natToString i' ->
  c = c' /\ i = i'.
Proof.
  intros H. apply append_inj_l in H. simpl in H. injection H as H.
  apply cut_at_first in H; try apply natToString_no_underscore.
  destruct H as [H1 H2]. split; now apply natToString_inj.
Qed.

(* ------------------------------------------------------------------ *)
(** ** Indexed maps and chunks *)

Lemma mapiFrom_length {A B : Type} (f : A -> nat -> B) (l : list A) (a : nat) :
  length (mapiFrom a f l) = length l.
Proof. revert a. induction l as [|x l IH]; intros a; simpl; [reflexivity | now rewrite IH]. Qed.

Lemma map_mapiFrom {A B C : Type} (g : B -> C) (f : A -> nat -> B) (l : list A) (a : nat) :
  map g (mapiFrom a f l) = mapiFrom a (fun x i => g (f x i)) l.
Proof. revert a. induction l as [|x l IH]; intros a; simpl; [reflexivity | now rewrite IH]. Qed.

Lemma mapiFrom_ext {A B : Type} (f g : A -> nat -> B) (l : list A) (a : nat) :
  (forall x i, f x i = g x i) -> mapiFrom a f l = mapiFrom a g l.
Proof.
  intros H. revert a. induction l as [|x l IH]; intros a; simpl; [reflexivity|].
  now rewrite H, IH.
Qed.

Lemma mapiFrom_const_index {A B : Type} (f : A -> B) (l : list A) (a : nat) :
  mapiFrom a (fun x _ => f x) l = map f l.
Proof. revert a. induction l as [|x l IH]; intros a; simpl; [reflexivity | now rewrite IH]. Qed.

Lemma in_mapiFrom {A B : Type} (f : A -> nat -> B) (l : list A) (a : nat) (y : B) :
  In y (mapiFrom a f l) -> exists x i, a <= i /\ In x l /\ y = f x i.
Proof.
  revert a. induction l as [|x l IH]; intros a; simpl; [tauto|].
  intros [H|H].
  - exists x, a. auto.
  - destruct (IH _ H) as (x' & i & Hi & Hin & E). exists x', i. repeat split; auto; lia.
Qed.

Lemma NoDup_mapiFrom {A B : Type} (f : A -> nat -> B) (l : list A) (a : nat) :
  (forall x y i j, f x i = f y j -> i = j) -> NoDup (mapiFrom a f l).
Proof.
  intros Hinj. revert a. induction l as [|x l IH]; intros a; simpl; constructor.
  - intros H. apply in_mapiFrom in H. destruct H as (y & j & Hj & _ & E).
    apply Hinj in E. lia.
  - apply IH.
Qed.

Lemma NoDup_app_intro {A : Type} (l1 l2 : list A) :
  NoDup l1 -> NoDup l2 -> (forall x, In x l1 -> In x l2 -> False) -> NoDup (l1 ++ l2).
Proof.
  induction l1 as [|x l1 IH]; simpl; intros H1 H2 Hd; [exact H2|].
  inversion H1; subst. constructor.
  - rewrite in_app_iff. intros [H|H]; [tauto | eapply Hd; eauto].
  - apply IH; auto. intros y Hy1 Hy2. eapply Hd; eauto.
Qed.

(** Names built from a chunk index and an element index are pairwise
    distinct over all chunks. *)
Lemma NoDup_chunk_names {A : Type} (name : nat -> nat -> string) (chunks : list (list A)) (a : nat) :
  (forall c i c' i', name c i = name c' i' -> c = c' /\ i = i') ->
  NoDup (concat (mapiFrom a (fun arr cidx => mapiFrom 0 (fun _ i => name cidx i) arr) chunks)).
Proof.
  intros Hinj. revert a. induction chunks as [|arr chunks IH]; intros a; simpl; [constructor|].
  apply NoDup_app_intro.
  - apply NoDup_mapiFrom. intros x y i j E. now apply Hinj in E.
  - apply IH.
  - intros n H1 H2.
    apply in_mapiFrom in H1. destruct H1 as (_ & i & _ & _ & E1).
    apply in_concat in H2. destruct H2 as (l & Hl & Hn).
    apply in_mapiFrom in Hl. destruct Hl as (arr' & c & Hc & _ & El). subst l.
    apply in_mapiFrom in Hn. destruct Hn as (_ & j & _ & _ & E2).
    rewrite E1 in E2. apply Hinj in E2. lia.
Qed.

Lemma baseChunk_concat {A : Type} (fuel size : nat) (l : list A) :
  0 < size -> length l <= fuel -> concat (baseChunk fuel size l) = l.
Proof.
  intros Hs. revert l. induction fuel as [|fuel IH]; intros l Hl.
  - destruct l; [reflexivity | simpl in Hl; lia].
  - destruct l as [|x l]; [reflexivity|].
    change (baseChunk (S fuel) size (x :: l))
      with (firstn size (x :: l) :: baseChunk fuel size (skipn size (x :: l))).
    simpl concat. rewrite IH.
    + apply firstn_skipn.
    + rewrite length_skipn. cbn [length] in *. lia.
Qed.

Lemma baseChunk_bounds {A : Type} (fuel size : nat) (l : list A) :
  0 < size ->
  Forall (fun c => 0 < length c <= size) (baseChunk fuel size l).
Proof.
  intros Hs. revert l. induction fuel as [|fuel IH]; intros l; [constructor|].
  destruct l as [|x l]; [constructor|].
  change (baseChunk (S fuel) size (x :: l))
    with (firstn size (x :: l) :: baseChunk fuel size (skipn size (x :: l))).
  constructor; [|apply IH].
  rewrite length_firstn. cbn [length]. lia.
Qed.

Lemma chunk_concat {A : Type} (l : list A) (size : Z) :
  (1 <= size)%Z -> concat (chunk l size) = l.
Proof.
  intros Hs. unfold chunk.
  destruct (Nat.eqb_spec (length l) 0) as [E|E]; simpl.
  - destruct l; [reflexivity | discriminate].
  - destruct (Nat.ltb_spec (Z.to_nat (Z.max size 0)) 1) as [H|H]; [lia|].
    apply baseChunk_concat; lia.
Qed.

Lemma chunk_bounds {A : Type} (l : list A) (size : Z) :
  (1 <= size)%Z ->
  Forall (fun c => 0 < length c /\ (Z.of_nat (length c) <= size)%Z) (chunk l size).
Proof.
  intros Hs. unfold chunk.
  destruct (Nat.eqb (length l) 0 || (Z.to_nat (Z.max size 0) <? 1)%nat); [constructor|].
  eapply Forall_impl; [|apply (baseChunk_bounds (length l) (size := Z.to_nat (Z.max size 0)) l); lia].
  simpl. intros c Hc. lia.
Qed.

Lemma chunk_nonempty {A : Type} (l : list A) (size : Z) :
  (1 <= size)%Z -> l <> [] -> chunk l size <> [].
Proof.
  intros Hs Hl E. apply Hl. rewrite <- (chunk_concat l Hs), E. reflexivity.
Qed.

(* ------------------------------------------------------------------ *)
(** ** Records with string keys *)

Lemma recordSet_fresh {V : Type} (k : string) (v : V) (rec : list (string * V)) :
  ~ In k (map fst rec) -> recordSet k v rec = (rec ++ [(k, v)])%list.
Proof.
  induction rec as [|[k' v'] rec IH]; simpl; intros H; [reflexivity|].
  destruct (String.eqb_spec k k') as [E|E]; [subst; tauto|].
  rewrite IH; tauto.
Qed.

Lemma fold_recordSet_fresh {V W : Type} (f : W -> V) (kvs : list (string * W))
    (acc : list (string * V)) :
  NoDup (map fst kvs) ->
  (forall k, In k (map fst kvs) -> ~ In k (map fst acc)) ->
  fold_left (fun params kv => recordSet (fst kv) (f (snd kv)) params) kvs acc
  = (acc ++ map (fun kv => (fst kv, f (snd kv))) kvs)%list.
Proof.
  revert acc. induction kvs as [|[k w] kvs IH]; intros acc Hnd Hfresh; simpl.
  - now rewrite app_nil_r.
  - inversion Hnd; subst. rewrite recordSet_fresh by (apply Hfresh; now left).
    rewrite IH; auto.
    + now rewrite <- app_assoc.
    + intros k' Hk'. rewrite map_app, in_app_iff. simpl.
      intros [H|[H|[]]]; [eapply Hfresh; eauto; now right|].
      subst k'. tauto.
Qed.

Lemma valueKey_eta (v : ValueKey) : mkValueKey (value v) (key v) = v.
Proof. now destruct v. Qed.

(** When the names are pairwise distinct, [getParams] keeps every binding. *)
Lemma paramsRecord_NoDup (kvs : list (string * ValueKey)) :
  NoDup (map fst kvs) -> paramsRecord kvs = kvs.
Proof.
  intros H. unfold paramsRecord.
  rewrite (fold_recordSet_fresh (fun v => mkValueKey (value v) (key v))); auto.
  simpl. rewrite <- (map_id kvs) at 2. apply map_ext. intros [k v]. simpl.
  now rewrite valueKey_eta.
Qed.

Lemma recordGet_In {V : Type} (k : string) (v : V) (rec : list (string * V)) :
  NoDup (map fst rec) -> In (k, v) rec -> recordGet k rec = Some v.
Proof.
  induction rec as [|[k' v'] rec IH]; simpl; intros Hnd Hin; [tauto|].
  inversion Hnd; subst. destruct Hin as [E|Hin].
  - injection E as -> ->. now rewrite String.eqb_refl.
  - destruct (String.eqb_spec k k') as [E|E]; [|auto].
    subst. exfalso. apply H1. apply (in_map fst) in Hin. exact Hin.
Qed.

(* ------------------------------------------------------------------ *)
(** ** [uniq] *)

Lemma primEqb_eq (a b : prim) : primEqb a b = true <-> a = b.
Proof.
  destruct a, b; simpl; split; intros H; try discriminate; try reflexivity.
  - apply Bool.eqb_prop in H. now subst.
  - injection H as ->. apply Bool.eqb_reflx.
  - apply Z.eqb_eq in H. now subst.
  - injection H as ->. apply Z.eqb_refl.
  - apply String.eqb_eq in H. now subst.
  - injection H as ->. apply String.eqb_refl.
  - apply andb_prop in H. destruct H as [H1 H2].
    apply Nat.eqb_eq in H1. apply String.eqb_eq in H2. now subst.
  - injection H as -> ->. now rewrite Nat.eqb_refl, String.eqb_refl.
Qed.

Lemma member_In (x : prim) (vs : list prim) : member x vs = true <-> In x vs.
Proof.
  unfold member. rewrite existsb_exists. split.
  - intros (y & Hy & E). apply primEqb_eq in E. now subst.
  - intros H. exists x. split; [exact H | now apply primEqb_eq].
Qed.

Lemma uniq_from (seen l : list prim) :
  NoDup seen ->
  let r := fold_left (fun seen x => if existsb (primEqb x) seen then seen else (seen ++ [x])%list)
                     l seen in
  NoDup r /\ (forall x, In x r <-> In x seen \/ In x l).
Proof.
  revert seen. induction l as [|y l IH]; intros seen Hnd; simpl.
  - split; [exact Hnd | intros x; tauto].
  - destruct (existsb (primEqb y) seen) eqn:E.
    + destruct (IH seen Hnd) as [H1 H2]. split; [exact H1|].
      intros x. rewrite H2. apply (member_In y seen) in E.
      split; [tauto | intros [H|[H|H]]; subst; tauto].
    + assert (Hy : ~ In y seen).
      { intros H. apply (member_In y seen) in H. unfold member in H. congruence. }
      destruct (IH (seen ++ [y])%list) as [H1 H2].
      { apply NoDup_app_intro; auto.
        - constructor; [tauto | constructor].
        - intros x Hx [Hx'|[]]. subst. tauto. }
      split; [exact H1|]. intros x. rewrite H2, in_app_iff. simpl. tauto.
Qed.

Lemma uniq_NoDup (l : list prim) : NoDup (uniq l).
Proof. apply (uniq_from l (NoDup_nil _)). Qed.

Lemma uniq_In (l : list prim) (x : prim) : In x (uniq l) <-> In x l.
Proof.
  destruct (uniq_from l (NoDup_nil _)) as [_ H]. unfold uniq. rewrite H. simpl. tauto.
Qed.

(* ------------------------------------------------------------------ *)
(** ** The traversal [mapEntityItems] *)

Lemma bind_assoc {E A B C : Type} (c : result E A) (f : A -> result E B) (g : B -> result E C) :
  bind (bind c f) g = bind c (fun a => bind (f a) g).
Proof. now destruct c. Qed.

Lemma bind_ok_inv {E A B : Type} (c : result E A) (f : A -> result E B) (b : B) :
  bind c f = Ok b -> exists a, c = Ok a /\ f a = Ok b.
Proof. destruct c; simpl; intros H; [eauto | discriminate]. Qed.

Lemma visitedFields_plain (item : EntityParameter) :
  arrayLikeLength item = None -> visitedFields item = item.
Proof. unfold visitedFields. now intros ->. Qed.

Lemma notArrayLike_spec (item : EntityParameter) :
  notArrayLike item = true <-> arrayLikeLength item = None.
Proof. unfold notArrayLike. destruct (arrayLikeLength item); split; congruence. Qed.

Lemma visitedFields_all_plain (items : list EntityParameter) :
  forallb notArrayLike items = true -> map visitedFields items = items.
Proof.
  induction items as [|item items IH]; simpl; [reflexivity|].
  intros H. apply andb_prop in H. destruct H as [H1 H2].
  rewrite (visitedFields_plain item) by now apply notArrayLike_spec.
  now rewrite IH.
Qed.

Lemma recordGet_omit (item : EntityParameter) (paths : list string) (k : string) :
  recordGet k (omit item paths) = if includes paths k then None else recordGet k item.
Proof.
  unfold omit. induction item as [|[k' v] item IH]; [now destruct (includes paths k)|].
  cbn [filter fst]. destruct (includes paths k') eqn:Ek'; cbn [negb recordGet].
  - rewrite IH. destruct (String.eqb_spec k k') as [->|Hk]; [now rewrite Ek' | reflexivity].
  - destruct (String.eqb_spec k k') as [->|Hk]; [now rewrite Ek' | exact IH].
Qed.

(** Omitting columns does not make an item array-like. *)
Lemma omit_notArrayLike (item : EntityParameter) (paths : list string) :
  notArrayLike item = true -> notArrayLike (omit item paths) = true.
Proof.
  unfold notArrayLike, arrayLikeLength. rewrite recordGet_omit.
  now destruct (includes paths "length").
Qed.

Lemma all_notArrayLike (items : list EntityParameter) :
  (forall item, In item items -> notArrayLike item = true) ->
  forallb notArrayLike items = true.
Proof. intros H. now apply forallb_forall. Qed.

(** The keys the traversal visits are keys of the item or, for an
    array-like item, indices. *)
Lemma visited_keys (item : EntityParameter) (col : string) :
  In col (map fst (visitedFields item)) ->
  In col (map fst item) \/ exists index, col = natToString index.
Proof.
  unfold visitedFields. destruct (arrayLikeLength item) as [n|]; [|now left].
  intros H. right. apply in_map_iff in H. destruct H as ([k fv] & <- & H).
  apply in_map_iff in H. destruct H as (index & E & _). injection E as <- _.
  exists index. reflexivity.
Qed.

Section Traversal.
Variables E R : Type.
Variable callback : MaybeArray -> string -> Operator -> nat -> result E (CallbackResult R).

Lemma forEachItem_eachItem (itemIndex : nat) (items : list EntityParameter) :
  forEachItem callback itemIndex items = eachItem callback itemIndex (map visitedFields items).
Proof.
  revert itemIndex. induction items as [|item items IH]; intros itemIndex; simpl; [reflexivity|].
  unfold forEachField. now rewrite IH.
Qed.

Lemma mapEntityItems_visited (entityParameters : EntityParameters) :
  mapEntityItems callback entityParameters
  = eachItem callback 0 (map visitedFields (ensureArray entityParameters)).
Proof. apply forEachItem_eachItem. Qed.

Lemma mapEntityItems_plain (entityParameters : EntityParameters) :
  forallb notArrayLike (ensureArray entityParameters) = true ->
  mapEntityItems callback entityParameters = eachItem callback 0 (ensureArray entityParameters).
Proof. intros H. now rewrite mapEntityItems_visited, visitedFields_all_plain. Qed.

Lemma eachField_app (itemIndex : nat) (f1 f2 : EntityParameter) :
  eachField callback itemIndex (f1 ++ f2)%list
  = (r1 <- eachField callback itemIndex f1 ;;
     r2 <- eachField callback itemIndex f2 ;;
     Ok (r1 ++ r2)%list).
Proof.
  induction f1 as [|[k fv] f1 IH]; simpl.
  - destruct (eachField callback itemIndex f2); reflexivity.
  - destruct (fieldQueryOf fv) as [v op].
    destruct (callback v k op itemIndex) as [r|e]; simpl; [|reflexivity].
    rewrite IH.
    destruct (eachField callback itemIndex f1) as [r1|e]; simpl; [|reflexivity].
    destruct (eachField callback itemIndex f2) as [r2|e]; simpl; [|reflexivity].
    now rewrite app_assoc.
Qed.

Lemma eachItem_app (itemIndex : nat) (l1 l2 : list EntityParameter) :
  eachItem callback itemIndex (l1 ++ l2)%list
  = (r1 <- eachItem callback itemIndex l1 ;;
     r2 <- eachItem callback (itemIndex + length l1) l2 ;;
     Ok (r1 ++ r2)%list).
Proof.
  revert itemIndex. induction l1 as [|item l1 IH]; intros itemIndex; simpl.
  - rewrite Nat.add_0_r. destruct (eachItem callback itemIndex l2); reflexivity.
  - destruct (eachField callback itemIndex item) as [r|e]; simpl; [|reflexivity].
    rewrite IH. replace (S itemIndex + length l1) with (itemIndex + S (length l1)) by lia.
    destruct (eachItem callback (S itemIndex) l1) as [r1|e]; simpl; [|reflexivity].
    destruct (eachItem callback (itemIndex + S (length l1)) l2) as [r2|e]; simpl; [|reflexivity].
    now rewrite app_assoc.
Qed.

(** A field for which the callback returns an empty array can be removed
    from its item without changing the outcome. *)
Lemma eachItem_drop_silent_field (before after : list EntityParameter)
    (f1 f2 : EntityParameter) (k : string) (fv : FieldValue) :
  callback (fst (fieldQueryOf fv)) k (snd (fieldQueryOf fv)) (length before) = Ok (Flat []) ->
  eachItem callback 0 (before ++ (f1 ++ (k, fv) :: f2) :: after)%list
  = eachItem callback 0 (before ++ (f1 ++ f2) :: after)%list.
Proof.
  intros H. rewrite !eachItem_app. simpl.
  rewrite !eachField_app. simpl.
  destruct (fieldQueryOf fv) as [v op]. simpl in H. rewrite H. simpl.
  destruct (eachItem callback 0 before); simpl; [|reflexivity].
  destruct (eachField callback (length before) f1); simpl; [|reflexivity].
  destruct (eachField callback (length before) f2); reflexivity.
Qed.


End Traversal.

(* ------------------------------------------------------------------ *)
(** ** Grouping by item index *)

Lemma recordPush_new {R : Type} (k : nat) (v : R) (rec : list (nat * list R)) :
  Forall (fun p => fst p < k) rec -> recordPush k v rec = (rec ++ [(k, [v])])%list.
Proof.
  induction rec as [|[k' vs] rec IH]; simpl; intros H; [reflexivity|].
  inversion H as [|? ? Hk Hrec]; subst. simpl in Hk.
  destruct (Nat.eqb_spec k k'); [lia|].
  destruct (Nat.ltb_spec k k'); [lia|].
  now rewrite IH.
Qed.

Lemma recordPush_last {R : Type} (k : nat) (v : R) (vs : list R) (rec : list (nat * list R)) :
  Forall (fun p => fst p < k) rec ->
  recordPush k v (rec ++ [(k, vs)])%list = (rec ++ [(k, (vs ++ [v])%list)])%list.
Proof.
  induction rec as [|[k' vs'] rec IH]; simpl; intros H.
  - now rewrite Nat.eqb_refl.
  - inversion H as [|? ? Hk Hrec]; subst. simpl in Hk.
    destruct (Nat.eqb_spec k k'); [lia|].
    destruct (Nat.ltb_spec k k'); [lia|].
    now rewrite IH.
Qed.

Lemma groupByIndex_block {R : Type} (k : nat) (rs vs : list R) (rec : list (nat * list R)) :
  Forall (fun p => fst p < k) rec ->
  fold_left (fun acc p => recordPush (fst p) (snd p) acc) (map (pair k) rs) (rec ++ [(k, vs)])%list
  = (rec ++ [(k, (vs ++ rs)%list)])%list.
Proof.
  intros H. revert vs. induction rs as [|r rs IH]; intros vs; simpl.
  - now rewrite app_nil_r.
  - rewrite recordPush_last by assumption. rewrite IH. now rewrite <- app_assoc.
Qed.

(** Pairs that arrive item by item are regrouped into the per-item lists. *)
Lemma groupByIndex_perItem {R : Type} (perItem : list (list R)) (itemIndex : nat)
    (rec : list (nat * list R)) :
  Forall (fun p => fst p < itemIndex) rec ->
  fold_left (fun acc p => recordPush (fst p) (snd p) acc)
            (concat (mapiFrom itemIndex (fun rs i => map (pair i) rs) perItem)) rec
  = (rec ++ byIndexFrom itemIndex perItem)%list.
Proof.
  revert itemIndex rec. induction perItem as [|rs perItem IH]; intros itemIndex rec H.
  - simpl. now rewrite app_nil_r.
  - cbn [mapiFrom concat]. rewrite fold_left_app.
    unfold byIndexFrom. cbn [mapiFrom filter snd]. fold (byIndexFrom (S itemIndex) perItem).
    destruct rs as [|r rs].
    + simpl. apply IH. eapply Forall_impl; [|exact H]. simpl. intros; lia.
    + cbn [map fold_left fst snd length Nat.eqb negb].
      rewrite recordPush_new by assumption.
      rewrite groupByIndex_block by assumption.
      rewrite IH.
      * now rewrite <- app_assoc.
      * apply Forall_app. split.
        -- eapply Forall_impl; [|exact H]. simpl. intros; lia.
        -- constructor; [simpl; lia | constructor].
Qed.

Lemma sqlFragment_single tableName action options v k op idx r :
  sqlFragment tableName action options v k op idx = Ok r ->
  exists s, r = Single (idx, s).
Proof.
  unfold sqlFragment. intros H.
  repeat match type of H with
         | (if ?c then _ else _) = _ => destruct c
         | match ?x with _ => _ end = _ => destruct x
         end;
    try discriminate; injection H as <-; eauto.
Qed.

Lemma eachField_sqlFragment tableName action options idx item :
  eachField (sqlFragment tableName action options) idx item
  = (frs <- mapM (fragmentOf tableName action options idx) item ;; Ok (map (pair idx) frs)).
Proof.
  induction item as [|[k fv] item IH]; simpl; [reflexivity|].
  unfold fragmentOf at 1. simpl.
  destruct (fieldQueryOf fv) as [v op].
  destruct (sqlFragment tableName action options v k op idx) as [r|e] eqn:E; simpl; [|reflexivity].
  destruct (sqlFragment_single _ _ _ _ _ _ _ E) as [s ->].
  rewrite IH.
  destruct (mapM (fragmentOf tableName action options idx) item); reflexivity.
Qed.

Lemma eachItem_sqlFragment tableName action options idx items :
  eachItem (sqlFragment tableName action options) idx items
  = (perItem <- fragmentsFrom tableName action options idx items ;;
     Ok (concat (mapiFrom idx (fun rs i => map (pair i) rs) perItem))).
Proof.
  revert idx. induction items as [|item items IH]; intros idx; simpl; [reflexivity|].
  rewrite eachField_sqlFragment, IH.
  destruct (mapM (fragmentOf tableName action options idx) item); simpl; [|reflexivity].
  destruct (fragmentsFrom tableName action options (S idx) items); reflexivity.
Qed.

(** [toGroupParametersSql] compiles the fields of each item in order and
    returns, per item that has fields, the list of its fragments. *)
Lemma toGroupParametersSql_perItem tableName action eps options :
  toGroupParametersSql tableName action eps options
  = (perItem <- fragmentsFrom tableName action options 0 (map visitedFields (ensureArray eps)) ;;
     Ok (byIndexFrom 0 perItem)).
Proof.
  unfold toGroupParametersSql. rewrite mapEntityItems_visited, eachItem_sqlFragment.
  destruct (fragmentsFrom tableName action options 0 (map visitedFields (ensureArray eps)));
    simpl; [|reflexivity].
  unfold groupByIndex. now rewrite groupByIndex_perItem by constructor.
Qed.

Lemma mapM_nth {E A B : Type} (f : A -> result E B) (l : list A) (ys : list B) (k : nat) (x : A) :
  mapM f l = Ok ys -> nth_error l k = Some x ->
  exists y, nth_error ys k = Some y /\ f x = Ok y.
Proof.
  revert ys k. induction l as [|a l IH]; intros ys k H Hk; [destruct k; discriminate|].
  simpl in H. apply bind_ok_inv in H. destruct H as (y & Hy & H).
  apply bind_ok_inv in H. destruct H as (ys' & Hys & H). injection H as <-.
  destruct k as [|k]; simpl in *.
  - injection Hk as <-. eauto.
  - eauto.
Qed.

Lemma fragmentsFrom_nth tableName action options idx items perItem k item :
  fragmentsFrom tableName action options idx items = Ok perItem ->
  nth_error items k = Some item ->
  exists frs, nth_error perItem k = Some frs
              /\ mapM (fragmentOf tableName action options (idx + k)) item = Ok frs.
Proof.
  revert idx perItem k. induction items as [|it items IH]; intros idx perItem k H Hk;
    [destruct k; discriminate|].
  simpl in H. apply bind_ok_inv in H. destruct H as (here & Hhere & H).
  apply bind_ok_inv in H. destruct H as (more & Hmore & H). injection H as <-.
  destruct k as [|k]; simpl in *.
  - injection Hk as <-. rewrite Nat.add_0_r. eauto.
  - replace (idx + S k) with (S idx + k) by lia. eauto.
Qed.

Lemma groupOf_byIndexFrom {R : Type} (perItem : list (list R)) (idx k : nat) (rs : list R) :
  nth_error perItem k = Some rs -> rs <> [] ->
  groupOf (idx + k) (byIndexFrom idx perItem) = Some rs.
Proof.
  revert idx k. induction perItem as [|r perItem IH]; intros idx k Hk Hrs;
    [destruct k; discriminate|].
  unfold byIndexFrom. cbn [mapiFrom filter snd]. fold (byIndexFrom (S idx) perItem).
  destruct k as [|k]; simpl in Hk.
  - injection Hk as ->. destruct rs; [congruence|]. simpl.
    now rewrite Nat.add_0_r, Nat.eqb_refl.
  - replace (idx + S k) with (S idx + k) by lia.
    destruct (negb (length r =? 0)%nat); [|now apply IH].
    cbn [groupOf]. destruct (Nat.eqb_spec (S idx + k) idx); [lia|]. now apply IH.
Qed.

(** When every error a callback can raise on the fields at hand is [e0], so
    is every error of the traversal. *)
Section TraversalErrors.
Variables E R : Type.
Variable callback : MaybeArray -> string -> Operator -> nat -> result E (CallbackResult R).
Variable e0 : E.
Variable good : string -> Prop.
Hypothesis callback_errors :
  forall v k op i e, good k -> callback v k op i = Err e -> e = e0.



End TraversalErrors.



(* ------------------------------------------------------------------ *)
(** ** [JSON.parse] inverts [JSON.stringify] on arrays of strings *)

Lemma parse_quoted_char (c : ascii) (tail cur : string) (acc : list string) :
  parseElems (quoteJSONChar c ++ tail) (InString cur) acc
  = parseElems tail (InString (snoc cur c)) acc.
Proof.
  destruct c as [[] [] [] [] [] [] [] []]; reflexivity.
Qed.

Lemma parse_quoted_body (s tail cur : string) (acc : list string) :
  parseElems (quoteJSONBody s ++ String dquote tail) (InString cur) acc
  = parseElems tail AfterString (acc ++ [(cur ++ s)%string])%list.
Proof.
  revert cur. induction s as [|c s IH]; intros cur; simpl.
  - now rewrite append_nil_r.
  - rewrite append_assoc, parse_quoted_char, IH. unfold snoc.
    now rewrite append_assoc.
Qed.

Lemma parse_quoted_string (s tail : string) (acc : list string) :
  parseElems (quoteJSONString s ++ tail) ExpectString acc
  = parseElems tail AfterString (acc ++ [s])%list.
Proof.
  unfold quoteJSONString. cbn [append parseElems].
  replace (Ascii.eqb dquote dquote) with true by reflexivity.
  rewrite append_assoc. cbn [append]. apply parse_quoted_body.
Qed.

Lemma join_cons2 (x y : string) (l : list string) (sep : string) :
  join (x :: y :: l) sep = x ++ sep ++ join (y :: l) sep.
Proof. reflexivity. Qed.

Lemma parse_joined (l : list string) (s : string) (acc : list string) :
  parseElems (join (map quoteJSONString (s :: l)) "," ++ "]") ExpectString acc
  = Some (acc ++ s :: l)%list.
Proof.
  revert s acc. induction l as [|s' l IH]; intros s acc.
  - unfold join. cbn [map String.concat]. rewrite parse_quoted_string. reflexivity.
  - change (map quoteJSONString (s :: s' :: l))
      with (quoteJSONString s :: map quoteJSONString (s' :: l)).
    cbn [map]. rewrite join_cons2, !append_assoc, parse_quoted_string.
    change ("," ++ join (quoteJSONString s' :: map quoteJSONString l) "," ++ "]")
      with (String "," (join (map quoteJSONString (s' :: l)) "," ++ "]")).
    cbn [parseElems].
    replace (Ascii.eqb "," ",") with true by reflexivity.
    rewrite IH. now rewrite <- app_assoc.
Qed.

Theorem jsonParse_jsonStringify (l : list string) : jsonParse (jsonStringify l) = Some l.
Proof.
  destruct l as [|s l]; [reflexivity|].
  unfold jsonStringify, jsonParse. cbn [append].
  replace (Ascii.eqb "[" "[") with true by reflexivity.
  pose proof (parse_joined l s []) as H. simpl app in H.
  destruct (join (map quoteJSONString (s :: l)) "," ++ "]") as [|c [|c' rest]] eqn:E.
  - discriminate.
  - exfalso. destruct l; unfold join in E; cbn in E; injection E as _ E;
      [destruct (quoteJSONBody s) | destruct (quoteJSONBody s)]; discriminate.
  - exact H.
Qed.

Lemma jsonStringify_inj (a b : list string) : jsonStringify a = jsonStringify b -> a = b.
Proof.
  intros H. apply (f_equal jsonParse) in H. rewrite !jsonParse_jsonStringify in H.
  now injection H.
Qed.

Lemma jsonStringify_eqb (a b : list string) :
  String.eqb (jsonStringify a) (jsonStringify b) = columnsEqb a b.
Proof.
  unfold columnsEqb. destruct (list_eq_dec string_dec a b) as [E|E].
  - subst. apply String.eqb_refl.
  - apply String.eqb_neq. intros H. apply E. now apply jsonStringify_inj.
Qed.

(* ------------------------------------------------------------------ *)
(** ** The column-shape grouper *)

Lemma eachField_columns (idx : nat) (item : EntityParameter) :
  eachField columnCallback idx item = Ok (map (pair idx) (keys item)).
Proof.
  induction item as [|[k fv] item IH]; simpl; [reflexivity|].
  destruct (fieldQueryOf fv). simpl. now rewrite IH.
Qed.

Lemma eachItem_columns (idx : nat) (items : list EntityParameter) :
  eachItem columnCallback idx items
  = Ok (concat (mapiFrom idx (fun rs i => map (pair i) rs) (map keys items))).
Proof.
  revert idx. induction items as [|item items IH]; intros idx; simpl; [reflexivity|].
  now rewrite eachField_columns, IH.
Qed.

Lemma getColumnLists_spec (eps : EntityParameters) :
  getColumnLists eps = Ok (columnListsOf (ensureArray eps)).
Proof.
  unfold getColumnLists. rewrite mapEntityItems_visited, eachItem_columns. simpl.
  unfold groupByIndex, columnListsOf. rewrite map_map.
  now rewrite groupByIndex_perItem by constructor.
Qed.


Lemma in_byIndexFrom {R : Type} (perItem : list (list R)) (idx i : nat) (rs : list R) :
  In (i, rs) (byIndexFrom idx perItem)
  <-> exists k, i = idx + k /\ nth_error perItem k = Some rs /\ rs <> [].
Proof.
  revert idx. induction perItem as [|r perItem IH]; intros idx.
  - simpl. split; [tauto | intros (k & _ & H & _); destruct k; discriminate].
  - unfold byIndexFrom. cbn [mapiFrom filter snd]. fold (byIndexFrom (S idx) perItem).
    assert (Hrest : In (i, rs) (byIndexFrom (S idx) perItem)
                    <-> exists k, i = idx + S k /\ nth_error perItem k = Some rs /\ rs <> []).
    { rewrite IH. split; intros (k & E & H); exists k; (split; [lia | exact H]). }
    destruct r as [|x r]; cbn [length Nat.eqb negb].
    + rewrite Hrest. split.
      * intros (k & E & H & Hne). exists (S k). auto.
      * intros (k & E & H & Hne). destruct k as [|k]; [simpl in H; congruence|].
        exists k. auto.
    + cbn [In]. rewrite Hrest. split.
      * intros [E|(k & E & H & Hne)].
        -- injection E as <- <-. exists 0. repeat split; [lia | discriminate].
        -- exists (S k). auto.
      * intros (k & E & H & Hne). destruct k as [|k].
        -- left. simpl in H. injection H as ->. f_equal. lia.
        -- right. exists k. auto.
Qed.

Lemma byIndexFrom_keys_NoDup {R : Type} (perItem : list (list R)) (idx : nat) :
  NoDup (map fst (byIndexFrom idx perItem)).
Proof.
  revert idx. induction perItem as [|r perItem IH]; intros idx; [constructor|].
  unfold byIndexFrom. cbn [mapiFrom filter snd]. fold (byIndexFrom (S idx) perItem).
  destruct (negb (length r =? 0)%nat); [|apply IH].
  cbn [map fst]. constructor; [|apply IH].
  rewrite in_map_iff. intros ([i rs] & E & H). simpl in E. subst i.
  apply in_byIndexFrom in H. destruct H as (k & E & _). lia.
Qed.

Lemma groupPush_shapePush (cols : list string) (k : nat) (g : list (list string * list nat)) :
  groupPush (jsonStringify cols) k (map jsonKeyed g) = map jsonKeyed (shapePush cols k g).
Proof.
  induction g as [|[c ks] g IH]; [reflexivity|].
  cbn [map shapePush]. unfold jsonKeyed at 1. cbn [groupPush fst snd].
  rewrite jsonStringify_eqb. destruct (columnsEqb cols c); [reflexivity|].
  cbn [map]. now rewrite IH.
Qed.

(** The JSON-keyed groups are the shape groups under their JSON keys. *)
Lemma groupColumnLists_shapeGroups (cl : list (nat * list string)) :
  groupColumnLists cl = map jsonKeyed (shapeGroups cl).
Proof.
  unfold groupColumnLists, shapeGroups.
  change (@nil (string * list nat)) with (map jsonKeyed []).
  generalize (@nil (list string * list nat)) as g.
  induction cl as [|[i cols] cl IH]; intros g; simpl; [reflexivity|].
  now rewrite groupPush_shapePush, IH.
Qed.

Lemma columnsEqb_eq (a b : list string) : columnsEqb a b = true <-> a = b.
Proof.
  unfold columnsEqb. destruct (list_eq_dec string_dec a b); split; congruence.
Qed.

Lemma shapePush_member (c : list string) (k : nat) (g : list (list string * list nat))
    (c' : list string) (i : nat) :
  inGroup (shapePush c k g) c' i <-> inGroup g c' i \/ (c' = c /\ i = k).
Proof.
  unfold inGroup. induction g as [|[d ks] g IH]; simpl.
  - split.
    + intros (ks & [E|[]] & Hi). injection E as <- <-. destruct Hi as [<-|[]]. now right.
    + intros [(ks & [] & _)|[-> ->]]. exists [k]. split; [now left | now left].
  - destruct (columnsEqb c d) eqn:E.
    + apply columnsEqb_eq in E. subst d. split.
      * intros (ks' & [E|Hin] & Hi).
        -- injection E as <- <-. apply in_app_iff in Hi. destruct Hi as [Hi|[<-|[]]].
           ++ left. exists ks. split; [now left | exact Hi].
           ++ now right.
        -- left. exists ks'. split; [now right | exact Hi].
      * intros [(ks' & [E|Hin] & Hi)|[-> ->]].
        -- injection E as <- <-. exists (ks ++ [k])%list. split; [now left|].
           apply in_app_iff. now left.
        -- exists ks'. split; [now right | exact Hi].
        -- exists (ks ++ [k])%list. split; [now left|]. apply in_app_iff. right. now left.
    + split.
      * intros (ks' & [E'|Hin] & Hi).
        -- left. exists ks'. split; [now left | exact Hi].
        -- destruct (proj1 IH) as [(ks'' & H1 & H2)|H]; [eauto | | now right].
           left. exists ks''. split; [now right | exact H2].
      * intros [(ks' & [E'|Hin] & Hi)|H].
        -- exists ks'. split; [now left | exact Hi].
        -- destruct (proj2 IH) as (ks'' & H1 & H2); [left; eauto|].
           exists ks''. split; [now right | exact H2].
        -- destruct (proj2 IH) as (ks'' & H1 & H2); [now right|].
           exists ks''. split; [now right | exact H2].
Qed.

Lemma shapePush_keys (c : list string) (k : nat) (g : list (list string * list nat)) :
  NoDup (map fst g) ->
  NoDup (map fst (shapePush c k g))
  /\ (forall c', In c' (map fst (shapePush c k g)) <-> c' = c \/ In c' (map fst g)).
Proof.
  induction g as [|[d ks] g IH]; simpl; intros Hnd.
  - split; [constructor; [tauto | constructor] | intros c'; split; intros [H|H]; auto; tauto].
  - inversion Hnd as [|? ? Hd Hg]; subst.
    destruct (columnsEqb c d) eqn:E; simpl.
    + apply columnsEqb_eq in E. subst d. split; [exact Hnd|].
      intros c'. split; [tauto | intros [->|H]; tauto].
    + destruct (IH Hg) as [H1 H2]. split.
      * constructor; [|exact H1]. rewrite H2. intros [->|H]; [|tauto].
        assert (columnsEqb c c = true) by now apply columnsEqb_eq. congruence.
      * intros c'. rewrite H2. tauto.
Qed.

Lemma shapePush_indices (c : list string) (k : nat) (g : list (list string * list nat)) :
  Permutation (concat (map snd (shapePush c k g))) (k :: concat (map snd g)).
Proof.
  induction g as [|[d ks] g IH]; simpl; [reflexivity|].
  destruct (columnsEqb c d); simpl.
  - rewrite <- app_assoc. simpl.
    apply Permutation_sym.
    apply (Permutation_middle ks (concat (map snd g)) k).
  - rewrite IH. apply Permutation_sym.
    apply (Permutation_middle ks (concat (map snd g)) k).
Qed.

(** What the fold of [shapeGroups] maintains. *)
Lemma shapeGroups_from (cl : list (nat * list string)) (g : list (list string * list nat)) :
  NoDup (map fst g) ->
  let r := fold_left (fun groups kc => shapePush (sortBy (snd kc)) (fst kc) groups) cl g in
  NoDup (map fst r)
  /\ (forall c i, inGroup r c i <->
                  inGroup g c i \/ exists cols, In (i, cols) cl /\ c = sortBy cols)
  /\ Permutation (concat (map snd r)) (concat (map snd g) ++ map fst cl).
Proof.
  revert g. induction cl as [|[k cols] cl IH]; intros g Hnd; simpl.
  - split; [exact Hnd|]. split.
    + intros c i. split; [tauto | intros [H|(? & [] & _)]; exact H].
    + now rewrite app_nil_r.
  - destruct (shapePush_keys (sortBy cols) k g Hnd) as [Hnd' _].
    destruct (IH _ Hnd') as (H1 & H2 & H3). split; [exact H1|]. split.
    + intros c i. rewrite H2, shapePush_member. split.
      * intros [[H|[-> ->]]|(cols' & Hin & E)].
        -- now left.
        -- right. exists cols. split; [now left | reflexivity].
        -- right. exists cols'. split; [now right | exact E].
      * intros [H|(cols' & [E|Hin] & Ec)].
        -- left. now left.
        -- injection E as <- <-. left. right. now split.
        -- right. exists cols'. now split.
    + rewrite H3, shapePush_indices. simpl.
      apply (Permutation_middle (concat (map snd g)) (map fst cl) k).
Qed.


Lemma buildColumnsAndValues_shapeGroups (g : list (list string * list nat)) :
  buildColumnsAndValuesSqlStatements (map jsonKeyed g) = Ok (map columnsAndValuesOf g).
Proof.
  unfold buildColumnsAndValuesSqlStatements.
  induction g as [|[c ks] g IH]; [reflexivity|].
  cbn [map mapM]. unfold jsonKeyed at 1. cbn [fst snd].
  rewrite jsonParse_jsonStringify. cbn [bind]. rewrite IH. reflexivity.
Qed.

Lemma insert_statement_text (tableName : string) (g : list string * list nat) :
  ("INSERT INTO [" ++ tableName ++ "]") ++ " "
  ++ (columnSql (columnsAndValuesOf g) ++ " VALUES " ++ valuesSql (columnsAndValuesOf g)) ++ ";"
  = insertStatement tableName g.
Proof.
  unfold insertStatement, columnsAndValuesOf. cbn [columnSql valuesSql].
  rewrite !append_assoc. reflexivity.
Qed.

Lemma update_statement_text (tableName keyColumn : string) (g : list string * list nat) :
  ("MERGE INTO [" ++ tableName ++ "] AS target") ++ " "
  ++ ("USING (VALUES" ++ nl ++ "    " ++ valuesSql (columnsAndValuesOf g) ++ nl
      ++ "  ) AS source" ++ columnSql (columnsAndValuesOf g) ++ " " ++ nl
      ++ "   ON target." ++ keyColumn ++ " = source." ++ keyColumn ++ nl
      ++ "   WHEN MATCHED THEN" ++ nl
      ++ "  UPDATE SET "
      ++ join (map (fun col => col ++ " = source." ++ col)
                   (filter (fun c => negb (String.eqb c keyColumn))
                           (columns (columnsAndValuesOf g)))) ", ")
  ++ ";"
  = updateStatement tableName keyColumn g.
Proof.
  unfold updateStatement, columnsAndValuesOf. cbn [columnSql valuesSql columns].
  rewrite !append_assoc. reflexivity.
Qed.

Lemma groupEntityParameters_spec (eps : EntityParameters) :
  groupEntityParametersBySortedColumns eps
  = Ok (map jsonKeyed (shapeGroups (columnListsOf (ensureArray eps)))).
Proof.
  unfold groupEntityParametersBySortedColumns. rewrite getColumnLists_spec. simpl.
  now rewrite groupColumnLists_shapeGroups.
Qed.

(** [insertSql] binds the parameters of the filtered items and prints one
    INSERT statement per shape group of the filtered items. *)
Lemma insertSql_spec tableName eps columnFiltered options :
  insertSql tableName eps columnFiltered options
  = (params <- raise (getParams tableName MInsert
                        (EPMany (entityParametersFilter eps columnFiltered FOut)) options) ;;
     Ok (mkQuery
           (join (map (insertStatement tableName)
                      (shapeGroups (columnListsOf (entityParametersFilter eps columnFiltered FOut))))
                 nl)
           params)).
Proof.
  unfold insertSql. rewrite groupEntityParameters_spec.
  destruct (raise (getParams _ _ _ _)) as [params|e]; [|reflexivity].
  cbn [bind raise ensureArray]. unfold buildInsertSqlStatements.
  rewrite buildColumnsAndValues_shapeGroups. cbn [bind].
  rewrite !map_map. do 3 f_equal. apply map_ext. intros g. apply insert_statement_text.
Qed.

Lemma updateByKeySql_spec tableName eps keyColumn options :
  let prepared := preparedUpdateItems eps keyColumn in
  updateByKeySql tableName eps keyColumn options
  = (params <- raise (getParams tableName MUpdate (EPMany prepared) options) ;;
     Ok (mkQuery
           (join (map (updateStatement tableName keyColumn)
                      (shapeGroups (columnListsOf prepared)))
                 nl)
           params)).
Proof.
  intros prepared. unfold updateByKeySql.
  replace (if negb (String.eqb keyColumn "id")
           then EPMany (prepareUpdateEntityParamsByKey
                          (EPMany (entityParametersFilter eps (CFOne "id") FOut)) keyColumn)
           else EPMany (prepareUpdateEntityParamsByKey eps "id"))
    with (EPMany prepared)
    by (subst prepared; unfold preparedUpdateItems; now destruct (negb (String.eqb keyColumn "id"))).
  rewrite groupEntityParameters_spec.
  destruct (raise (getParams _ _ _ _)) as [params|e]; [|reflexivity].
  cbn [bind raise ensureArray]. unfold buildUpdateSqlStatements.
  rewrite buildColumnsAndValues_shapeGroups. cbn [bind].
  rewrite !map_map. do 3 f_equal. apply map_ext. intros g. apply update_statement_text.
Qed.

Lemma keys_nil_iff (item : EntityParameter) : keys item = [] <-> item = [].
Proof. destruct item; simpl; split; congruence. Qed.

Lemma in_columnListsOf (items : list EntityParameter) (i : nat) (cols : list string) :
  In (i, cols) (columnListsOf items)
  <-> exists item, nth_error items i = Some item /\ visitedFields item <> []
                   /\ cols = keys (visitedFields item).
Proof.
  unfold columnListsOf. rewrite in_byIndexFrom. split.
  - intros (k & E & H & Hne). simpl in E. subst k.
    rewrite nth_error_map in H. destruct (nth_error items i) as [item|]; [|discriminate].
    injection H as <-. exists item. repeat split. now rewrite <- keys_nil_iff.
  - intros (item & H & Hne & ->). exists i. repeat split.
    + rewrite nth_error_map, H. reflexivity.
    + now rewrite keys_nil_iff.
Qed.

(** The shape groups partition the items that have columns: an index lies
    in the group of a shape exactly when its item has columns and that
    sorted column list, the shapes of the groups are pairwise distinct, and
    no index is listed twice.  The columns of an item are the keys the
    traversal visits. *)
Lemma shapeGroups_partition_visited (items : list EntityParameter) :
  let groups := shapeGroups (columnListsOf items) in
  NoDup (map fst groups)
  /\ (forall c i, inGroup groups c i <->
                  exists item, nth_error items i = Some item /\ visitedFields item <> []
                               /\ c = sortBy (keys (visitedFields item)))
  /\ NoDup (concat (map snd groups)).
Proof.
  destruct (@shapeGroups_from (columnListsOf items) [] (NoDup_nil _)) as (H1 & H2 & H3).
  split; [exact H1|]. split.
  - intros c i. unfold shapeGroups. rewrite H2. split.
    + intros [(ks & [] & _)|(cols & Hin & ->)].
      apply in_columnListsOf in Hin. destruct Hin as (item & Hi & Hne & ->). eauto.
    + intros (item & Hi & Hne & ->). right. exists (keys (visitedFields item)).
      split; [|reflexivity]. apply in_columnListsOf. eauto.
  - eapply Permutation_NoDup; [apply Permutation_sym; exact H3|].
    simpl. apply byIndexFrom_keys_NoDup.
Qed.

Lemma all_plain_nth (items : list EntityParameter) (i : nat) (item : EntityParameter) :
  forallb notArrayLike items = true -> nth_error items i = Some item ->
  visitedFields item = item.
Proof.
  intros H Hi. apply visitedFields_plain, notArrayLike_spec.
  rewrite forallb_forall in H. apply H. eapply nth_error_In; eauto.
Qed.

(** For items that lodash iterates field by field, the columns are the
    keys of the item. *)
Lemma shapeGroups_partition (items : list EntityParameter) :
  forallb notArrayLike items = true ->
  let groups := shapeGroups (columnListsOf items) in
  NoDup (map fst groups)
  /\ (forall c i, inGroup groups c i <->
                  exists item, nth_error items i = Some item /\ item <> []
                               /\ c = sortBy (keys item))
  /\ NoDup (concat (map snd groups)).
Proof.
  intros Hplain groups.
  destruct (shapeGroups_partition_visited items) as (H1 & H2 & H3). fold groups in H1, H2, H3.
  split; [exact H1|]. split; [|exact H3].
  intros c i. rewrite H2. split; intros (item & Hi & Hne & ->); exists item;
    rewrite (all_plain_nth items i Hplain Hi) in *; auto.
Qed.

(* ------------------------------------------------------------------ *)
(** ** Expanding the key of an update *)

Lemma recordGet_recordSet_same {V : Type} (k : string) (v : V) (rec : list (string * V)) :
  recordGet k (recordSet k v rec) = Some v.
Proof.
  induction rec as [|[k' v'] rec IH]; simpl.
  - now rewrite String.eqb_refl.
  - destruct (String.eqb k k') eqn:E; simpl; rewrite E; [reflexivity | exact IH].
Qed.

Lemma recordGet_recordSet_other {V : Type} (k c : string) (v : V) (rec : list (string * V)) :
  c <> k -> recordGet c (recordSet k v rec) = recordGet c rec.
Proof.
  intros Hc. induction rec as [|[k' v'] rec IH]; simpl.
  - apply String.eqb_neq in Hc. now rewrite Hc.
  - destruct (String.eqb_spec k k') as [E|E]; simpl.
    + subst k'. apply String.eqb_neq in Hc. now rewrite Hc.
    + now rewrite IH.
Qed.

Lemma recordSet_keys {V : Type} (k : string) (v w : V) (rec : list (string * V)) :
  recordGet k rec = Some w -> map fst (recordSet k v rec) = map fst rec.
Proof.
  induction rec as [|[k' v'] rec IH]; simpl; [discriminate|].
  destruct (String.eqb k k'); simpl; intros H; [reflexivity | now rewrite IH].
Qed.








(* ------------------------------------------------------------------ *)
(** ** Chunked IN lists: names, bindings and meaning *)

Lemma nth_mapiFrom {A B : Type} (f : A -> nat -> B) (l : list A) (a k : nat) (x : A) :
  nth_error l k = Some x -> nth_error (mapiFrom a f l) k = Some (f x (a + k)).
Proof.
  revert a k. induction l as [|y l IH]; intros a k H; [destruct k; discriminate|].
  destruct k as [|k]; simpl in *.
  - injection H as ->. now rewrite Nat.add_0_r.
  - rewrite (IH (S a) k H). f_equal. f_equal. lia.
Qed.

Lemma keyValues_chunks tableName action options vs keyStr operator idx :
  vs <> [] -> isListOperator operator = true ->
  keyValues tableName action options (Many vs) keyStr operator idx
  = Ok (Flat (chunkBindings keyStr idx
                (chunk vs (orDefault (kvInChunkSize options) DEFAULT_IN_CHUNK)))).
Proof.
  intros Hvs Hop. unfold keyValues.
  destruct vs as [|v vs]; [congruence|]. cbn [length Nat.eqb].
  destruct operator; try discriminate; reflexivity.
Qed.

Lemma chunkBindings_names_NoDup keyStr idx (chunks : list (list prim)) :
  NoDup (map fst (chunkBindings keyStr idx chunks)).
Proof.
  unfold chunkBindings, mapi. rewrite concat_map, map_mapiFrom.
  erewrite mapiFrom_ext; [|intros arr c; apply map_mapiFrom]. cbn [fst].
  apply (NoDup_chunk_names
           (fun c i => (keyStr ++ "_" ++ natToString idx) ++ "_" ++ natToString c
                       ++ "_" ++ natToString i)).
  intros c i c' i'. apply indexed_name_inj.
Qed.

Lemma chunkBindings_values keyStr idx (chunks : list (list prim)) :
  map (fun kv => value (snd kv)) (chunkBindings keyStr idx chunks) = concat chunks.
Proof.
  unfold chunkBindings, mapi. rewrite concat_map, map_mapiFrom.
  erewrite mapiFrom_ext; [|intros arr c; apply map_mapiFrom]. cbn [snd value].
  erewrite mapiFrom_ext; [|intros arr c; apply mapiFrom_const_index].
  rewrite mapiFrom_const_index.
  f_equal. rewrite <- (map_id chunks) at 2. apply map_ext. intros arr. apply map_id.
Qed.

Lemma chunkBindings_keys keyStr idx (chunks : list (list prim)) :
  Forall (fun kv => key (snd kv) = keyStr) (chunkBindings keyStr idx chunks).
Proof.
  unfold chunkBindings, mapi. apply Forall_forall. intros kv H.
  apply in_concat in H. destruct H as (l & Hl & Hkv).
  apply in_mapiFrom in Hl. destruct Hl as (arr & c & _ & _ & ->).
  apply in_mapiFrom in Hkv. destruct Hkv as (v & i & _ & _ & ->). reflexivity.
Qed.

Lemma chunkBindings_In keyStr idx (chunks : list (list prim)) c arr i v :
  nth_error chunks c = Some arr -> nth_error arr i = Some v ->
  In ((keyStr ++ "_" ++ natToString idx) ++ "_" ++ natToString c ++ "_" ++ natToString i,
      mkValueKey v keyStr)
     (chunkBindings keyStr idx chunks).
Proof.
  intros Hc Hi. unfold chunkBindings, mapi. apply in_concat.
  exists (mapiFrom 0 (fun v i =>
            ((keyStr ++ "_" ++ natToString idx) ++ "_" ++ natToString c
             ++ "_" ++ natToString i, mkValueKey v keyStr)) arr).
  split.
  - apply (nth_error_In _ c). rewrite (nth_mapiFrom _ chunks 0 c Hc). reflexivity.
  - apply (nth_error_In _ i). rewrite (nth_mapiFrom _ arr 0 i Hi). reflexivity.
Qed.

Lemma boundValues_from (params : list (string * ValueKey)) (name : nat -> string)
    (keyStr : string) (arr : list prim) (b : nat) :
  (forall j v, nth_error arr j = Some v ->
               recordGet (name (b + j)) params = Some (mkValueKey v keyStr)) ->
  boundValues params (mapiFrom b (fun _ i => name i) arr) = Some arr.
Proof.
  revert b. induction arr as [|v arr IH]; intros b H; [reflexivity|].
  cbn [mapiFrom boundValues].
  rewrite <- (Nat.add_0_r b) at 1. rewrite (H 0 v eq_refl).
  rewrite IH; [reflexivity|].
  intros j w Hj. replace (S b + j) with (b + S j) by lia. now apply H.
Qed.

(** Under the bindings of the field alone, each chunk's placeholders are
    bound to the values of that chunk. *)
Lemma boundValues_chunk keyStr idx (chunks : list (list prim)) c arr :
  nth_error chunks c = Some arr ->
  boundValues (chunkBindings keyStr idx chunks)
              (chunkNames (keyStr ++ "_" ++ natToString idx) arr c)
  = Some arr.
Proof.
  intros Hc. unfold chunkNames, mapi.
  apply (@boundValues_from (chunkBindings keyStr idx chunks)
           (fun i => (keyStr ++ "_" ++ natToString idx) ++ "_" ++ natToString c
                     ++ "_" ++ natToString i)
           keyStr arr 0).
  intros j v Hj. apply recordGet_In; [apply chunkBindings_names_NoDup|].
  exact (chunkBindings_In keyStr idx chunks c j Hc Hj).
Qed.

Lemma placeholders_chunkNames (g : string) (arr : list prim) (c : nat) :
  placeholders (chunkNames g arr c)
  = join (mapi (fun _ i => "@" ++ g ++ "_" ++ natToString c ++ "_" ++ natToString i) arr) ", ".
Proof. unfold placeholders, chunkNames, mapi. now rewrite map_mapiFrom. Qed.

(** The fragment printed for a non-empty array under a list operator is the
    text of [chunksPred]. *)
Lemma sqlFragment_chunks tableName action options vs keyStr operator idx :
  unknownToList (columnsList options) keyStr = false ->
  vs <> [] -> isListOperator operator = true ->
  sqlFragment tableName action options (Many vs) keyStr operator idx
  = Ok (Single (idx, render (chunksPred keyStr idx operator
                               (chunk vs (orDefault (inChunkSize options) DEFAULT_IN_CHUNK))))).
Proof.
  intros Hk Hvs Hop. unfold sqlFragment. rewrite Hk.
  destruct vs as [|v vs]; [congruence|]. cbn [length Nat.eqb].
  set (chunks := chunk (v :: vs) (orDefault (inChunkSize options) DEFAULT_IN_CHUNK)).
  unfold chunksPred, mapi.
  destruct operator; try discriminate; cbn [isNegated render]; repeat f_equal;
    rewrite map_mapiFrom; apply mapiFrom_ext; intros arr c; cbn [render];
    now rewrite placeholders_chunkNames.
Qed.

Lemma triOr_ofBool (a b : bool) : triOr (triOfBool a) (triOfBool b) = triOfBool (a || b).
Proof. now destruct a, b. Qed.

Lemma triAnd_ofBool (a b : bool) : triAnd (triOfBool a) (triOfBool b) = triOfBool (a && b).
Proof. now destruct a, b. Qed.

Lemma triNot_ofBool (a : bool) : triNot (triOfBool a) = triOfBool (negb a).
Proof. now destruct a. Qed.

Lemma sqlIn_member (x : prim) (vs : list prim) :
  isNil x = false -> noneNil vs = true -> sqlIn x vs = triOfBool (member x vs).
Proof.
  intros Hx. unfold sqlIn, member, noneNil.
  induction vs as [|v vs IH]; cbn [fold_right existsb forallb]; intros H; [reflexivity|].
  apply andb_true_iff in H. destruct H as [Hv H]. apply negb_true_iff in Hv.
  unfold sqlEq at 1. rewrite Hx, Hv. cbn [orb]. rewrite (IH H).
  apply triOr_ofBool.
Qed.

Lemma member_app (x : prim) (l1 l2 : list prim) :
  member x (l1 ++ l2) = member x l1 || member x l2.
Proof. apply existsb_app. Qed.

Lemma existsb_member_concat (x : prim) (chunks : list (list prim)) :
  existsb (member x) chunks = member x (concat chunks).
Proof.
  induction chunks as [|arr chunks IH]; simpl; [reflexivity|].
  now rewrite member_app, IH.
Qed.

Lemma forallb_not_member_concat (x : prim) (chunks : list (list prim)) :
  forallb (fun arr => negb (member x arr)) chunks = negb (member x (concat chunks)).
Proof.
  induction chunks as [|arr chunks IH]; simpl; [reflexivity|].
  now rewrite member_app, IH, negb_orb.
Qed.

Section ChunkClauses.
Variable params : list (string * ValueKey).
Variable row : string -> prim.
Variables keyStr g : string.
Variable neg : bool.
Hypothesis column_not_null : isNil (row keyStr) = false.

Lemma holds_clause (arr : list prim) (c : nat) :
  noneNil arr = true ->
  boundValues params (chunkNames g arr c) = Some arr ->
  holds params row (chunkClause keyStr g neg arr c) = Some (triOfBool (chunkLiteral row keyStr neg arr)).
Proof.
  intros Hnn Hb. unfold chunkClause, chunkLiteral. destruct neg; cbn [holds]; rewrite Hb; cbn [option_map];
    rewrite sqlIn_member by assumption.
  - now rewrite triNot_ofBool.
  - reflexivity.
Qed.

Lemma holds_any_clause (chunks : list (list prim)) (a : nat) :
  Forall (fun arr => noneNil arr = true) chunks ->
  (forall c arr, nth_error chunks c = Some arr ->
                 boundValues params (chunkNames g arr (a + c)) = Some arr) ->
  holds params row (PAnyOf (mapiFrom a (chunkClause keyStr g neg) chunks))
  = Some (triOfBool (existsb (chunkLiteral row keyStr neg) chunks)).
Proof.
  revert a. induction chunks as [|arr chunks IH]; intros a Hnn Hb; [reflexivity|].
  inversion Hnn as [|? ? Harr Hrest]; subst.
  cbn [mapiFrom holds fold_right existsb] in *.
  rewrite holds_clause; [|exact Harr|].
  - rewrite IH; [cbn [optMap2]; now rewrite triOr_ofBool | exact Hrest |].
    intros c arr' Hc. replace (S a + c) with (a + S c) by lia. now apply Hb.
  - rewrite <- (Nat.add_0_r a). now apply Hb.
Qed.

Lemma holds_all_clauses (chunks : list (list prim)) (a : nat) :
  Forall (fun arr => noneNil arr = true) chunks ->
  (forall c arr, nth_error chunks c = Some arr ->
                 boundValues params (chunkNames g arr (a + c)) = Some arr) ->
  holds params row (PAllOf (mapiFrom a (chunkClause keyStr g neg) chunks))
  = Some (triOfBool (forallb (chunkLiteral row keyStr neg) chunks)).
Proof.
  revert a. induction chunks as [|arr chunks IH]; intros a Hnn Hb; [reflexivity|].
  inversion Hnn as [|? ? Harr Hrest]; subst.
  cbn [mapiFrom holds fold_right forallb] in *.
  rewrite holds_clause; [|exact Harr|].
  - rewrite IH; [cbn [optMap2]; now rewrite triAnd_ofBool | exact Hrest |].
    intros c arr' Hc. replace (S a + c) with (a + S c) by lia. now apply Hb.
  - rewrite <- (Nat.add_0_r a). now apply Hb.
Qed.
End ChunkClauses.

Lemma noneNil_chunks (vs : list prim) (size : Z) :
  (1 <= size)%Z -> noneNil vs = true ->
  Forall (fun arr => noneNil arr = true) (chunk vs size).
Proof.
  intros Hs Hnn. apply Forall_forall. intros arr Harr.
  unfold noneNil in *. rewrite forallb_forall in *. intros v Hv. apply Hnn.
  rewrite <- (chunk_concat vs Hs). apply in_concat. eauto.
Qed.

(** The rows a chunked list predicate selects, under the bindings of its
    field: the members of the array for IN and the other list operators,
    the non-members for NOT IN; for [!=], the rows that some chunk does not
    contain. *)
Theorem chunked_list_selects (keyStr : string) (idx : nat) (operator : Operator)
    (vs : list prim) (size : Z) (row : string -> prim) :
  (1 <= size)%Z -> isListOperator operator = true ->
  isNil (row keyStr) = false -> noneNil vs = true ->
  selects (chunkBindings keyStr idx (chunk vs size)) row
          (chunksPred keyStr idx operator (chunk vs size))
  = match operator with
    | OpNotIn => negb (member (row keyStr) vs)
    | OpNe => existsb (fun arr => negb (member (row keyStr) arr)) (chunk vs size)
    | _ => member (row keyStr) vs
    end.
Proof.
  intros Hs Hop Hx Hnn.
  pose proof (noneNil_chunks vs Hs Hnn) as Hch.
  assert (Hb : forall c arr, nth_error (chunk vs size) c = Some arr ->
             boundValues (chunkBindings keyStr idx (chunk vs size))
                         (chunkNames (keyStr ++ "_" ++ natToString idx) arr (0 + c)) = Some arr).
  { intros c arr Hc. now apply boundValues_chunk. }
  pose proof (@holds_any_clause (chunkBindings keyStr idx (chunk vs size)) row keyStr
                (keyStr ++ "_" ++ natToString idx) false Hx (chunk vs size) 0 Hch Hb) as Hin.
  pose proof (@holds_any_clause (chunkBindings keyStr idx (chunk vs size)) row keyStr
                (keyStr ++ "_" ++ natToString idx) true Hx (chunk vs size) 0 Hch Hb) as Hne.
  pose proof (@holds_all_clauses (chunkBindings keyStr idx (chunk vs size)) row keyStr
                (keyStr ++ "_" ++ natToString idx) true Hx (chunk vs size) 0 Hch Hb) as Hnotin.
  unfold chunkClause, chunkLiteral in Hin, Hne, Hnotin.
  rewrite existsb_member_concat, chunk_concat in Hin by assumption.
  rewrite forallb_not_member_concat, chunk_concat in Hnotin by assumption.
  unfold selects, chunksPred, mapi.
  destruct operator; try discriminate; cbn [isNegated].
  all: try (rewrite Hin; now destruct (member (row keyStr) vs)).
  - rewrite Hne. now destruct (existsb _ _).
  - rewrite Hnotin. now destruct (member (row keyStr) vs).
Qed.

(* ------------------------------------------------------------------ *)
(** ** BETWEEN *)


Lemma string_ltb_asym (x y : string) : String.ltb x y = true -> String.ltb y x = false.
Proof.
  unfold String.ltb. rewrite (String.compare_antisym x y).
  destruct (String.compare y x); simpl; intros; try discriminate; reflexivity.
Qed.






(* ------------------------------------------------------------------ *)
(** ** Delete by id *)

Lemma recordGet_pick_id (item : EntityParameter) :
  recordGet "id" (pick item ["id"]) = recordGet "id" item.
Proof.
  unfold pick. cbn [fold_left]. destruct (recordGet "id" item); reflexivity.
Qed.

Lemma collectIds_pick (eps : EntityParameters) :
  collectIds (entityParametersFilter eps (CFOne "id") FIn) = collectIds (ensureArray eps).
Proof.
  unfold entityParametersFilter, collectIds. cbn [filterColumns].
  induction (ensureArray eps) as [|item items IH]; [reflexivity|].
  cbn [map flat_map]. now rewrite recordGet_pick_id, IH.
Qed.


Lemma visitedFields_id (fv : FieldValue) : visitedFields [("id", fv)] = [("id", fv)].
Proof. reflexivity. Qed.

Lemma delete_statement_text (tableName frag : string) :
  join [("DELETE FROM [" ++ tableName ++ "]") ++ " WHERE (" ++ join [frag] " AND " ++ ");"] nl
  = "DELETE FROM [" ++ tableName ++ "] WHERE (" ++ frag ++ ");".
Proof. unfold join. cbn [String.concat]. rewrite !append_assoc. reflexivity. Qed.

(** [deleteByIdSql] on the merged ids: one statement, the bindings of the
    chunks of the ids. *)
Lemma deleteByIdSql_spec (tableName : string) (eps : EntityParameters) (sz : option Z) :
  let ids := uniq (collectIds (ensureArray eps)) in
  let size := orDefault sz DEFAULT_IN_CHUNK in
  deleteByIdSql tableName eps sz
  = Ok (mkQuery ("DELETE FROM [" ++ tableName ++ "] WHERE (" ++ deleteCondition ids size ++ ");")
                (match ids with
                 | [] => []
                 | _ :: _ => paramsRecord (chunkBindings "id" 0 (chunk ids size))
                 end)).
Proof.
  intros ids size. unfold deleteByIdSql, mergeEntityParametersById.
  cbn [ensureArray]. rewrite collectIds_pick. fold ids.
  unfold getParams, toGroupParametersKeyValue, toGroupParametersSql.
  rewrite !mapEntityItems_visited.
  cbn [ensureArray map]. rewrite visitedFields_id.
  cbn [eachItem eachField fieldQueryOf].
  destruct ids as [|x ids'] eqn:Eids.
  - cbn. rewrite !append_assoc. reflexivity.
  - rewrite keyValues_chunks by (try discriminate; reflexivity).
    rewrite sqlFragment_chunks by (try discriminate; reflexivity).
    cbn [bind raise spread app kvInChunkSize inChunkSize groupByIndex fold_left recordPush
         fst snd map].
    rewrite !app_nil_r. fold size. unfold groupByIndex.
    cbn [fold_left recordPush fst snd map deleteCondition].
    rewrite delete_statement_text. reflexivity.
Qed.

(* ------------------------------------------------------------------ *)
(** ** [sortBy] gives every arrangement of the same columns the same list *)

Lemma string_ltb_trans (x y z : string) :
  String.ltb x y = true -> String.ltb y z = true -> String.ltb x z = true.
Proof.
  unfold String.ltb. intros H1 H2.
  destruct (String.compare x y) eqn:E1; try discriminate.
  destruct (String.compare y z) eqn:E2; try discriminate.
  apply String_as_OT.cmp_lt in E1, E2.
  pose proof (String_as_OT.lt_trans x y z E1 E2) as H.
  apply String_as_OT.cmp_lt in H. unfold String_as_OT.cmp in H. now rewrite H.
Qed.


Lemma sortedInsert_perm (x : string) (l : list string) : Permutation (sortedInsert x l) (x :: l).
Proof.
  induction l as [|y l IH]; simpl; [reflexivity|].
  destruct (String.ltb x y); [reflexivity|].
  rewrite IH. apply perm_swap.
Qed.

Lemma sortedInsert_sorted (x : string) (l : list string) :
  StronglySorted notAfter l -> StronglySorted notAfter (sortedInsert x l).
Proof.
  induction l as [|y l IH]; simpl; intros Hs.
  - constructor; constructor.
  - inversion Hs as [|? ? Hl Hy]; subst.
    destruct (String.ltb x y) eqn:E.
    + constructor; [exact Hs|]. constructor.
      * unfold notAfter. now apply string_ltb_asym.
      * rewrite Forall_forall in *. intros z Hz. unfold notAfter.
        destruct (String.ltb z x) eqn:Ez; [|reflexivity].
        pose proof (string_ltb_trans _ _ _ Ez E) as Hzy.
        specialize (Hy z Hz). unfold notAfter in Hy. congruence.
    + constructor; [now apply IH|].
      rewrite Forall_forall in *. intros z Hz.
      apply (Permutation_in _ (sortedInsert_perm x l)) in Hz.
      destruct Hz as [<-|Hz]; [exact E | now apply Hy].
Qed.

Lemma sortBy_from (l acc : list string) :
  StronglySorted notAfter acc ->
  let r := fold_left (fun sorted x => sortedInsert x sorted) l acc in
  StronglySorted notAfter r /\ Permutation r (acc ++ l).
Proof.
  revert acc. induction l as [|x l IH]; intros acc Hs; simpl.
  - split; [exact Hs | now rewrite app_nil_r].
  - destruct (IH _ (sortedInsert_sorted x Hs)) as [H1 H2]. split; [exact H1|].
    rewrite H2, sortedInsert_perm. apply Permutation_middle.
Qed.


Lemma sortBy_perm (l : list string) : Permutation (sortBy l) l.
Proof. apply (sortBy_from l (SSorted_nil _)). Qed.



(* ------------------------------------------------------------------ *)
(** ** Chunks of a negated array are joined with OR under [!=] *)

(** C1 (code defect).  With operator [!=], an array of two values and chunk
    size 1, [toGroupParametersSql] prints NOT IN for each chunk but joins the
    chunks with OR: the predicate selects the row whose column is 1 although
    1 is a member of the array.  (Under NOT IN the same input is joined with
    AND.) *)
Theorem ne_chunks_joined_with_or :
  let p := chunksPred "x" 0 OpNe [[PNum 1]; [PNum 2]] in
  toGroupParametersSql "users" MFind neItem (mkSqlOptions None None None (Some 1%Z))
    = Ok [(0, [render p])]
  /\ render p = "([x] NOT IN (@x_0_0_0) OR [x] NOT IN (@x_0_1_0))"
  /\ (exists params,
        getParams "users" MFind neItem (mkKvOptions (Some 1%Z) None None) = Ok params
        /\ selects params (fun _ => PNum 1) p = true)
  /\ member (PNum 1) [PNum 1; PNum 2] = true
  /\ toGroupParametersSql "users" MFind
       (EPOne [("x", Query 0 (Many [PNum 1; PNum 2]) (Some OpNotIn))])
       (mkSqlOptions None None None (Some 1%Z))
     = Ok [(0, ["([x] NOT IN (@x_0_0_0) AND [x] NOT IN (@x_0_1_0))"])].
Proof.
  cbv zeta. split; [reflexivity|]. split; [reflexivity|]. split.
  - eexists. split; [reflexivity|]. reflexivity.
  - split; reflexivity.
Qed.

(** The same defect at the default chunk size: 801 values under [!=] make two
    chunks, and the row whose column is 1 is selected. *)
Lemma ne_chunks_default_size :
  let vs := map (fun n => PNum (Z.of_nat n)) (seq 1 801) in
  let eps := EPOne [("x", Query 0 (Many vs) (Some OpNe))] in
  let p := chunksPred "x" 0 OpNe (chunk vs DEFAULT_IN_CHUNK) in
  toGroupParametersSql "users" MFind eps noSqlOptions = Ok [(0, [render p])]
  /\ length (chunk vs DEFAULT_IN_CHUNK) = 2
  /\ (exists params,
        getParams "users" MFind eps noKvOptions = Ok params
        /\ selects params (fun _ => PNum 1) p = true)
  /\ member (PNum 1) vs = true.
Proof.
  cbv zeta. split; [vm_compute; reflexivity|]. split; [vm_compute; reflexivity|]. split.
  - eexists. split; [vm_compute; reflexivity|]. vm_compute. reflexivity.
  - vm_compute. reflexivity.
Qed.

(** What holds of the array branch for every list operator: on a column
    the whitelist does not reject, with a chunk size of at least 1, the
    fragment is the text of [chunksPred] and the bindings are those of the
    chunks, bound under pairwise distinct names; on values that are not NULL
    the predicate selects the members of the array under IN (and the other
    list operators), the non-members under NOT IN, and under [!=] the
    non-members only as long as the array fits in one chunk. *)
Theorem list_operators_select :
  forall tableName action options kvOptions keyStr operator idx vs size row,
    unknownToList (columnsList options) keyStr = false ->
    orDefault (inChunkSize options) DEFAULT_IN_CHUNK = size ->
    orDefault (kvInChunkSize kvOptions) DEFAULT_IN_CHUNK = size ->
    (1 <= size)%Z -> vs <> [] -> isListOperator operator = true ->
    isNil (row keyStr) = false -> noneNil vs = true ->
    let pred := chunksPred keyStr idx operator (chunk vs size) in
    let kvs := chunkBindings keyStr idx (chunk vs size) in
    sqlFragment tableName action options (Many vs) keyStr operator idx
      = Ok (Single (idx, render pred))
    /\ keyValues tableName action kvOptions (Many vs) keyStr operator idx = Ok (Flat kvs)
    /\ paramsRecord kvs = kvs
    /\ map (fun kv => value (snd kv)) kvs = vs
    /\ Forall (fun arr => 0 < length arr /\ (Z.of_nat (length arr) <= size)%Z) (chunk vs size)
    /\ selects (paramsRecord kvs) row pred
       = match operator with
         | OpNotIn => negb (member (row keyStr) vs)
         | OpNe => existsb (fun arr => negb (member (row keyStr) arr)) (chunk vs size)
         | _ => member (row keyStr) vs
         end
    /\ (operator = OpNe -> (Z.of_nat (length vs) <= size)%Z ->
        selects (paramsRecord kvs) row pred = negb (member (row keyStr) vs)).
Proof.
  intros tableName action options kvOptions keyStr operator idx vs size row
         Hk Hs1 Hs2 Hsize Hvs Hop Hrow Hnn pred kvs.
  assert (Hrec : paramsRecord kvs = kvs)
    by (apply paramsRecord_NoDup, chunkBindings_names_NoDup).
  assert (Hsel : selects (paramsRecord kvs) row pred
                 = match operator with
                   | OpNotIn => negb (member (row keyStr) vs)
                   | OpNe => existsb (fun arr => negb (member (row keyStr) arr)) (chunk vs size)
                   | _ => member (row keyStr) vs
                   end).
  { rewrite Hrec. now apply chunked_list_selects. }
  split; [unfold pred; rewrite <- Hs1; now apply sqlFragment_chunks|].
  split; [unfold kvs; rewrite <- Hs2; now apply keyValues_chunks|].
  split; [exact Hrec|].
  split; [subst kvs; rewrite chunkBindings_values; now apply chunk_concat|].
  split; [now apply chunk_bounds|].
  split; [exact Hsel|].
  intros -> Hfit. rewrite Hsel.
  assert (Hone : chunk vs size = [vs]).
  { unfold chunk. destruct vs as [|v vs']; [congruence|].
    cbn [length Nat.eqb orb].
    destruct (Nat.ltb_spec (Z.to_nat (Z.max size 0)) 1) as [H|H]; [lia|].
    cbn [baseChunk]. rewrite firstn_all2 by (cbn [length] in *; lia).
    rewrite skipn_all2 by (cbn [length] in *; lia).
    now destruct (length vs'). }
  rewrite Hone. cbn [existsb]. now rewrite orb_false_r.
Qed.

(* ------------------------------------------------------------------ *)
(** ** Parameter names can collide *)

(** C3 (code defect).  In one item, the scalar field [a_0] and the BETWEEN
    field [a] both produce the parameter name [a_0_0]: the binder emits three
    bindings, the record built by [getParams] keeps two, and the value 7 of
    [a_0] is lost while the SQL text still refers to [@a_0_0] for it. *)
Theorem parameter_names_collide :
  toGroupParametersKeyValue "t" MFind collidingItem noKvOptions
    = Ok [("a_0_0", mkValueKey (PNum 7) "a_0");
          ("a_0_0", mkValueKey (PNum 1) "a");
          ("a_0_1", mkValueKey (PNum 2) "a")]
  /\ getParams "t" MFind collidingItem noKvOptions
    = Ok [("a_0_0", mkValueKey (PNum 1) "a");
          ("a_0_1", mkValueKey (PNum 2) "a")]
  /\ toGroupParametersSql "t" MFind collidingItem noSqlOptions
    = Ok [(0, ["[a_0] = @a_0_0";
               "[a] BETWEEN IIF(@a_0_0 < @a_0_1, @a_0_0, @a_0_1) AND IIF(@a_0_0 > @a_0_1, @a_0_0, @a_0_1)"])].
Proof. repeat split; reflexivity. Qed.

(** Two more collisions: across items (columns [address_1] and [address]),
    and between a scalar and a chunked array under the default operator. *)
Lemma parameter_names_collide_more :
  getParams "t" MFind
    (EPMany [[("address_1", Raw (One (PStr "x")))];
             [("address", Query 0 (Many [PStr "a%"; PStr "b%"]) (Some OpLike))]])
    noKvOptions
    = Ok [("address_1_0", mkValueKey (PStr "a%") "address");
          ("address_1_1", mkValueKey (PStr "b%") "address")]
  /\ getParams "t" MFind
       (EPOne [("a_0_0", Raw (One (PNum 7))); ("a", Raw (Many [PNum 1; PNum 2]))])
       noKvOptions
    = Ok [("a_0_0_0", mkValueKey (PNum 1) "a");
          ("a_0_0_1", mkValueKey (PNum 2) "a")].
Proof. split; reflexivity. Qed.

(* ------------------------------------------------------------------ *)
(** ** Paging without ordering *)

(** C6 (code defect).  With [skip = 0] and no [take], [selectByColumnsSql]
    emits the OFFSET ... FETCH NEXT clause ([skip] is supplied) but no ORDER
    BY ([buildOrderBySql] tests [skip || take], and 0 is falsy). *)
Theorem paging_without_order_by :
  buildOrderBySql "t" ["created_at"] (mkOrderOptions (Some 0%Z) None None None) = Ok ""
  /\ (exists q,
        selectByColumnsSql "t" ["created_at"] EPNil skipZero = Ok q
        /\ sql q = nl ++ "    SELECT * FROM [t]" ++ nl ++ "    " ++ nl
                   ++ "    OFFSET 0 ROWS FETCH NEXT 100 ROWS ONLY;" ++ nl ++ "  "
        /\ containsStr "OFFSET 0 ROWS FETCH NEXT 100 ROWS ONLY" (sql q) = true
        /\ containsStr "ORDER BY" (sql q) = false).
Proof.
  split; [reflexivity|]. eexists. split; [reflexivity|].
  repeat split; reflexivity.
Qed.

(** Without an explicit order list, the ordering clause follows the
    truthiness of [skip] and [take], the paging clause their presence. *)
Lemma select_all_text :
  forall tableName columnsList sk tk dflt chunkSize mode esc orderList,
    orderList = None \/ orderList = Some [] ->
    selectByColumnsSql tableName columnsList EPNil
      (mkSelectOptions sk tk orderList dflt chunkSize mode esc)
    = Ok (mkQuery
            (nl ++ "    " ++ ("SELECT * FROM [" ++ tableName ++ "]") ++ nl ++ "    "
             ++ (if truthyNum sk || truthyNum tk
                 then "ORDER BY [" ++ orDefault dflt "created_at" ++ "] ASC" else "")
             ++ nl ++ "    "
             ++ (if isSome sk || isSome tk
                 then "OFFSET " ++ numToString (orDefault sk 0%Z) ++ " ROWS FETCH NEXT "
                      ++ numToString (orDefault tk DEFAULT_TAKE) ++ " ROWS ONLY"
                 else "")
             ++ ";" ++ nl ++ "  ")
            []).
Proof.
  intros tableName columnsList sk tk dflt chunkSize mode esc orderList Hord.
  unfold selectByColumnsSql, buildOrderBySql.
  cbn [selSkip selTake selOrderBy selDefaultOrderBy orderBy skip take
       defaultOrderBy sizeOf Nat.eqb].
  destruct Hord as [-> | ->];
    destruct (truthyNum sk || truthyNum tk); reflexivity.
Qed.

(* ------------------------------------------------------------------ *)
(** ** Empty arrays *)

(** C2 (counterexample).  On a column outside the whitelist the empty-array
    rule is never reached: in the default ignore mode an empty array under
    IN compiles to [1=1], not to [1=0], and in throw mode the unknown-column
    error is raised. *)
Lemma empty_array_outside_whitelist :
  let eps := EPOne [("tags", Query 0 (Many []) (Some OpIn))] in
  toGroupParametersSql "t" MFind eps (mkSqlOptions None (Some ["name"]) None None)
    = Ok [(0, ["1=1"])]
  /\ toGroupParametersSql "t" MFind eps (mkSqlOptions None (Some ["name"]) None None)
     <> Ok [(0, ["1=0"])]
  /\ toGroupParametersSql "t" MFind eps (mkSqlOptions None (Some ["name"]) (Some Throw) None)
     = Err (unknownColumn "t" MFind "tags").
Proof. cbv zeta. split; [reflexivity|]. split; [discriminate | reflexivity]. Qed.

(** An item with a [length] column that holds a length is read by index,
    not field by field: the fields of [{length: 2}] are never visited, and
    the compiler prints the conditions of the columns [0] and [1]; a single
    item [{length: 0, name: 'bob'}] has size 0 and is selected without a
    WHERE clause. *)
Lemma array_like_item_is_read_by_index :
  toGroupParametersSql "t" MFind (EPOne [("length", Raw (One (PNum 2)))]) noSqlOptions
    = Ok [(0, ["[0] IS NULL"; "[1] IS NULL"])]
  /\ toGroupParametersSql "t" MFind
       (EPOne [("length", Raw (One (PNum 0))); ("tags", Query 0 (Many []) (Some OpIn))])
       noSqlOptions
     = Ok []
  /\ getColumnLists (EPOne [("length", Raw (One (PNum 2))); ("1", Raw (One (PStr "b")))])
     = Ok [(0, ["0"; "1"])]
  /\ (exists q,
        selectByColumnsSql "t" ["name"]
          (EPOne [("length", Raw (One (PNum 0))); ("name", Raw (One (PStr "bob")))])
          noSelectOptions = Ok q
        /\ containsStr "WHERE" (sql q) = false
        /\ params q = []).
Proof.
  split; [reflexivity|]. split; [reflexivity|]. split; [reflexivity|].
  eexists. split; [reflexivity|]. split; reflexivity.
Qed.

(** C2 (amended).  A field whose value is an empty array, on a column the
    whitelist does not reject and in an item that is read field by field (no
    [length] column that holds a length), compiles to the fragment [1=1]
    (always true) under [!=] and NOT IN and to [1=0] (always false) under
    every other operator: the callback returns it, and in every successful
    compilation it stands in the group of its item at the position of the
    field.  The binder emits no parameter for the field: binding is the same
    as without the field (the item without the field being read field by
    field too).  On a column the whitelist rejects, the callback returns
    [1=1] in ignore mode and raises the unknown-column error in throw mode,
    whatever the operator. *)
Theorem empty_array_fragment :
  forall tableName action options kvOptions before after f1 f2 keyStr fv operator,
    fieldQueryOf fv = (Many [], operator) ->
    unknownToList (columnsList options) keyStr = false ->
    arrayLikeLength (f1 ++ (keyStr, fv) :: f2)%list = None ->
    let itemIndex := length before in
    let eps := EPMany (before ++ (f1 ++ (keyStr, fv) :: f2) :: after)%list in
    let negated := match operator with OpNe | OpNotIn => true | _ => false end in
    let fragment := match operator with OpNe | OpNotIn => "1=1" | _ => "1=0" end in
    sqlFragment tableName action options (Many []) keyStr operator itemIndex
      = Ok (Single (itemIndex, fragment))
    /\ (forall groups,
          toGroupParametersSql tableName action eps options = Ok groups ->
          exists frags, groupOf itemIndex groups = Some frags
                        /\ nth_error frags (length f1) = Some fragment)
    /\ fragment = render (PConst negated)
    /\ (forall params row, holds params row (PConst negated) = Some (triOfBool negated))
    /\ keyValues tableName action kvOptions (Many []) keyStr operator itemIndex = Ok (Flat [])
    /\ (arrayLikeLength (f1 ++ f2)%list = None ->
        toGroupParametersKeyValue tableName action eps kvOptions
        = toGroupParametersKeyValue tableName action
            (EPMany (before ++ (f1 ++ f2) :: after)%list) kvOptions)
    /\ (forall unlisted,
          unknownToList (columnsList unlisted) keyStr = true ->
          sqlFragment tableName action unlisted (Many []) keyStr operator itemIndex
          = match orDefault (onUnknownColumn unlisted) DEFAULT_UNKNOWN_COLUMN with
            | Ignore => Ok (Single (itemIndex, "1=1"))
            | Throw => Err (unknownColumn tableName action keyStr)
            end).
Proof.
  intros tableName action options kvOptions before after f1 f2 keyStr fv operator Hfv Hk Hplain
         itemIndex eps negated fragment.
  assert (Hcb : sqlFragment tableName action options (Many []) keyStr operator itemIndex
                = Ok (Single (itemIndex, fragment))).
  { unfold sqlFragment. rewrite Hk. simpl. subst fragment. now destruct operator. }
  split; [exact Hcb|]. split.
  - intros groups H. rewrite toGroupParametersSql_perItem in H.
    apply bind_ok_inv in H. destruct H as (perItem & Hper & H). injection H as <-.
    destruct (fragmentsFrom_nth _ _ _ _ _ itemIndex Hper
                (item := (f1 ++ (keyStr, fv) :: f2)%list)) as (frs & Hnth & Hfrs).
    { subst itemIndex eps. cbn [ensureArray]. rewrite map_app. cbn [map].
      rewrite (visitedFields_plain _ Hplain).
      rewrite nth_error_app2 by (rewrite length_map; lia).
      now rewrite length_map, Nat.sub_diag. }
    destruct (mapM_nth _ _ (length f1) Hfrs (x := (keyStr, fv))) as (y & Hy & Hfy).
    { now rewrite nth_error_app2, Nat.sub_diag by lia. }
    unfold fragmentOf in Hfy. simpl in Hfy. rewrite Hfv, Hcb in Hfy. simpl in Hfy.
    injection Hfy as <-.
    exists frs. split; [|exact Hy].
    apply (groupOf_byIndexFrom perItem 0 itemIndex Hnth).
    intros ->. destruct (length f1); discriminate.
  - split; [subst fragment negated; now destruct operator|].
    split; [reflexivity|]. split; [reflexivity|]. split.
    + intros Hplain'. unfold toGroupParametersKeyValue. rewrite !mapEntityItems_visited.
      subst eps. cbn [ensureArray]. rewrite !map_app. cbn [map].
      rewrite (visitedFields_plain _ Hplain), (visitedFields_plain _ Hplain').
      apply eachItem_drop_silent_field. rewrite Hfv. now rewrite length_map.
    + intros unlisted Hu. unfold sqlFragment. now rewrite Hu.
Qed.

Lemma empty_array_fragment_witness :
  let eps := EPMany emptyInItems in
  sqlFragment "t" MFind noSqlOptions (Many []) "tags" OpIn 1 = Ok (Single (1, "1=0"))
  /\ sqlFragment "t" MFind noSqlOptions (Many []) "tags" OpNe 1 = Ok (Single (1, "1=1"))
  /\ sqlFragment "t" MFind noSqlOptions (Many []) "tags" OpNotIn 1 = Ok (Single (1, "1=1"))
  /\ sqlFragment "t" MFind noSqlOptions (Many []) "tags" OpBetween 1 = Ok (Single (1, "1=0"))
  /\ toGroupParametersKeyValue "t" MFind eps noKvOptions
     = toGroupParametersKeyValue "t" MFind
         (EPMany [[("name", Raw (One (PStr "a")))]; [("name", Raw (One (PStr "b")))]]) noKvOptions.
Proof.
  pose proof (fun fv operator Hfv =>
                @empty_array_fragment "t" MFind noSqlOptions noKvOptions
                  [[("name", Raw (One (PStr "a")))]] [] [("name", Raw (One (PStr "b")))] []
                  "tags" fv operator Hfv eq_refl eq_refl) as H.
  cbv zeta in H.
  destruct (H (Query 0 (Many []) (Some OpIn)) OpIn eq_refl) as (H1 & _ & _ & _ & _ & H2 & _).
  destruct (H (Query 0 (Many []) (Some OpNe)) OpNe eq_refl) as (H3 & _).
  destruct (H (Query 0 (Many []) (Some OpNotIn)) OpNotIn eq_refl) as (H4 & _).
  destruct (H (Query 0 (Many []) (Some OpBetween)) OpBetween eq_refl) as (H5 & _).
  split; [exact H1|]. split; [exact H3|]. split; [exact H4|]. split; [exact H5|].
  exact (H2 eq_refl).
Defined.

(* ------------------------------------------------------------------ *)
(** ** BETWEEN with the wrong number of operands *)




(* ------------------------------------------------------------------ *)
(** ** The required column [id] of update and delete *)

(** C4 (counterexample).  A call whose second item has no [id] raises
    nothing: the before-hook drops that item and the update runs its
    statement for the first item only. *)
Lemma item_without_id_is_dropped :
  defaultBeforeHook "UsersDao" acceptAll mixedBatch MUpdate (CFOne "id")
    = Ok [ [("id", Raw (One (PNum 1))); ("name", Raw (One (PStr "a")))] ]
  /\ fst (update "UsersDao" "users" acceptAll allTyped mixedBatch) = Ok tt
  /\ length (snd (update "UsersDao" "users" acceptAll allTyped mixedBatch)) = 1
  /\ fst (delete "UsersDao" "users" acceptAll allTyped mixedBatch) = Ok tt
  /\ snd (delete "UsersDao" "users" acceptAll allTyped mixedBatch)
     = ["DELETE FROM [users] WHERE (([id] IN (@id_0_0_0)));"].
Proof. repeat split; reflexivity. Qed.

(** C4 (amended).  For update and delete (any action but find), the default
    before-hook drops the null and undefined fields, the items left empty
    and the items without [id].  When no item remains it raises the "Missing
    id" DaoError, and the mutation hands no statement to the backend;
    otherwise the items without [id] are dropped silently and the remaining
    ones go to validation. *)
Theorem missing_id_raised_when_no_item_has_id :
  forall className tableName validateField hasSqlType data action,
    action <> MFind ->
    defaultBeforeHook className validateField data action (CFOne "id")
      = match itemsWithId data with
        | [] => Err (noId className action)
        | kept => validateField kept
        end
    /\ message (noId className action)
       = "[DAO: " ++ className ++ "] Missing id for " ++ methodText action
    /\ (itemsWithId data = [] ->
        update className tableName validateField hasSqlType data
          = (Err (Dao (noId className MUpdate)), [])
        /\ delete className tableName validateField hasSqlType data
          = (Err (Dao (noId className MDelete)), [])).
Proof.
  intros className tableName validateField hasSqlType data action Hfind.
  assert (Hclean : cleanParameters data (CFOne "id") = itemsWithId data).
  { unfold cleanParameters, itemsWithId. simpl. apply filter_ext. intros item.
    now rewrite andb_true_r. }
  assert (Hhook : forall a, a <> MFind ->
            defaultBeforeHook className validateField data a (CFOne "id")
            = match itemsWithId data with
              | [] => Err (noId className a)
              | kept => validateField kept
              end).
  { intros a Ha. unfold defaultBeforeHook. rewrite Hclean.
    destruct (itemsWithId data) as [|item kept]; simpl; [|reflexivity].
    destruct a; try reflexivity. congruence. }
  split; [now apply Hhook|]. split; [reflexivity|].
  intros Hnone. unfold update, delete, runMutation, runBefore.
  rewrite !Hhook by discriminate. rewrite Hnone. split; reflexivity.
Qed.

Lemma missing_id_raised_when_no_item_has_id_witness :
  defaultBeforeHook "UsersDao" acceptAll noIdBatch MUpdate (CFOne "id")
    = Err (noId "UsersDao" MUpdate)
  /\ update "UsersDao" "users" acceptAll allTyped noIdBatch
    = (Err (Dao (noId "UsersDao" MUpdate)), []).
Proof.
  assert (Hfind : MUpdate <> MFind) by discriminate.
  destruct (@missing_id_raised_when_no_item_has_id "UsersDao" "users" acceptAll allTyped
              noIdBatch MUpdate Hfind) as (H1 & _ & H2).
  split; [exact H1 | exact (proj1 (H2 eq_refl))].
Defined.

(* ------------------------------------------------------------------ *)
(** ** Grouping a batch by column shape *)




(* ------------------------------------------------------------------ *)
(** ** Update by key: dropped items and expanded keys *)



(* ------------------------------------------------------------------ *)
(** ** BETWEEN does not depend on the order of its operands *)




(* ------------------------------------------------------------------ *)
(** ** Delete by id binds the deduplicated ids *)




(* ================================================================== *)
(** * Further properties of the code *)

(* ------------------------------------------------------------------ *)
(** ** Parameter names of fields that are not arrays *)

(** A string is cut at the last occurrence of a character in one way only. *)
Lemma cut_at_last (c : ascii) (a b t1 t2 : string) :
  ~ In c (chars t1) -> ~ In c (chars t2) ->
  a ++ String c t1 = b ++ String c t2 -> a = b /\ t1 = t2.
Proof.
  revert b. induction a as [|x a IH]; intros [|y b] H1 H2 H; simpl in H.
  - injection H as H. now split.
  - injection H as Hc Ht. subst. exfalso. apply H1.
    rewrite chars_append. apply in_or_app. right. now left.
  - injection H as Hc Ht. subst. exfalso. apply H2.
    rewrite chars_append. apply in_or_app. right. now left.
  - injection H as Hxy H. subst y. destruct (IH b H1 H2 H) as [-> ->]. now split.
Qed.

(** The name of a scalar binding determines the column and the item. *)
Lemma scalar_name_inj (k k' : string) (i i' : nat) :
  k ++ "_" ++ natToString i = k' ++ "_" ++ natToString i' -> k = k' /\ i = i'.
Proof.
  intros H. apply cut_at_last in H; try apply natToString_no_underscore.
  destruct H as [-> H]. split; [reflexivity | now apply natToString_inj].
Qed.

Lemma eachField_scalar tableName action options idx item :
  scalarItem item = true ->
  eachField (keyValues tableName action options) idx item
  = Ok (scalarBindings options idx item).
Proof.
  induction item as [|[k fv] item IH]; intros Hs; [reflexivity|].
  cbn [scalarItem forallb] in Hs. apply andb_true_iff in Hs. destruct Hs as [Hf Hs].
  cbn [eachField scalarBindings flat_map]. unfold scalarBinding at 1.
  unfold isScalarField in Hf. cbn [fst snd] in *.
  destruct (fieldQueryOf fv) as [[v|vs] op]; [|discriminate].
  fold (scalarBindings options idx item). rewrite (IH Hs). unfold keyValues.
  destruct (isNil v); [reflexivity|]. destruct op; reflexivity.
Qed.

Lemma eachItem_scalar tableName action options idx items :
  (forall item, In item items -> scalarItem item = true) ->
  eachItem (keyValues tableName action options) idx items
  = Ok (concat (mapiFrom idx (fun item i => scalarBindings options i item) items)).
Proof.
  revert idx. induction items as [|item items IH]; intros idx Hs; [reflexivity|].
  cbn [eachItem mapiFrom concat].
  rewrite eachField_scalar by (apply Hs; now left).
  rewrite IH by (intros it Hit; apply Hs; now right). reflexivity.
Qed.

Lemma in_scalarBindings options idx item n vk :
  In (n, vk) (scalarBindings options idx item) ->
  n = key vk ++ "_" ++ natToString idx /\ exists fv, In (key vk, fv) item.
Proof.
  unfold scalarBindings. rewrite in_flat_map. intros ([k fv] & Hin & H).
  unfold scalarBinding in H. cbn [fst snd] in H.
  destruct (fieldQueryOf fv) as [[v|vs] op]; [|contradiction].
  destruct (isNil v); [contradiction|]. destruct H as [H|[]].
  injection H as <- <-. cbn [key]. eauto.
Qed.

Lemma scalarBindings_names_NoDup options idx item :
  NoDup (keys item) -> NoDup (map fst (scalarBindings options idx item)).
Proof.
  unfold scalarBindings, keys. induction item as [|[k fv] item IH]; intros Hnd; [constructor|].
  cbn [map fst] in Hnd. inversion Hnd as [|? ? Hk Hrest]; subst.
  cbn [flat_map]. rewrite map_app. apply NoDup_app_intro; [| now apply IH |].
  - unfold scalarBinding. cbn [fst snd].
    destruct (fieldQueryOf fv) as [[v|vs] op]; [|constructor].
    destruct (isNil v); [constructor|]. constructor; [tauto | constructor].
  - intros n H1 H2. apply in_map_iff in H1, H2.
    destruct H1 as ([n1 vk1] & E1 & H1). destruct H2 as ([n2 vk2] & E2 & H2).
    cbn [fst] in E1, E2. subst n1 n2.
    unfold scalarBinding in H1. cbn [fst snd] in H1.
    destruct (fieldQueryOf fv) as [[v|vs] op]; [|contradiction].
    destruct (isNil v); [contradiction|]. destruct H1 as [H1|[]]. injection H1 as E _.
    apply (in_scalarBindings options idx item) in H2. destruct H2 as [E2 (fv' & Hin)].
    rewrite E2 in E. apply scalar_name_inj in E. destruct E as [E _].
    apply Hk. rewrite E. change (key vk2) with (fst (key vk2, fv')). now apply in_map.
Qed.

Lemma scalar_batch_names_NoDup options idx items :
  (forall item, In item items -> NoDup (keys item)) ->
  NoDup (map fst (concat (mapiFrom idx (fun item i => scalarBindings options i item) items))).
Proof.
  revert idx. induction items as [|item items IH]; intros idx Hnd; [constructor|].
  cbn [mapiFrom concat]. rewrite map_app. apply NoDup_app_intro.
  - apply scalarBindings_names_NoDup. apply Hnd. now left.
  - apply IH. intros it Hit. apply Hnd. now right.
  - intros n H1 H2. apply in_map_iff in H1, H2.
    destruct H1 as ([n1 vk1] & E1 & H1). destruct H2 as ([n2 vk2] & E2 & H2).
    cbn [fst] in E1, E2. subst n1 n2.
    apply in_scalarBindings in H1. destruct H1 as [E1 _].
    apply in_concat in H2. destruct H2 as (l & Hl & H2).
    apply in_mapiFrom in Hl. destruct Hl as (it & j & Hj & _ & ->).
    apply in_scalarBindings in H2. destruct H2 as [E2 _].
    rewrite E2 in E1. apply scalar_name_inj in E1. lia.
Qed.

Lemma scalar_batch tableName action options eps :
  (forall item, In item (ensureArray eps) ->
                scalarItem item = true /\ NoDup (keys item) /\ notArrayLike item = true) ->
  let kvs := concat (mapiFrom 0 (fun item i => scalarBindings options i item) (ensureArray eps)) in
  toGroupParametersKeyValue tableName action eps options = Ok kvs
  /\ NoDup (map fst kvs)
  /\ getParams tableName action eps options = Ok kvs.
Proof.
  intros H kvs.
  assert (Hkv : toGroupParametersKeyValue tableName action eps options = Ok kvs).
  { unfold toGroupParametersKeyValue.
    rewrite mapEntityItems_plain by (apply all_notArrayLike; intros item Hin; now apply H).
    apply eachItem_scalar. intros item Hin. now apply H. }
  assert (Hnd : NoDup (map fst kvs)).
  { apply scalar_batch_names_NoDup. intros item Hin. now apply H. }
  split; [exact Hkv|]. split; [exact Hnd|].
  unfold getParams. rewrite Hkv. cbn [bind]. now rewrite paramsRecord_NoDup.
Qed.

Lemma in_scalar_batch options (items : list EntityParameter) n vk :
  In (n, vk) (concat (mapiFrom 0 (fun item i => scalarBindings options i item) items)) ->
  exists i item fv,
    nth_error items i = Some item /\ In (key vk, fv) item
    /\ n = key vk ++ "_" ++ natToString i.
Proof.
  intros Hin. apply in_concat in Hin. destruct Hin as (l & Hl & Hin).
  apply In_nth_error in Hl. destruct Hl as [i Hi].
  destruct (nth_error items i) as [item|] eqn:Eitem.
  - rewrite (nth_mapiFrom _ _ 0 i Eitem) in Hi. injection Hi as <-.
    apply in_scalarBindings in Hin. destruct Hin as [E (fv & Hfv)].
    exists i, item, fv. auto.
  - exfalso. apply nth_error_None in Eitem.
    assert (i < length (mapiFrom 0 (fun item i => scalarBindings options i item) items))
      by (apply nth_error_Some; congruence).
    rewrite mapiFrom_length in H. lia.
Qed.

(** X1.  In a batch whose items are read field by field (no [length] column
    that holds a length), whose fields are not arrays and whose items have
    pairwise distinct columns, the binder raises nothing and the parameter
    names are pairwise distinct, so [getParams] keeps every binding; each
    name is the column, an underscore and the index of the item the binding
    comes from. *)
Theorem scalar_names_are_distinct :
  forall tableName action options eps,
    (forall item, In item (ensureArray eps) ->
                  scalarItem item = true /\ NoDup (keys item) /\ notArrayLike item = true) ->
    exists kvs,
      toGroupParametersKeyValue tableName action eps options = Ok kvs
      /\ NoDup (map fst kvs)
      /\ getParams tableName action eps options = Ok kvs
      /\ (forall n vk, In (n, vk) kvs ->
            exists i item fv,
              nth_error (ensureArray eps) i = Some item
              /\ In (key vk, fv) item
              /\ n = key vk ++ "_" ++ natToString i).
Proof.
  intros tableName action options eps H.
  destruct (scalar_batch tableName action options eps H) as (Hkv & Hnd & Hp).
  eexists. split; [exact Hkv|]. split; [exact Hnd|]. split; [exact Hp|].
  intros n vk. apply in_scalar_batch.
Qed.

Lemma scalar_names_are_distinct_witness :
  exists kvs,
    toGroupParametersKeyValue "t" MInsert mixedScalars noKvOptions = Ok kvs
    /\ NoDup (map fst kvs)
    /\ getParams "t" MInsert mixedScalars noKvOptions = Ok kvs
    /\ (forall n vk, In (n, vk) kvs ->
          exists i item fv,
            nth_error (ensureArray mixedScalars) i = Some item
            /\ In (key vk, fv) item
            /\ n = key vk ++ "_" ++ natToString i).
Proof.
  apply (scalar_names_are_distinct "t" MInsert noKvOptions mixedScalars).
  intros item [<-|[<-|[]]]; (split; [reflexivity|]); (split; [|reflexivity]);
    repeat constructor; simpl; intuition discriminate.
Defined.

(* ------------------------------------------------------------------ *)
(** ** INSERT: every placeholder is bound *)

Lemma plain_is_scalar item : plainItem item = true -> scalarItem item = true.
Proof.
  unfold plainItem, scalarItem. rewrite !forallb_forall. intros H kv Hin.
  specialize (H kv Hin). unfold isPlainField in H. unfold isScalarField.
  destruct (snd kv) as [[v|vs]|]; try discriminate. reflexivity.
Qed.

Lemma omit_plain item paths : plainItem item = true -> plainItem (omit item paths) = true.
Proof.
  unfold plainItem, omit. rewrite !forallb_forall. intros H kv Hin.
  apply filter_In in Hin. now apply H.
Qed.

Lemma NoDup_keys_filter (f : string * FieldValue -> bool) (item : EntityParameter) :
  NoDup (keys item) -> NoDup (keys (filter f item)).
Proof.
  unfold keys. induction item as [|kv item IH]; intros H; [constructor|].
  cbn [map] in H. inversion H as [|? ? Hk Hrest]; subst. cbn [filter].
  destruct (f kv); [|now apply IH]. cbn [map]. constructor; [|now apply IH].
  intros Hin. apply Hk. apply in_map_iff in Hin. destruct Hin as (kv' & E & Hin).
  apply filter_In in Hin. apply in_map_iff. exists kv'. tauto.
Qed.

Lemma in_entityParametersFilter_out eps cf item :
  In item (entityParametersFilter eps cf FOut) ->
  exists original, In original (ensureArray eps)
                   /\ item = omit original (filterColumns cf).
Proof.
  unfold entityParametersFilter. destruct cf as [|c|cs].
  - intros H. exists item. split; [exact H|]. unfold omit, filterColumns.
    cbn [includes existsb negb]. symmetry. apply forallb_filter_id.
    apply forallb_forall. reflexivity.
  - intros H. apply in_map_iff in H. destruct H as (o & <- & H). eauto.
  - intros H. apply in_map_iff in H. destruct H as (o & <- & H). eauto.
Qed.

Lemma scalarBinding_plain options i col v :
  isNil v = false ->
  scalarBinding options i (col, Raw (One v))
  = [(col ++ "_" ++ natToString i, mkValueKey v col)].
Proof. intros H. unfold scalarBinding. cbn. now rewrite H. Qed.

Lemma in_keys_field (item : EntityParameter) (col : string) :
  In col (keys item) -> exists fv, In (col, fv) item.
Proof.
  unfold keys. intros H. apply in_map_iff in H. destruct H as ([k fv] & E & H).
  cbn in E. subst. eauto.
Qed.

(** The bindings of a batch of plain values: one for every column of every
    item, under the name of the column and the item index. *)
Lemma plain_items_bound tableName action options (items : list EntityParameter) :
  (forall item, In item items ->
                plainItem item = true /\ NoDup (keys item) /\ notArrayLike item = true) ->
  exists ps,
    getParams tableName action (EPMany items) options = Ok ps
    /\ (forall columns i col,
          inGroup (shapeGroups (columnListsOf items)) columns i -> In col columns ->
          exists item v,
            nth_error items i = Some item
            /\ In (col, Raw (One v)) item
            /\ isNil v = false
            /\ recordGet (col ++ "_" ++ natToString i) ps = Some (mkValueKey v col)).
Proof.
  intros H.
  assert (Hitems : forall item, In item (ensureArray (EPMany items)) ->
                                scalarItem item = true /\ NoDup (keys item)
                                /\ notArrayLike item = true).
  { cbn [ensureArray]. intros item Hin. destruct (H item Hin) as (Hp & Hnd & Hna).
    split; [now apply plain_is_scalar | split; assumption]. }
  assert (Hall : forallb notArrayLike items = true)
    by (apply all_notArrayLike; intros item Hin; now apply H).
  destruct (scalar_batch tableName action options (EPMany items) Hitems) as (_ & Hnd & Hp).
  cbn [ensureArray] in Hnd, Hp.
  eexists. split; [exact Hp|].
  intros columns i col Hg Hcol.
  destruct (shapeGroups_partition items Hall) as (_ & Hmem & _).
  apply Hmem in Hg. destruct Hg as (item & Hnth & _ & ->).
  apply (Permutation_in _ (sortBy_perm (keys item))) in Hcol.
  apply in_keys_field in Hcol. destruct Hcol as [fv Hfv].
  assert (Hplain : plainItem item = true).
  { apply nth_error_In in Hnth. now apply H. }
  unfold plainItem in Hplain. rewrite forallb_forall in Hplain.
  specialize (Hplain _ Hfv). unfold isPlainField in Hplain. cbn [snd] in Hplain.
  destruct fv as [[v|vs]|]; try discriminate.
  apply negb_true_iff in Hplain.
  exists item, v. split; [exact Hnth|]. split; [exact Hfv|]. split; [exact Hplain|].
  apply recordGet_In; [exact Hnd|].
  apply in_concat. exists (scalarBindings options i item). split.
  - apply (nth_error_In _ i). now rewrite (nth_mapiFrom _ items 0 i Hnth).
  - unfold scalarBindings. apply in_flat_map. exists (col, Raw (One v)).
    split; [exact Hfv|]. rewrite scalarBinding_plain by exact Hplain. now left.
Qed.

(** X2.  For a batch of plain values, none of them null or undefined, with
    pairwise distinct columns in each item and items read field by field (no
    [length] column that holds a length), [insertSql] raises nothing, its
    text consists of one INSERT per column shape, and every placeholder
    [@col_i] of every VALUES row is bound in [params] to the value the item
    [i] gives the column [col]. *)
Theorem insert_binds_every_placeholder :
  forall tableName eps columnFiltered options,
    (forall item, In item (ensureArray eps) ->
                  plainItem item = true /\ NoDup (keys item) /\ notArrayLike item = true) ->
    let items := entityParametersFilter eps columnFiltered FOut in
    let groups := shapeGroups (columnListsOf items) in
    exists q,
      insertSql tableName eps columnFiltered options = Ok q
      /\ sql q = join (map (insertStatement tableName) groups) nl
      /\ (forall columns i col,
            inGroup groups columns i -> In col columns ->
            exists item v,
              nth_error items i = Some item
              /\ In (col, Raw (One v)) item
              /\ recordGet (col ++ "_" ++ natToString i) (params q)
                 = Some (mkValueKey v col)).
Proof.
  intros tableName eps columnFiltered options H items groups.
  assert (Hitems : forall item, In item items ->
                     plainItem item = true /\ NoDup (keys item) /\ notArrayLike item = true).
  { intros item Hin.
    apply in_entityParametersFilter_out in Hin. destruct Hin as (o & Ho & ->).
    destruct (H o Ho) as (Hp & Hnd & Hna). split; [|split].
    - now apply omit_plain.
    - now apply NoDup_keys_filter.
    - now apply omit_notArrayLike. }
  destruct (plain_items_bound tableName MInsert options items Hitems) as (ps & Hps & Hbound).
  exists (mkQuery (join (map (insertStatement tableName) groups) nl) ps).
  split; [|split].
  - rewrite insertSql_spec. fold items. rewrite Hps. reflexivity.
  - reflexivity.
  - cbn [params]. intros columns i col Hg Hcol.
    destruct (Hbound columns i col Hg Hcol) as (item & v & H1 & H2 & _ & H3).
    exists item, v. auto.
Qed.

Lemma insert_binds_every_placeholder_witness :
  exists q,
    insertSql "t" mixedScalars defaultColumnFiltered noKvOptions = Ok q
    /\ sql q = join (map (insertStatement "t")
                         (shapeGroups (columnListsOf
                            (entityParametersFilter mixedScalars defaultColumnFiltered FOut)))) nl
    /\ (forall columns i col,
          inGroup (shapeGroups (columnListsOf
                     (entityParametersFilter mixedScalars defaultColumnFiltered FOut))) columns i ->
          In col columns ->
          exists item v,
            nth_error (entityParametersFilter mixedScalars defaultColumnFiltered FOut) i = Some item
            /\ In (col, Raw (One v)) item
            /\ recordGet (col ++ "_" ++ natToString i) (params q) = Some (mkValueKey v col)).
Proof.
  apply (insert_binds_every_placeholder "t" mixedScalars defaultColumnFiltered noKvOptions).
  intros item [<-|[<-|[]]]; (split; [reflexivity|]); (split; [|reflexivity]);
    repeat constructor; simpl; intuition discriminate.
Defined.

(* ------------------------------------------------------------------ *)
(** ** Filtered columns never reach a statement *)

Lemma keyValues_keys tableName action options v k op idx r :
  keyValues tableName action options v k op idx = Ok r ->
  forall kv, In kv (spread r) -> key (snd kv) = k.
Proof.
  unfold keyValues. intros H kv Hin.
  destruct v as [v|vs].
  - destruct (isNil v); [injection H as <-; contradiction|].
    destruct op; injection H as <-; destruct Hin as [<-|[]]; reflexivity.
  - destruct (Nat.eqb (length vs) 0); [injection H as <-; contradiction|].
    destruct op;
      try (injection H as <-; cbn [spread] in Hin;
           apply (proj1 (Forall_forall _ _)
                    (chunkBindings_keys k idx
                       (chunk vs (orDefault (kvInChunkSize options) DEFAULT_IN_CHUNK))));
           exact Hin).
    + injection H as <-. cbn [spread] in Hin. unfold mapi in Hin.
      apply in_mapiFrom in Hin. destruct Hin as (x & i & _ & _ & ->). reflexivity.
    + destruct (negb (Nat.eqb (length vs) 2)); [discriminate|]. injection H as <-.
      cbn [spread] in Hin. unfold mapi in Hin.
      apply in_mapiFrom in Hin. destruct Hin as (x & i & _ & _ & ->). reflexivity.
Qed.

Lemma eachField_keys tableName action options idx item kvs :
  eachField (keyValues tableName action options) idx item = Ok kvs ->
  forall kv, In kv kvs -> In (key (snd kv)) (keys item).
Proof.
  revert kvs. induction item as [|[k fv] item IH]; intros kvs H kv Hin.
  - injection H as <-. contradiction.
  - cbn [eachField] in H. destruct (fieldQueryOf fv) as [v op].
    apply bind_ok_inv in H. destruct H as (r & Hr & H).
    apply bind_ok_inv in H. destruct H as (more & Hmore & H). injection H as <-.
    apply in_app_or in Hin. destruct Hin as [Hin|Hin].
    + left. symmetry. exact (keyValues_keys _ _ _ _ _ _ _ Hr kv Hin).
    + right. exact (IH more Hmore kv Hin).
Qed.

Lemma eachItem_keys tableName action options idx items kvs :
  eachItem (keyValues tableName action options) idx items = Ok kvs ->
  forall kv, In kv kvs -> exists item, In item items /\ In (key (snd kv)) (keys item).
Proof.
  revert idx kvs. induction items as [|item items IH]; intros idx kvs H kv Hin.
  - injection H as <-. contradiction.
  - cbn [eachItem] in H.
    apply bind_ok_inv in H. destruct H as (here & Hhere & H).
    apply bind_ok_inv in H. destruct H as (more & Hmore & H). injection H as <-.
    apply in_app_or in Hin. destruct Hin as [Hin|Hin].
    + exists item. split; [now left|]. exact (eachField_keys _ _ _ _ _ Hhere kv Hin).
    + destruct (IH _ _ Hmore kv Hin) as (it & Hit & Hk). exists it. split; [now right | exact Hk].
Qed.

Lemma in_recordSet {V : Type} (k : string) (v : V) (rec : list (string * V)) (p : string * V) :
  In p (recordSet k v rec) -> In p rec \/ p = (k, v).
Proof.
  induction rec as [|[k' v'] rec IH]; simpl.
  - intros [<-|[]]. now right.
  - destruct (String.eqb_spec k k') as [->|E]; simpl.
    + intros [<-|H]; [now right | left; now right].
    + intros [<-|H]; [left; now left|]. destruct (IH H); [left; now right | now right].
Qed.

Lemma in_paramsRecord (kvs : list (string * ValueKey)) (p : string * ValueKey) :
  In p (paramsRecord kvs) -> In p kvs.
Proof.
  unfold paramsRecord.
  assert (G : forall acc, In p (fold_left (fun params kv =>
                                  recordSet (fst kv) (mkValueKey (value (snd kv)) (key (snd kv)))
                                            params) kvs acc) ->
                          In p acc \/ In p kvs).
  { induction kvs as [|[n vk] kvs IH]; intros acc H; [now left|].
    cbn [fold_left fst snd] in H. apply IH in H. destruct H as [H|H]; [|right; now right].
    apply in_recordSet in H. destruct H as [H|E]; [now left|].
    subst p. right. left. now rewrite valueKey_eta. }
  intros H. destruct (G [] H) as [[]|H']. exact H'.
Qed.

(** The columns of the bound parameters are columns of the items. *)
Lemma getParams_keys tableName action eps options ps :
  getParams tableName action eps options = Ok ps ->
  forall p, In p ps ->
    exists item, In item (ensureArray eps) /\ In (key (snd p)) (keys (visitedFields item)).
Proof.
  unfold getParams. intros H p Hin.
  apply bind_ok_inv in H. destruct H as (kvs & Hkvs & H). injection H as <-.
  apply in_paramsRecord in Hin.
  unfold toGroupParametersKeyValue in Hkvs. rewrite mapEntityItems_visited in Hkvs.
  destruct (eachItem_keys _ _ _ _ _ Hkvs p Hin) as (visited & Hv & Hk).
  apply in_map_iff in Hv. destruct Hv as (item & <- & Hitem). eauto.
Qed.

Lemma shapePush_nonempty (c : list string) (k : nat) (g : list (list string * list nat)) :
  (forall x, In x g -> snd x <> []) -> forall x, In x (shapePush c k g) -> snd x <> [].
Proof.
  induction g as [|[c' ks] g IH]; intros Hg x Hin; simpl in Hin.
  - destruct Hin as [<-|[]]. discriminate.
  - destruct (columnsEqb c c').
    + destruct Hin as [<-|Hin].
      * cbn. destruct ks; discriminate.
      * apply Hg. now right.
    + destruct Hin as [<-|Hin].
      * apply (Hg (c', ks)). now left.
      * apply IH; [|exact Hin]. intros y Hy. apply Hg. now right.
Qed.

Lemma shapeGroups_nonempty (cl : list (nat * list string)) :
  forall g, In g (shapeGroups cl) -> snd g <> [].
Proof.
  unfold shapeGroups.
  assert (G : forall acc, (forall x, In x acc -> snd x <> []) ->
                          forall g, In g (fold_left (fun groups kc =>
                                            shapePush (sortBy (snd kc)) (fst kc) groups) cl acc) ->
                                    snd g <> []).
  { induction cl as [|kc cl IH]; intros acc Hacc g Hin; [now apply Hacc|].
    cbn [fold_left] in Hin. eapply IH; [|exact Hin]. now apply shapePush_nonempty. }
  apply G. intros x [].
Qed.

(** Every statement lists the columns of one of the items. *)
Lemma group_columns_of_item (items : list EntityParameter) (g : list string * list nat) :
  In g (shapeGroups (columnListsOf items)) ->
  exists item, In item items
               /\ forall col, In col (fst g) -> In col (keys (visitedFields item)).
Proof.
  intros Hg. pose proof (shapeGroups_nonempty _ g Hg) as Hne.
  destruct g as [c ks]. cbn [fst snd] in *. destruct ks as [|i ks]; [congruence|].
  destruct (shapeGroups_partition_visited items) as (_ & Hmem & _).
  assert (Hin : inGroup (shapeGroups (columnListsOf items)) c i).
  { exists (i :: ks). split; [exact Hg | now left]. }
  apply Hmem in Hin. destruct Hin as (item & Hnth & _ & ->).
  exists item. split; [now apply nth_error_In in Hnth|].
  intros col. apply Permutation_in, sortBy_perm.
Qed.

Lemma omit_keys (item : EntityParameter) (paths : list string) (col : string) :
  In col (keys (omit item paths)) -> includes paths col = false /\ In col (keys item).
Proof.
  unfold keys, omit. intros H. apply in_map_iff in H. destruct H as ([k fv] & E & H).
  cbn in E. subst k. apply filter_In in H. destruct H as [H Hf]. cbn [fst] in Hf.
  split; [now apply negb_true_iff|]. apply in_map_iff. now exists (col, fv).
Qed.

(** X3.  A column named in [columnFiltered], by default [id], is never
    written by an INSERT of items that are read field by field (no [length]
    column that holds a length): when [insertSql] returns a query, no
    statement lists the column and no parameter is bound for it. *)
Theorem insert_never_writes_filtered_columns :
  forall tableName eps columnFiltered options q,
    (forall item, In item (ensureArray eps) -> notArrayLike item = true) ->
    insertSql tableName eps columnFiltered options = Ok q ->
    let groups := shapeGroups (columnListsOf (entityParametersFilter eps columnFiltered FOut)) in
    sql q = join (map (insertStatement tableName) groups) nl
    /\ (forall g col, In g groups -> In col (fst g) ->
                      includes (filterColumns columnFiltered) col = false)
    /\ (forall p, In p (params q) ->
                  includes (filterColumns columnFiltered) (key (snd p)) = false).
Proof.
  intros tableName eps columnFiltered options q Hplain H groups.
  rewrite insertSql_spec in H. apply bind_ok_inv in H. destruct H as (ps & Hps & H).
  injection H as <-. cbn [sql params]. split; [reflexivity|]. split.
  - intros g col Hg Hcol. apply group_columns_of_item in Hg.
    destruct Hg as (item & Hitem & Hcols).
    apply in_entityParametersFilter_out in Hitem. destruct Hitem as (o & Ho & ->).
    specialize (Hcols col Hcol).
    rewrite visitedFields_plain in Hcols
      by (apply notArrayLike_spec, omit_notArrayLike, Hplain, Ho).
    exact (proj1 (omit_keys _ _ _ Hcols)).
  - intros p Hp.
    destruct (getParams tableName MInsert
                (EPMany (entityParametersFilter eps columnFiltered FOut)) options)
      as [ps'|e] eqn:E; [|discriminate].
    injection Hps as ->.
    destruct (getParams_keys _ _ _ _ E p Hp) as (item & Hitem & Hk).
    cbn [ensureArray] in Hitem.
    apply in_entityParametersFilter_out in Hitem. destruct Hitem as (o & Ho & ->).
    rewrite visitedFields_plain in Hk
      by (apply notArrayLike_spec, omit_notArrayLike, Hplain, Ho).
    exact (proj1 (omit_keys _ _ _ Hk)).
Qed.

Lemma insert_never_writes_filtered_columns_witness :
  exists q,
    insertSql "t" mixedScalars defaultColumnFiltered noKvOptions = Ok q
    /\ (forall p, In p (params q) ->
                  includes (filterColumns defaultColumnFiltered) (key (snd p)) = false).
Proof.
  eexists. split; [reflexivity|].
  refine (proj2 (proj2 (@insert_never_writes_filtered_columns
                          "t" mixedScalars defaultColumnFiltered noKvOptions _ _ eq_refl))).
  intros item [<-|[<-|[]]]; reflexivity.
Defined.

Lemma in_prepareUpdate (eps : EntityParameters) (keyColumn : string) (item : EntityParameter) :
  In item (prepareUpdateEntityParamsByKey eps keyColumn) ->
  exists original, In original (ensureArray eps) /\ keys item = keys original.
Proof.
  unfold prepareUpdateEntityParamsByKey. rewrite in_flat_map.
  intros (o & Ho & H). exists o. split; [exact Ho|].
  destruct (recordGet keyColumn o) as [keyItem|] eqn:E; [|contradiction].
  destruct (isNilValue keyItem); [contradiction|].
  apply in_map_iff in H. destruct H as (k & <- & _).
  unfold keys. exact (@recordSet_keys _ keyColumn k keyItem o E).
Qed.

(** X4.  An update by a key column other than [id] never writes [id]: when
    [updateByKeySql] returns a query, no MERGE statement lists the column
    [id] and no parameter is bound for it, whatever the items carry (the
    columns of a row are the keys the traversal visits: its fields, or
    indices when the row has a [length] column that holds a length). *)
Theorem update_by_other_key_never_writes_id :
  forall tableName eps keyColumn options q,
    keyColumn <> "id" ->
    updateByKeySql tableName eps keyColumn options = Ok q ->
    let groups := shapeGroups (columnListsOf (preparedUpdateItems eps keyColumn)) in
    sql q = join (map (updateStatement tableName keyColumn) groups) nl
    /\ (forall g, In g groups -> ~ In "id" (fst g))
    /\ (forall p, In p (params q) -> key (snd p) <> "id").
Proof.
  intros tableName eps keyColumn options q Hkey H groups.
  rewrite updateByKeySql_spec in H. cbv zeta in H.
  apply bind_ok_inv in H. destruct H as (ps & Hps & H).
  injection H as <-. cbn [sql params].
  assert (Hitems : forall item, In item (preparedUpdateItems eps keyColumn) ->
                                ~ In "id" (keys (visitedFields item))).
  { unfold preparedUpdateItems. apply String.eqb_neq in Hkey. rewrite Hkey. cbn [negb].
    intros item Hin Hid. apply visited_keys in Hid.
    destruct Hid as [Hid|[index Hid]]; [|symmetry in Hid; now apply natToString_not_id in Hid].
    apply in_prepareUpdate in Hin. destruct Hin as (o & Ho & E).
    cbn [ensureArray] in Ho. fold (keys item) in Hid. rewrite E in Hid.
    apply in_entityParametersFilter_out in Ho. destruct Ho as (o' & _ & ->).
    apply omit_keys in Hid. destruct Hid as [Hid _]. discriminate. }
  split; [reflexivity|]. split.
  - intros g Hg Hid. apply group_columns_of_item in Hg.
    destruct Hg as (item & Hitem & Hcols). exact (Hitems item Hitem (Hcols _ Hid)).
  - intros p Hp Hid.
    destruct (getParams tableName MUpdate (EPMany (preparedUpdateItems eps keyColumn)) options)
      as [ps'|e] eqn:E; [|discriminate].
    injection Hps as ->.
    destruct (getParams_keys _ _ _ _ E p Hp) as (item & Hitem & Hk).
    cbn [ensureArray] in Hitem. rewrite Hid in Hk. exact (Hitems item Hitem Hk).
Qed.

Lemma update_by_other_key_never_writes_id_witness :
  exists q,
    updateByKeySql "t" mixedScalars "name" noKvOptions = Ok q
    /\ (forall p, In p (params q) -> key (snd p) <> "id").
Proof.
  eexists. split; [reflexivity|].
  refine (proj2 (proj2 (@update_by_other_key_never_writes_id
                          "t" mixedScalars "name" noKvOptions _ _ eq_refl))).
  discriminate.
Defined.

(* ------------------------------------------------------------------ *)
(** ** ORDER BY *)

Lemma orderByEntry_valid tableName columnsList o :
  validOrder columnsList o = true ->
  orderByEntry tableName columnsList o = Ok (orderText o).
Proof.
  unfold validOrder, orderByEntry, orderText.
  destruct o as [c|c d| |]; cbn; intros H; try discriminate; rewrite H; cbn; reflexivity.
Qed.

Lemma orderByEntry_invalid tableName columnsList o :
  validOrder columnsList o = false ->
  orderByEntry tableName columnsList o
  = Err (match o with
         | ByNull => TypeError
         | ByOther => Sql (invalidOrderBy tableName MFind)
         | ByName _ | ByColumn _ _ => Sql (invalidOrderByColumn tableName MFind)
         end).
Proof.
  unfold validOrder, orderByEntry.
  destruct o as [c|c d| |]; cbn; intros H; try rewrite H; reflexivity.
Qed.

Lemma mapM_orderByEntry_valid tableName columnsList l :
  forallb (validOrder columnsList) l = true ->
  mapM (orderByEntry tableName columnsList) l = Ok (map orderText l).
Proof.
  induction l as [|o l IH]; [reflexivity|]. cbn [forallb]. intros H.
  apply andb_true_iff in H. destruct H as [Ho Hl].
  simpl mapM. cbn [map]. rewrite (@orderByEntry_valid tableName _ _ Ho), (IH Hl). reflexivity.
Qed.

Lemma mapM_orderByEntry_invalid tableName columnsList before bad after :
  forallb (validOrder columnsList) before = true ->
  validOrder columnsList bad = false ->
  mapM (orderByEntry tableName columnsList) (before ++ bad :: after)%list
  = Err (match bad with
         | ByNull => TypeError
         | ByOther => Sql (invalidOrderBy tableName MFind)
         | ByName _ | ByColumn _ _ => Sql (invalidOrderByColumn tableName MFind)
         end).
Proof.
  intros Hb Hbad. induction before as [|o before IH].
  - rewrite app_nil_l. simpl mapM. now rewrite (@orderByEntry_invalid tableName _ _ Hbad).
  - cbn [forallb] in Hb. apply andb_true_iff in Hb. destruct Hb as [Ho Hb].
    rewrite <- app_comm_cons. simpl mapM.
    rewrite (@orderByEntry_valid tableName _ _ Ho), (IH Hb). reflexivity.
Qed.

Lemma forallb_false_split {A : Type} (f : A -> bool) (l : list A) :
  forallb f l = false ->
  exists before bad after,
    l = (before ++ bad :: after)%list /\ forallb f before = true /\ f bad = false.
Proof.
  induction l as [|x l IH]; [discriminate|]. cbn [forallb]. intros H.
  destruct (f x) eqn:E.
  - destruct (IH H) as (b & bad & a & -> & Hb & Hbad).
    exists (x :: b), bad, a. cbn [forallb]. rewrite E. auto.
  - exists [], x, l. auto.
Qed.

(** X5.  With a non-empty [orderBy], [buildOrderBySql] returns a clause
    exactly when every entry is a name or an object with a [column] and
    names a column of the whitelist; the clause then lists the entries in
    order, with ASC where no direction is given, whatever [skip], [take] and
    [defaultOrderBy] are. *)
Theorem order_by_only_whitelisted_columns :
  forall tableName columnsList options o os,
    orderBy options = Some (o :: os) ->
    forall s,
      buildOrderBySql tableName columnsList options = Ok s
      <-> (forallb (validOrder columnsList) (o :: os) = true
           /\ s = "ORDER BY " ++ join (map orderText (o :: os)) ", ").
Proof.
  intros tableName columnsList options o os Ho s. unfold buildOrderBySql. rewrite Ho.
  destruct (forallb (validOrder columnsList) (o :: os)) eqn:E.
  - rewrite (@mapM_orderByEntry_valid tableName _ _ E). cbn [bind]. split.
    + intros H. injection H as <-. auto.
    + intros [_ ->]. reflexivity.
  - destruct (forallb_false_split _ _ E) as (b & bad & a & El & Hb & Hbad).
    rewrite El, (@mapM_orderByEntry_invalid tableName _ _ _ a Hb Hbad). cbn [bind].
    split; [discriminate | intros [H _]; discriminate].
Qed.

Lemma order_by_only_whitelisted_columns_witness :
  buildOrderBySql "t" ["name"; "age"]
    (mkOrderOptions (Some 5%Z) None (Some [ByColumn "age" (Some DESC); ByName "name"]) (Some "id"))
  = Ok "ORDER BY [age] DESC, [name] ASC".
Proof.
  apply (@order_by_only_whitelisted_columns "t" ["name"; "age"]
           (mkOrderOptions (Some 5%Z) None (Some [ByColumn "age" (Some DESC); ByName "name"])
                           (Some "id"))
           (ByColumn "age" (Some DESC)) [ByName "name"] eq_refl).
  split; reflexivity.
Defined.

(** X6.  The first entry of [orderBy] that is not acceptable decides what
    [buildOrderBySql] throws: [null] throws a TypeError ([typeof null] is
    ['object'], so ['column' in null] is evaluated); another entry that is
    neither a name nor an object with a [column] raises the SqlError whose
    message is [[SQL: table] Invalid orderBy item for find]; a column
    outside the whitelist raises the SqlError whose message is
    [[SQL: table] Invalid orderBy column for find]. *)
Theorem order_by_first_invalid_entry :
  forall tableName columnsList options before bad after,
    orderBy options = Some (before ++ bad :: after)%list ->
    forallb (validOrder columnsList) before = true ->
    validOrder columnsList bad = false ->
    buildOrderBySql tableName columnsList options
    = Err (match bad with
           | ByNull => TypeError
           | ByOther => Sql (invalidOrderBy tableName MFind)
           | ByName _ | ByColumn _ _ => Sql (invalidOrderByColumn tableName MFind)
           end)
    /\ sqlMessage (invalidOrderBy tableName MFind)
       = "[SQL: " ++ tableName ++ "] Invalid orderBy item for find"
    /\ sqlMessage (invalidOrderByColumn tableName MFind)
       = "[SQL: " ++ tableName ++ "] Invalid orderBy column for find".
Proof.
  intros tableName columnsList options before bad after Ho Hb Hbad.
  split; [|split; reflexivity].
  unfold buildOrderBySql. rewrite Ho.
  destruct (before ++ bad :: after)%list as [|o os] eqn:E.
  - destruct before; discriminate.
  - rewrite <- E, (@mapM_orderByEntry_invalid tableName _ _ _ after Hb Hbad). reflexivity.
Qed.

Lemma order_by_first_invalid_entry_witness :
  buildOrderBySql "t" ["name"; "age"]
    (mkOrderOptions None None (Some [ByName "name"; ByName "salary"; ByOther]) None)
    = Err (Sql (invalidOrderByColumn "t" MFind))
  /\ buildOrderBySql "t" ["name"; "age"]
       (mkOrderOptions None None (Some [ByName "name"; ByNull; ByName "salary"]) None)
     = Err TypeError
  /\ buildOrderBySql "t" ["name"; "age"]
       (mkOrderOptions None None (Some [ByOther; ByNull]) None)
     = Err (Sql (invalidOrderBy "t" MFind))
  /\ sqlMessage (invalidOrderBy "t" MFind) = "[SQL: t] Invalid orderBy item for find".
Proof.
  split; [|split; [|split]].
  - apply (@order_by_first_invalid_entry "t" ["name"; "age"]
             (mkOrderOptions None None (Some [ByName "name"; ByName "salary"; ByOther]) None)
             [ByName "name"] (ByName "salary") [ByOther]); reflexivity.
  - apply (@order_by_first_invalid_entry "t" ["name"; "age"]
             (mkOrderOptions None None (Some [ByName "name"; ByNull; ByName "salary"]) None)
             [ByName "name"] ByNull [ByName "salary"]); reflexivity.
  - apply (@order_by_first_invalid_entry "t" ["name"; "age"]
             (mkOrderOptions None None (Some [ByOther; ByNull]) None)
             [] ByOther [ByNull]); reflexivity.
  - apply (@order_by_first_invalid_entry "t" ["name"; "age"]
             (mkOrderOptions None None (Some [ByOther; ByNull]) None)
             [] ByOther [ByNull]); reflexivity.
Defined.

(* ------------------------------------------------------------------ *)
(** ** SELECT: the whitelist and the shape of the WHERE clause *)

Lemma sqlFragment_known tableName action cols esc sz v k op idx r :
  sqlFragment tableName action (mkSqlOptions esc (Some cols) (Some Throw) sz) v k op idx = Ok r ->
  includes cols k = true.
Proof.
  unfold sqlFragment. cbn [columnsList onUnknownColumn orDefault unknownToList].
  destruct (includes cols k); [reflexivity|]. cbn. discriminate.
Qed.

Lemma eachField_known tableName action cols esc sz idx item rs :
  eachField (sqlFragment tableName action (mkSqlOptions esc (Some cols) (Some Throw) sz))
               idx item = Ok rs ->
  forall k fv, In (k, fv) item -> includes cols k = true.
Proof.
  revert rs. induction item as [|[k0 fv0] item IH]; intros rs H k fv Hin; [contradiction|].
  cbn [eachField] in H. destruct (fieldQueryOf fv0) as [v op].
  apply bind_ok_inv in H. destruct H as (r & Hr & H).
  apply bind_ok_inv in H. destruct H as (more & Hmore & _).
  destruct Hin as [E|Hin].
  - injection E as <- <-. exact (sqlFragment_known _ _ _ _ _ _ _ _ _ Hr).
  - exact (IH more Hmore k fv Hin).
Qed.

Lemma eachItem_known tableName action cols esc sz idx items rs :
  eachItem (sqlFragment tableName action (mkSqlOptions esc (Some cols) (Some Throw) sz))
              idx items = Ok rs ->
  forall item k fv, In item items -> In (k, fv) item -> includes cols k = true.
Proof.
  revert idx rs. induction items as [|it items IH]; intros idx rs H item k fv Hitem Hin;
    [contradiction|].
  cbn [eachItem] in H.
  apply bind_ok_inv in H. destruct H as (here & Hhere & H).
  apply bind_ok_inv in H. destruct H as (more & Hmore & _).
  destruct Hitem as [<-|Hitem].
  - exact (eachField_known _ _ _ _ _ _ _ Hhere k fv Hin).
  - exact (IH _ _ Hmore item k fv Hitem Hin).
Qed.

Lemma raise_ok_inv {A : Type} (c : result SqlError A) (a : A) :
  raise c = Ok a -> c = Ok a.
Proof. destruct c; cbn; congruence. Qed.

(** What [selectByColumnsSql] has computed when it returns for a non-empty
    argument. *)
Lemma selectByColumnsSql_inv tableName columnsList eps options q :
  sizeOf eps <> 0 ->
  selectByColumnsSql tableName columnsList eps options = Ok q ->
  exists orderBySql ps groups,
    buildOrderBySql tableName columnsList (selectOrderOptions options) = Ok orderBySql
    /\ getParams tableName MFind eps
         (mkKvOptions (selInChunkSize options) (selLikeMode options) (selEscapeChar options))
       = Ok ps
    /\ toGroupParametersSql tableName MFind eps (selectSqlOptions columnsList options) = Ok groups
    /\ q = mkQuery (nl ++ "    " ++ ("SELECT * FROM [" ++ tableName ++ "]") ++ nl ++ "    "
                    ++ ("WHERE " ++ join (map (fun conditions => "(" ++ join conditions " AND " ++ ")")
                                              (map snd groups)) " OR ")
                    ++ nl ++ "    " ++ orderBySql ++ nl ++ "    " ++ selectPaging options
                    ++ ";" ++ nl ++ "  ") ps.
Proof.
  intros Hsize H. unfold selectByColumnsSql in H.
  apply bind_ok_inv in H. destruct H as (orderBySql & Ho & H).
  apply Nat.eqb_neq in Hsize. rewrite Hsize in H.
  apply bind_ok_inv in H. destruct H as (ps & Hps & H).
  apply bind_ok_inv in H. destruct H as (groups & Hg & H).
  injection H as <-.
  exists orderBySql, ps, groups.
  split; [exact Ho|]. split; [exact (@raise_ok_inv _ _ _ Hps)|].
  split; [exact (@raise_ok_inv _ _ _ Hg)|]. reflexivity.
Qed.

(** X7.  A SELECT never filters on a column outside the whitelist: when
    [selectByColumnsSql] returns a query for an argument whose lodash size
    is not 0, every column the traversal visits (the fields of an item, or
    the indices below [length] of an item with a [length] column that holds
    a length) is a column of [columnsList], and so is the column of every
    bound parameter. *)
Theorem select_only_whitelisted_columns :
  forall tableName columnsList eps options q,
    sizeOf eps <> 0 ->
    selectByColumnsSql tableName columnsList eps options = Ok q ->
    (forall item k fv, In item (ensureArray eps) -> In (k, fv) (visitedFields item) ->
                       includes columnsList k = true)
    /\ (forall p, In p (params q) -> includes columnsList (key (snd p)) = true).
Proof.
  intros tableName columnsList eps options q Hsize H.
  destruct (@selectByColumnsSql_inv _ _ _ _ _ Hsize H) as (orderBySql & ps & groups & _ & Hps & Hg & ->).
  assert (Hknown : forall item k fv, In item (ensureArray eps) -> In (k, fv) (visitedFields item) ->
                                     includes columnsList k = true).
  { unfold toGroupParametersSql, selectSqlOptions in Hg. rewrite mapEntityItems_visited in Hg.
    apply bind_ok_inv in Hg. destruct Hg as (rs & Hrs & _).
    intros item k fv Hitem Hin.
    exact (eachItem_known _ _ _ _ _ _ _ Hrs (visitedFields item) k fv
             (in_map visitedFields _ _ Hitem) Hin). }
  split; [exact Hknown|].
  cbn [params]. intros p Hp.
  destruct (getParams_keys _ _ _ _ Hps p Hp) as (item & Hitem & Hk).
  apply in_keys_field in Hk. destruct Hk as [fv Hfv].
  exact (Hknown item _ fv Hitem Hfv).
Qed.

Lemma select_only_whitelisted_columns_witness :
  exists q,
    selectByColumnsSql "t" ["name"; "age"; "active"] adultsOrBob noSelectOptions = Ok q
    /\ (forall p, In p (params q) ->
                  includes ["name"; "age"; "active"] (key (snd p)) = true).
Proof.
  eexists. split; [reflexivity|].
  refine (proj2 (@select_only_whitelisted_columns "t" ["name"; "age"; "active"] adultsOrBob
                   noSelectOptions _ _ eq_refl)).
  discriminate.
Defined.

Lemma byIndexFrom_values {R : Type} (idx : nat) (perItem : list (list R)) :
  map snd (byIndexFrom idx perItem) = withFields perItem.
Proof.
  unfold byIndexFrom, withFields. revert idx.
  induction perItem as [|rs perItem IH]; intros idx; [reflexivity|].
  cbn [mapiFrom filter snd]. destruct (negb (Nat.eqb (length rs) 0)); cbn [map snd];
    now rewrite IH.
Qed.

(** X8.  The WHERE clause of a SELECT is the disjunction, in item order, of
    one parenthesised conjunction for each item of which the traversal
    visits a field; the conjunction lists the fragments of the fields
    visited in order (the fields of the item, or the indices below [length]
    of an item with a [length] column that holds a length), and an item
    without fields contributes nothing. *)
Theorem select_where_is_or_of_ands :
  forall tableName columnsList eps options q,
    sizeOf eps <> 0 ->
    selectByColumnsSql tableName columnsList eps options = Ok q ->
    exists perItem orderBySql,
      fragmentsFrom tableName MFind (selectSqlOptions columnsList options) 0
                    (map visitedFields (ensureArray eps))
      = Ok perItem
      /\ buildOrderBySql tableName columnsList (selectOrderOptions options) = Ok orderBySql
      /\ sql q
         = nl ++ "    SELECT * FROM [" ++ tableName ++ "]" ++ nl
           ++ "    WHERE "
           ++ join (map (fun fragments => "(" ++ join fragments " AND " ++ ")")
                        (withFields perItem)) " OR "
           ++ nl ++ "    " ++ orderBySql ++ nl ++ "    " ++ selectPaging options
           ++ ";" ++ nl ++ "  ".
Proof.
  intros tableName columnsList eps options q Hsize H.
  destruct (@selectByColumnsSql_inv _ _ _ _ _ Hsize H) as (orderBySql & ps & groups & Ho & _ & Hg & ->).
  rewrite toGroupParametersSql_perItem in Hg.
  apply bind_ok_inv in Hg. destruct Hg as (perItem & Hper & Hg). injection Hg as <-.
  exists perItem, orderBySql. split; [exact Hper|]. split; [exact Ho|].
  cbn [sql]. rewrite byIndexFrom_values.
  repeat (rewrite ?append_assoc; cbn [append]). reflexivity.
Qed.

Lemma select_where_is_or_of_ands_witness :
  exists q,
    selectByColumnsSql "t" ["name"; "age"; "active"] adultsOrBob noSelectOptions = Ok q
    /\ sql q
       = nl ++ "    SELECT * FROM [t]" ++ nl
         ++ "    WHERE ([age] >= @age_0 AND [active] = @active_0) OR ([name] = @name_2)"
         ++ nl ++ "    " ++ nl ++ "    ;" ++ nl ++ "  ".
Proof.
  eexists. split; [reflexivity|].
  assert (Hsize : sizeOf adultsOrBob <> 0) by discriminate.
  destruct (@select_where_is_or_of_ands "t" ["name"; "age"; "active"] adultsOrBob
              noSelectOptions _ Hsize eq_refl) as (perItem & orderBySql & H1 & H2 & H3).
  injection H1 as <-. injection H2 as <-. exact H3.
Defined.

(* ------------------------------------------------------------------ *)
(** ** Null and undefined values *)

(** X9.  A field whose value is null or undefined, on a column the
    whitelist does not reject and in an item that is read field by field (no
    [length] column that holds a length), compiles to [IS NOT NULL] under
    [!=] and NOT IN and to [IS NULL] under every other operator, LIKE,
    BETWEEN and the comparisons included: the callback returns the fragment,
    and in every successful compilation it stands in the group of its item
    at the position of the field.  The binder emits no parameter for the
    field and raises nothing for it: binding is the same as without the
    field (the item without the field being read field by field too). *)
Theorem null_value_fragment :
  forall tableName action options kvOptions before after f1 f2 keyStr fv v operator,
    fieldQueryOf fv = (One v, operator) ->
    isNil v = true ->
    unknownToList (columnsList options) keyStr = false ->
    arrayLikeLength (f1 ++ (keyStr, fv) :: f2)%list = None ->
    let itemIndex := length before in
    let eps := EPMany (before ++ (f1 ++ (keyStr, fv) :: f2) :: after)%list in
    let fragment := match operator with
                    | OpNe | OpNotIn => "[" ++ keyStr ++ "] IS NOT NULL"
                    | _ => "[" ++ keyStr ++ "] IS NULL"
                    end in
    sqlFragment tableName action options (One v) keyStr operator itemIndex
      = Ok (Single (itemIndex, fragment))
    /\ (forall groups,
          toGroupParametersSql tableName action eps options = Ok groups ->
          exists frags, groupOf itemIndex groups = Some frags
                        /\ nth_error frags (length f1) = Some fragment)
    /\ keyValues tableName action kvOptions (One v) keyStr operator itemIndex = Ok (Flat [])
    /\ (arrayLikeLength (f1 ++ f2)%list = None ->
        toGroupParametersKeyValue tableName action eps kvOptions
        = toGroupParametersKeyValue tableName action
            (EPMany (before ++ (f1 ++ f2) :: after)%list) kvOptions).
Proof.
  intros tableName action options kvOptions before after f1 f2 keyStr fv v operator Hfv Hnil Hk
         Hplain itemIndex eps fragment.
  assert (Hcb : sqlFragment tableName action options (One v) keyStr operator itemIndex
                = Ok (Single (itemIndex, fragment))).
  { unfold sqlFragment. rewrite Hk, Hnil. subst fragment. now destruct operator. }
  assert (Hkv : keyValues tableName action kvOptions (One v) keyStr operator itemIndex
                = Ok (Flat [])).
  { unfold keyValues. now rewrite Hnil. }
  split; [exact Hcb|]. split.
  - intros groups H. rewrite toGroupParametersSql_perItem in H.
    apply bind_ok_inv in H. destruct H as (perItem & Hper & H). injection H as <-.
    destruct (fragmentsFrom_nth _ _ _ _ _ itemIndex Hper
                (item := (f1 ++ (keyStr, fv) :: f2)%list)) as (frs & Hnth & Hfrs).
    { subst itemIndex eps. cbn [ensureArray]. rewrite map_app. cbn [map].
      rewrite (visitedFields_plain _ Hplain).
      rewrite nth_error_app2 by (rewrite length_map; lia).
      now rewrite length_map, Nat.sub_diag. }
    destruct (mapM_nth _ _ (length f1) Hfrs (x := (keyStr, fv))) as (y & Hy & Hfy).
    { now rewrite nth_error_app2, Nat.sub_diag by lia. }
    unfold fragmentOf in Hfy. cbn [fst snd] in Hfy. rewrite Hfv in Hfy.
    cbv beta iota in Hfy. rewrite Nat.add_0_l, Hcb in Hfy. cbn [bind snd] in Hfy.
    injection Hfy as <-.
    exists frs. split; [|exact Hy].
    apply (groupOf_byIndexFrom perItem 0 itemIndex Hnth).
    intros ->. destruct (length f1); discriminate.
  - split; [exact Hkv|].
    intros Hplain'. unfold toGroupParametersKeyValue. rewrite !mapEntityItems_visited.
    subst eps. cbn [ensureArray]. rewrite !map_app. cbn [map].
    rewrite (visitedFields_plain _ Hplain), (visitedFields_plain _ Hplain').
    apply eachItem_drop_silent_field. rewrite Hfv. now rewrite length_map.
Qed.

Lemma null_value_fragment_witness :
  sqlFragment "t" MFind noSqlOptions (One PNull) "age" OpLt 0 = Ok (Single (0, "[age] IS NULL"))
  /\ sqlFragment "t" MFind noSqlOptions (One PNull) "age" OpNe 0
     = Ok (Single (0, "[age] IS NOT NULL"))
  /\ sqlFragment "t" MFind noSqlOptions (One PUndefined) "age" OpNotIn 0
     = Ok (Single (0, "[age] IS NOT NULL"))
  /\ sqlFragment "t" MFind noSqlOptions (One PNull) "age" OpLike 0
     = Ok (Single (0, "[age] IS NULL"))
  /\ toGroupParametersKeyValue "t" MFind (EPMany nullAge) noKvOptions
     = toGroupParametersKeyValue "t" MFind (EPMany [[("name", Raw (One (PStr "a")))]]) noKvOptions.
Proof.
  pose proof (fun fv v operator Hfv Hnil =>
                @null_value_fragment "t" MFind noSqlOptions noKvOptions
                  [] [] [("name", Raw (One (PStr "a")))] []
                  "age" fv v operator Hfv Hnil eq_refl eq_refl) as H.
  cbv zeta in H.
  destruct (H (Query 0 (One PNull) (Some OpLt)) PNull OpLt eq_refl eq_refl)
    as (H1 & _ & _ & H2).
  destruct (H (Query 0 (One PNull) (Some OpNe)) PNull OpNe eq_refl eq_refl) as (H3 & _).
  destruct (H (Query 0 (One PUndefined) (Some OpNotIn)) PUndefined OpNotIn eq_refl eq_refl)
    as (H4 & _).
  destruct (H (Query 0 (One PNull) (Some OpLike)) PNull OpLike eq_refl eq_refl) as (H5 & _).
  split; [exact H1|]. split; [exact H3|]. split; [exact H4|]. split; [exact H5|].
  exact (H2 eq_refl).
Defined.

(* ------------------------------------------------------------------ *)
(** ** DELETE: only the set of ids matters *)

Lemma uniq_step_absorb (seen l : list prim) :
  (forall x, In x l -> In x seen) ->
  fold_left (fun seen x => if existsb (primEqb x) seen then seen else (seen ++ [x])%list) l seen
  = seen.
Proof.
  induction l as [|x l IH]; intros H; [reflexivity|]. cbn [fold_left].
  assert (Hx : existsb (primEqb x) seen = true).
  { apply (member_In x seen). apply H. now left. }
  rewrite Hx. apply IH. intros y Hy. apply H. now right.
Qed.

Lemma uniq_app_absorb (l1 l2 : list prim) :
  (forall x, In x l2 -> In x l1) -> uniq (l1 ++ l2) = uniq l1.
Proof.
  intros H. unfold uniq. rewrite fold_left_app. apply uniq_step_absorb.
  intros x Hx. apply uniq_In. now apply H.
Qed.

Lemma uniq_step_fresh (seen l : list prim) :
  NoDup (seen ++ l) ->
  fold_left (fun seen x => if existsb (primEqb x) seen then seen else (seen ++ [x])%list) l seen
  = (seen ++ l)%list.
Proof.
  revert seen. induction l as [|x l IH]; intros seen H; [now rewrite app_nil_r|].
  cbn [fold_left].
  assert (Hx : existsb (primEqb x) seen = false).
  { destruct (existsb (primEqb x) seen) eqn:E; [|reflexivity].
    apply (member_In x seen) in E. apply NoDup_remove_2 in H.
    exfalso. apply H. apply in_or_app. now left. }
  rewrite Hx, IH; rewrite <- app_assoc; [reflexivity | exact H].
Qed.

Lemma uniq_fixed (l : list prim) : NoDup l -> uniq l = l.
Proof. intros H. unfold uniq. now rewrite uniq_step_fresh. Qed.

Lemma collectIds_app (l1 l2 : list EntityParameter) :
  collectIds (l1 ++ l2) = (collectIds l1 ++ collectIds l2)%list.
Proof. unfold collectIds. apply flat_map_app. Qed.

(** X10.  [deleteByIdSql] depends on its argument through the ids only:
    items that repeat ids already given, in any form and any number, change
    neither the statement nor the parameters, and merging the ids beforehand
    changes nothing either. *)
Theorem delete_ignores_repeated_ids :
  forall tableName items extra sz,
    (forall x, In x (collectIds extra) -> In x (collectIds items)) ->
    deleteByIdSql tableName (EPMany (items ++ extra)) sz
    = deleteByIdSql tableName (EPMany items) sz
    /\ deleteByIdSql tableName (EPMany (mergeEntityParametersById (EPMany items))) sz
       = deleteByIdSql tableName (EPMany items) sz.
Proof.
  intros tableName items extra sz H. rewrite !deleteByIdSql_spec. cbv zeta.
  cbn [ensureArray]. split.
  - now rewrite collectIds_app, uniq_app_absorb.
  - unfold mergeEntityParametersById. cbn [ensureArray].
    assert (E : collectIds [[("id", Raw (Many (uniq (collectIds items))))]]
                = uniq (collectIds items)).
    { cbn. apply app_nil_r. }
    rewrite E, (uniq_fixed (uniq_NoDup _)). reflexivity.
Qed.

Lemma delete_ignores_repeated_ids_witness :
  deleteByIdSql "t" (EPMany (ensureArray overlappingDeletes ++ repeatedDeletes)) None
  = deleteByIdSql "t" overlappingDeletes None.
Proof.
  refine (proj1 (@delete_ignores_repeated_ids "t" (ensureArray overlappingDeletes)
                   repeatedDeletes None _)).
  vm_compute. intuition.
Defined.

(* ------------------------------------------------------------------ *)
(** ** [cleanParameters] *)

Lemma dropNilFields_fixed (item : EntityParameter) :
  dropNilFields (dropNilFields item) = dropNilFields item.
Proof.
  unfold dropNilFields. apply forallb_filter_id. apply forallb_forall.
  intros kv H. now apply filter_In in H.
Qed.

Lemma filter_fixed {A : Type} (f : A -> bool) (l : list A) :
  filter f (filter f l) = filter f l.
Proof.
  apply forallb_filter_id. apply forallb_forall. intros x H. now apply filter_In in H.
Qed.

Lemma includes_In (l : list string) (x : string) : includes l x = true <-> In x l.
Proof.
  unfold includes. rewrite existsb_exists. split.
  - intros (y & Hy & E). apply String.eqb_eq in E. now subst.
  - intros H. exists x. split; [exact H | apply String.eqb_refl].
Qed.

Lemma clean_twice (keep : EntityParameter -> bool) (l : list EntityParameter) :
  filter keep (filter notEmpty
    (map dropNilFields (filter keep (filter notEmpty (map dropNilFields l)))))
  = filter keep (filter notEmpty (map dropNilFields l)).
Proof.
  induction l as [|o l IH]; [reflexivity|].
  cbn [map filter]. destruct (notEmpty (dropNilFields o)) eqn:E1; [|exact IH].
  cbn [filter]. destruct (keep (dropNilFields o)) eqn:E2; [|exact IH].
  cbn [map filter]. rewrite dropNilFields_fixed, E1. cbn [filter]. rewrite E2.
  now rewrite IH.
Qed.

Lemma filter_both {A : Type} (f g : A -> bool) (l : list A) :
  filter f (filter g l) = filter (fun x => g x && f x) l.
Proof.
  induction l as [|x l IH]; [reflexivity|]. cbn [filter].
  destruct (g x); cbn [andb filter]; [|exact IH]. destruct (f x); now rewrite IH.
Qed.

(** X11.  What the default before-hook hands on after cleaning: every item
    kept is an item of the input without its null and undefined fields, has
    at least one field, has no null or undefined field and, when a column
    filter is given, has every filtered column; the items keep their order
    and cleaning a second time changes nothing. *)
Theorem clean_parameters_invariants :
  forall data columnFiltered,
    let cleaned := cleanParameters data columnFiltered in
    (forall item, In item cleaned ->
       item <> []
       /\ (forall k fv, In (k, fv) item -> isNilValue fv = false)
       /\ (truthyFilter columnFiltered = true ->
           forall c, In c (filterColumns columnFiltered) -> In c (keys item))
       /\ exists original, In original (ensureArray data) /\ item = dropNilFields original)
    /\ (exists keep, cleaned = filter keep (map dropNilFields (ensureArray data)))
    /\ cleanParameters (EPMany cleaned) columnFiltered = cleaned.
Proof.
  intros data columnFiltered cleaned.
  set (hasAll := fun item : EntityParameter =>
                   forallb (fun c => includes (keys item) c) (filterColumns columnFiltered)).
  assert (Hbase : forall item,
             In item (filter notEmpty (map dropNilFields (ensureArray data))) ->
             item <> []
             /\ (forall k fv, In (k, fv) item -> isNilValue fv = false)
             /\ exists original, In original (ensureArray data) /\ item = dropNilFields original).
  { intros item Hin. apply filter_In in Hin. destruct Hin as [Hin Hne].
    apply in_map_iff in Hin. destruct Hin as (o & <- & Ho). split; [|split].
    - intros E. rewrite E in Hne. discriminate.
    - intros k fv Hf. unfold dropNilFields in Hf. apply filter_In in Hf.
      destruct Hf as [_ Hf]. now apply negb_true_iff in Hf.
    - now exists o. }
  pose proof (fun keep => clean_twice keep (ensureArray data)) as Hfix.
  unfold cleaned, cleanParameters. cbn [ensureArray].
  destruct (truthyFilter columnFiltered) eqn:Et.
  - split; [|split].
    + intros item Hin. apply filter_In in Hin. destruct Hin as [Hin Hall].
      destruct (Hbase item Hin) as (H1 & H2 & H3).
      split; [exact H1|]. split; [exact H2|]. split; [|exact H3].
      intros _ c Hc. rewrite forallb_forall in Hall. apply includes_In. now apply Hall.
    + exists (fun item => notEmpty item && hasAll item). apply filter_both.
    + exact (Hfix hasAll).
  - split; [|split].
    + intros item Hin. destruct (Hbase item Hin) as (H1 & H2 & H3).
      split; [exact H1|]. split; [exact H2|]. split; [discriminate | exact H3].
    + now exists notEmpty.
    + pose proof (Hfix (fun _ => true)) as H.
      assert (Hid : forall l : list EntityParameter, filter (fun _ => true) l = l).
      { intros l. apply forallb_filter_id. now apply forallb_forall. }
      now rewrite !Hid in H.
Qed.

(* ------------------------------------------------------------------ *)
(** ** The compiler and the binder fail together *)

Lemma callbacks_raise_alike tableName action options kvOptions v k op idx :
  unknownToList (columnsList options) k = false ->
  errOf (sqlFragment tableName action options v k op idx)
  = errOf (keyValues tableName action kvOptions v k op idx).
Proof.
  intros Hk. unfold sqlFragment, keyValues. rewrite Hk.
  destruct v as [v|vs].
  - destruct (isNil v); [now destruct (isNegated op)|]. now destruct op.
  - destruct (Nat.eqb (length vs) 0); [now destruct (isNegated op)|].
    destruct op; try reflexivity.
    now destruct (negb (Nat.eqb (length vs) 2)).
Qed.

Section RaiseAlike.
Variables E R1 R2 : Type.
Variable callback1 : MaybeArray -> string -> Operator -> nat -> result E (CallbackResult R1).
Variable callback2 : MaybeArray -> string -> Operator -> nat -> result E (CallbackResult R2).
Variable good : string -> Prop.
Hypothesis alike : forall v k op idx,
    good k -> errOf (callback1 v k op idx) = errOf (callback2 v k op idx).

Lemma eachField_raise_alike (idx : nat) (item : EntityParameter) :
  (forall k fv, In (k, fv) item -> good k) ->
  errOf (eachField callback1 idx item) = errOf (eachField callback2 idx item).
Proof.
  induction item as [|[k fv] item IH]; intros Hg; [reflexivity|].
  cbn [eachField]. destruct (fieldQueryOf fv) as [v op].
  assert (Hk : good k) by (apply (Hg k fv); now left).
  pose proof (alike v op idx Hk) as Ha.
  assert (Hrest : errOf (eachField callback1 idx item)
                  = errOf (eachField callback2 idx item)).
  { apply IH. intros k' fv' H. apply (Hg k' fv'). now right. }
  destruct (callback1 v k op idx), (callback2 v k op idx); cbn in Ha; try discriminate;
    cbn [bind]; [|exact Ha].
  destruct (eachField callback1 idx item), (eachField callback2 idx item);
    cbn in Hrest; try discriminate; cbn [bind errOf]; [reflexivity | exact Hrest].
Qed.

Lemma eachItem_raise_alike (idx : nat) (items : list EntityParameter) :
  (forall item k fv, In item items -> In (k, fv) item -> good k) ->
  errOf (eachItem callback1 idx items) = errOf (eachItem callback2 idx items).
Proof.
  revert idx. induction items as [|item items IH]; intros idx Hg; [reflexivity|].
  cbn [eachItem].
  assert (Hhere : errOf (eachField callback1 idx item)
                  = errOf (eachField callback2 idx item)).
  { apply eachField_raise_alike. intros k fv H. apply (Hg item k fv); [now left | exact H]. }
  assert (Hrest : errOf (eachItem callback1 (S idx) items)
                  = errOf (eachItem callback2 (S idx) items)).
  { apply IH. intros it k fv H1 H2. apply (Hg it k fv); [now right | exact H2]. }
  destruct (eachField callback1 idx item), (eachField callback2 idx item);
    cbn in Hhere; try discriminate; cbn [bind]; [|exact Hhere].
  destruct (eachItem callback1 (S idx) items), (eachItem callback2 (S idx) items);
    cbn in Hrest; try discriminate; cbn [bind errOf]; [reflexivity | exact Hrest].
Qed.
End RaiseAlike.

(** X12.  When the whitelist rejects no column the traversal visits (the
    fields of an item, or the indices below [length] of an item with a
    [length] column that holds a length), the predicate compiler and the
    parameter binder raise the same error on the same input, and one
    returns exactly when the other does: no statement is built whose
    parameters could not be bound, and conversely. *)
Theorem compiler_and_binder_fail_together :
  forall tableName action options kvOptions eps,
    (forall item k fv, In item (ensureArray eps) -> In (k, fv) (visitedFields item) ->
                       unknownToList (columnsList options) k = false) ->
    (forall e, toGroupParametersSql tableName action eps options = Err e
               <-> toGroupParametersKeyValue tableName action eps kvOptions = Err e)
    /\ (isOk (toGroupParametersSql tableName action eps options)
        = isOk (toGroupParametersKeyValue tableName action eps kvOptions)).
Proof.
  intros tableName action options kvOptions eps Hk.
  assert (H : errOf (toGroupParametersSql tableName action eps options)
              = errOf (toGroupParametersKeyValue tableName action eps kvOptions)).
  { unfold toGroupParametersSql, toGroupParametersKeyValue.
    rewrite !mapEntityItems_visited.
    assert (Hv : forall item k fv, In item (map visitedFields (ensureArray eps)) ->
                   In (k, fv) item -> unknownToList (columnsList options) k = false).
    { intros item k fv Hitem Hin. apply in_map_iff in Hitem.
      destruct Hitem as (orig & <- & Horig). eapply Hk; eauto. }
    rewrite <- (@eachItem_raise_alike _ _ _
                  (sqlFragment tableName action options)
                  (keyValues tableName action kvOptions)
                  (fun k => unknownToList (columnsList options) k = false)
                  (fun v k op idx Hg => @callbacks_raise_alike tableName action options kvOptions
                                          v k op idx Hg)
                  0 (map visitedFields (ensureArray eps)) Hv).
    destruct (eachItem (sqlFragment tableName action options) 0
                       (map visitedFields (ensureArray eps)));
      reflexivity. }
  destruct (toGroupParametersSql tableName action eps options),
           (toGroupParametersKeyValue tableName action eps kvOptions);
    cbn in H; try discriminate; split; try reflexivity.
  - intros e; split; discriminate.
  - injection H as ->. intros e'; split; intros H; injection H as ->; reflexivity.
Qed.

Lemma compiler_and_binder_fail_together_witness :
  toGroupParametersSql "t" MFind (EPMany threeBetweenItems) noSqlOptions
  = Err (invalidBetween "t" MFind)
  <-> toGroupParametersKeyValue "t" MFind (EPMany threeBetweenItems) noKvOptions
      = Err (invalidBetween "t" MFind).
Proof.
  refine (proj1 (@compiler_and_binder_fail_together "t" MFind noSqlOptions noKvOptions
                   (EPMany threeBetweenItems) _) (invalidBetween "t" MFind)).
  reflexivity.
Defined.

(* ------------------------------------------------------------------ *)
(** ** IN lists mean membership whatever the chunk size *)

(** X13.  For a non-empty array none of whose values is null or undefined,
    on a column the whitelist does not reject, under IN, NOT IN or a
    comparison other than [!=], with any chunk size of at least 1, the
    fragment and the bindings select, among the rows whose column is not
    NULL, exactly the rows whose value is in the array (not in the array,
    under NOT IN): splitting the list into chunks does not change the
    rows. *)
Theorem chunk_size_does_not_change_the_rows :
  forall tableName action keyStr operator idx vs size row esc cols unknown mode kvEsc,
    unknownToList cols keyStr = false ->
    (1 <= size)%Z -> vs <> [] ->
    isListOperator operator = true -> operator <> OpNe ->
    isNil (row keyStr) = false -> noneNil vs = true ->
    exists pred kvs,
      sqlFragment tableName action (mkSqlOptions esc cols unknown (Some size))
                  (Many vs) keyStr operator idx
      = Ok (Single (idx, render pred))
      /\ keyValues tableName action (mkKvOptions (Some size) mode kvEsc)
                   (Many vs) keyStr operator idx
         = Ok (Flat kvs)
      /\ map (fun kv => value (snd kv)) kvs = vs
      /\ selects (paramsRecord kvs) row pred
         = match operator with
           | OpNotIn => negb (member (row keyStr) vs)
           | _ => member (row keyStr) vs
           end.
Proof.
  intros tableName action keyStr operator idx vs size row esc cols unknown mode kvEsc
         Hk Hsize Hvs Hop Hne Hrow Hnn.
  exists (chunksPred keyStr idx operator (chunk vs size)),
         (chunkBindings keyStr idx (chunk vs size)).
  split; [exact (@sqlFragment_chunks tableName action (mkSqlOptions esc cols unknown (Some size))
                   vs keyStr operator idx Hk Hvs Hop)|].
  split; [exact (@keyValues_chunks tableName action (mkKvOptions (Some size) mode kvEsc)
                   vs keyStr operator idx Hvs Hop)|].
  split; [rewrite chunkBindings_values; now apply chunk_concat|].
  rewrite paramsRecord_NoDup by apply chunkBindings_names_NoDup.
  rewrite chunked_list_selects by assumption.
  destruct operator; try reflexivity; try discriminate. congruence.
Qed.

Lemma chunk_size_does_not_change_the_rows_witness :
  exists pred kvs,
    sqlFragment "t" MFind (mkSqlOptions None None None (Some 2%Z))
                (Many [PNum 1; PNum 2; PNum 3]) "x" OpNotIn 0
    = Ok (Single (0, render pred))
    /\ keyValues "t" MFind (mkKvOptions (Some 2%Z) None None)
                 (Many [PNum 1; PNum 2; PNum 3]) "x" OpNotIn 0
       = Ok (Flat kvs)
    /\ map (fun kv => value (snd kv)) kvs = [PNum 1; PNum 2; PNum 3]
    /\ selects (paramsRecord kvs) (fun _ => PNum 3) pred
       = negb (member (PNum 3) [PNum 1; PNum 2; PNum 3]).
Proof.
  apply (@chunk_size_does_not_change_the_rows "t" MFind "x" OpNotIn 0
           [PNum 1; PNum 2; PNum 3] 2%Z (fun _ => PNum 3) None None None None None);
    try reflexivity; discriminate.
Defined.

(* ------------------------------------------------------------------ *)
(** ** LIKE values *)

Lemma replaceAll_char_step (c x : ascii) (rep s : string) :
  replaceAll (String x s) (String c "") rep
  = if Ascii.eqb x c then rep ++ replaceAll s (String c "") rep
    else String x (replaceAll s (String c "") rep).
Proof.
  unfold replaceAll. cbn [replaceAllFrom String.prefix String.length Nat.sub].
  destruct (Ascii.eqb_spec x c) as [->|Hne].
  - destruct (ascii_dec c c) as [_|N]; [|congruence]. now destruct s.
  - destruct (ascii_dec c x) as [E|_]; [congruence | reflexivity].
Qed.

Lemma replaceAll_char_nil (c : ascii) (rep : string) :
  replaceAll "" (String c "") rep = "".
Proof. reflexivity. Qed.

Lemma replaceAll_char_app (c : ascii) (rep a b : string) :
  replaceAll (a ++ b) (String c "") rep
  = replaceAll a (String c "") rep ++ replaceAll b (String c "") rep.
Proof.
  induction a as [|x a IH]; [reflexivity|].
  cbn [append]. rewrite !replaceAll_char_step, IH.
  destruct (Ascii.eqb x c); [now rewrite append_assoc | reflexivity].
Qed.

Lemma escape_in_three_passes (e : ascii) (s : string) :
  e <> "%"%char -> e <> "_"%char ->
  replaceAll (replaceAll (replaceAll s (String e "") (String e (String e "")))
                         "%" (String e "%"))
             "_" (String e "_")
  = escapeLike e s.
Proof.
  intros H1 H2.
  assert (Ep : Ascii.eqb e "%" = false) by now apply Ascii.eqb_neq.
  assert (Eu : Ascii.eqb e "_" = false) by now apply Ascii.eqb_neq.
  induction s as [|x s IH]; [reflexivity|].
  cbn [escapeLike]. rewrite replaceAll_char_step.
  destruct (Ascii.eqb_spec x e) as [->|Hxe].
  - cbn [orb append].
    rewrite !replaceAll_char_step, Ep. rewrite !replaceAll_char_step, Eu.
    now rewrite IH.
  - cbn [orb]. rewrite replaceAll_char_step.
    destruct (Ascii.eqb_spec x "%") as [->|Hxp].
    + cbn [orb append]. rewrite !replaceAll_char_step, Eu.
      change (Ascii.eqb "%" "_") with false. cbv iota. now rewrite IH.
    + cbn [orb]. rewrite replaceAll_char_step.
      destruct (Ascii.eqb_spec x "_") as [->|Hxu].
      * cbn [append]. now rewrite IH.
      * now rewrite IH.
Qed.

Lemma unescape_escape (e : ascii) (s : string) : unescapeLike e (escapeLike e s) = s.
Proof.
  induction s as [|x s IH]; [reflexivity|]. cbn [escapeLike].
  destruct (Ascii.eqb x e || Ascii.eqb x "%" || Ascii.eqb x "_") eqn:E.
  - cbn [unescapeLike]. rewrite Ascii.eqb_refl. now rewrite IH.
  - apply orb_false_iff in E. destruct E as [E _]. apply orb_false_iff in E.
    destruct E as [E _]. cbn [unescapeLike]. rewrite E. now rewrite IH.
Qed.

Lemma escape_percentsEscaped (e : ascii) (s : string) : percentsEscaped e (escapeLike e s) = true.
Proof.
  induction s as [|x s IH]; [reflexivity|]. cbn [escapeLike].
  destruct (Ascii.eqb x e || Ascii.eqb x "%" || Ascii.eqb x "_") eqn:E.
  - cbn [percentsEscaped]. rewrite Ascii.eqb_refl. exact IH.
  - cbn [percentsEscaped]. pose proof E as E'.
    apply orb_false_iff in E. destruct E as [E E3]. apply orb_false_iff in E.
    destruct E as [E1 E2]. rewrite E1, E2, E3, IH. reflexivity.
Qed.

Lemma escapeLike_bracket (e : ascii) (a b : string) :
  e <> "["%char ->
  escapeLike e (a ++ String "[" b) = escapeLike e a ++ String "[" (escapeLike e b).
Proof.
  intros He. induction a as [|x a IH].
  - cbn [append escapeLike]. apply Ascii.eqb_neq in He. rewrite Ascii.eqb_sym in He.
    now rewrite He.
  - cbn [append escapeLike]. rewrite IH.
    now destruct (Ascii.eqb x e || Ascii.eqb x "%" || Ascii.eqb x "_").
Qed.

(** X14.  With an escape character other than [%] and [_] (and other than
    [$], whose patterns in a replacement string are outside the model of
    [replaceAll]), the three successive replacements of [applyLikeValue]
    amount to one pass that puts the escape character before each
    occurrence of itself, of [%] and of [_] in the value: every [%] and [_]
    of the value is escaped, reading the escapes back gives the value, and
    the mode adds its wildcards around the escaped text only.  The bracket
    that opens a character class in T-SQL is not escaped: it is left as it
    is. *)
Theorem like_value_is_escaped_in_one_pass :
  forall raw likeMode e,
    e <> "%"%char -> e <> "_"%char -> e <> "$"%char ->
    let v := primToString raw in
    applyLikeValue raw likeMode (Some (String e "")) = likeWrap likeMode (escapeLike e v)
    /\ unescapeLike e (escapeLike e v) = v
    /\ percentsEscaped e (escapeLike e v) = true
    /\ (e <> "["%char ->
        forall a b, v = a ++ String "[" b ->
                    escapeLike e v = escapeLike e a ++ String "[" (escapeLike e b)).
Proof.
  intros raw likeMode e H1 H2 _ v. split; [|split; [|split]].
  - unfold applyLikeValue. cbn [truthyStr]. fold v. cbn [append].
    now rewrite escape_in_three_passes.
  - apply unescape_escape.
  - apply escape_percentsEscaped.
  - intros He a b ->. now apply escapeLike_bracket.
Qed.

Lemma like_value_is_escaped_in_one_pass_witness :
  applyLikeValue (PStr "50%_a\b") LikeContains (Some "\") = "%50\%\_a\\b%"
  /\ applyLikeValue (PStr "[a-c]%") LikeRaw (Some "\") = "[a-c]\%".
Proof.
  split.
  - refine (proj1 (@like_value_is_escaped_in_one_pass (PStr "50%_a\b") LikeContains "\"%char
                     _ _ _)); discriminate.
  - refine (proj1 (@like_value_is_escaped_in_one_pass (PStr "[a-c]%") LikeRaw "\"%char
                     _ _ _)); discriminate.
Defined.

(* ------------------------------------------------------------------ *)
(** ** [validateField] *)

Lemma validateFrom_spec (failures : EntityParameter -> list string) (items : list EntityParameter) :
  forall index validated errorMessages,
    validateFrom failures index items validated errorMessages
    = ((validated ++ filter (fun item => Nat.eqb (length (failures item)) 0) items)%list,
       (errorMessages
        ++ concat (mapiFrom index (fun item i => map (pair i) (failures item)) items))%list).
Proof.
  induction items as [|item items IH]; intros index validated errorMessages.
  - cbn. now rewrite !app_nil_r.
  - cbn [validateFrom filter mapiFrom concat].
    destruct (failures item) as [|m ms]; cbn [length Nat.eqb map app]; rewrite IH.
    + now rewrite <- app_assoc.
    + now rewrite <- app_assoc.
Qed.

Lemma no_failures_all_pass (failures : EntityParameter -> list string)
    (items : list EntityParameter) (index : nat) :
  concat (mapiFrom index (fun item i => map (pair i) (failures item)) items) = [] ->
  filter (fun item => Nat.eqb (length (failures item)) 0) items = items.
Proof.
  revert index. induction items as [|item items IH]; intros index H; [reflexivity|].
  cbn [mapiFrom concat] in H. apply app_eq_nil in H. destruct H as [H1 H2].
  cbn [filter]. destruct (failures item); [|discriminate].
  cbn [length Nat.eqb]. now rewrite (IH _ H2).
Qed.

(** X15.  [validateField] is all or nothing: when no [safeParse] result of
    any item fails it returns the items as they are, all of them and in
    order; otherwise it raises one error that lists every failure, in item
    order, under the index of its item. *)
Theorem validation_is_all_or_nothing :
  forall className failures data,
    let errors := concat (mapi (fun item index => map (pair index) (failures item))
                               (ensureArray data)) in
    validateField className failures data
    = match errors with
      | [] => Ok (ensureArray data)
      | _ :: _ => Err (validateFieldError className errors)
      end.
Proof.
  intros className failures data errors. unfold validateField.
  rewrite validateFrom_spec. cbn [app]. fold (mapi (fun item i => map (pair i) (failures item))
                                                   (ensureArray data)).
  fold errors. destruct errors as [|e rest] eqn:E.
  - cbn [length Nat.ltb Nat.leb]. unfold errors, mapi in E.
    now rewrite (no_failures_all_pass _ _ _ E).
  - reflexivity.
Qed.

(* ------------------------------------------------------------------ *)
(** ** [find] without an effective filter *)

Lemma dropNilFields_all_nil (item : EntityParameter) :
  (forall k fv, In (k, fv) item -> isNilValue fv = true) -> dropNilFields item = [].
Proof.
  unfold dropNilFields. induction item as [|[k fv] item IH]; intros H; [reflexivity|].
  cbn [filter snd]. rewrite (H k fv) by now left. cbn [negb].
  apply IH. intros k' fv' Hin. apply (H k' fv'). now right.
Qed.

Lemma clean_all_nil (data : EntityParameters) (columnFiltered : ColumnFilter) :
  (forall item k fv, In item (ensureArray data) -> In (k, fv) item -> isNilValue fv = true) ->
  cleanParameters data columnFiltered = [].
Proof.
  intros H. unfold cleanParameters.
  assert (E : filter notEmpty (map dropNilFields (ensureArray data)) = []).
  { induction (ensureArray data) as [|item items IH]; [reflexivity|].
    cbn [map filter]. rewrite dropNilFields_all_nil.
    - cbn. apply IH. intros it k fv Hin. apply H. now right.
    - intros k fv. apply H. now left. }
  rewrite E. now destruct (truthyFilter columnFiltered).
Qed.

Lemma validation_clean_nil className failures :
  validateField className failures (EPMany []) = Ok [].
Proof. reflexivity. Qed.

(** X16.  Null and undefined filters are no filters: when every field of
    the argument of [find] is null or undefined (or there is no field at
    all), [find] runs the statement of [findAll] with the same options, which
    has no WHERE clause and no parameter, whatever the schema is. *)
Theorem find_with_null_filters_is_findAll :
  forall className tableName shapeColumns failures hasSqlType data options,
    (forall item k fv, In item (ensureArray data) -> In (k, fv) item ->
                       isNilValue fv = true) ->
    find className tableName shapeColumns failures hasSqlType data options
    = findAll tableName shapeColumns options
    /\ (forall q, selectByColumnsSql tableName shapeColumns (EPMany [])
                                     (selectOptionsOf options) = Ok q ->
                  params q = []
                  /\ forall orderBySql,
                       buildOrderBySql tableName shapeColumns
                                       (selectOrderOptions (selectOptionsOf options))
                       = Ok orderBySql ->
                       sql q = nl ++ "    SELECT * FROM [" ++ tableName ++ "]" ++ nl ++ "    "
                               ++ orderBySql ++ nl ++ "    "
                               ++ selectPaging (selectOptionsOf options) ++ ";" ++ nl ++ "  ").
Proof.
  intros className tableName shapeColumns failures hasSqlType data options H. split.
  - unfold find, before, runBefore, defaultBeforeHook.
    rewrite (clean_all_nil data CFNil H). cbn [length Nat.eqb andb].
    rewrite validation_clean_nil. reflexivity.
  - intros q Hq. unfold selectByColumnsSql in Hq. cbn [sizeOf length Nat.eqb] in Hq.
    apply bind_ok_inv in Hq. destruct Hq as (o & Ho & Hq). injection Hq as <-.
    split; [reflexivity|]. intros orderBySql Ho'.
    unfold selectOrderOptions in Ho'. rewrite Ho' in Ho. injection Ho as <-.
    cbn [sql]. unfold selectPaging.
    repeat (rewrite ?append_assoc; cbn [append]). reflexivity.
Qed.

Lemma find_with_null_filters_is_findAll_witness :
  find "UsersDao" "users" ["id"; "name"; "age"] ageFailures allTyped nullFilters None
  = (Ok tt, [(nl ++ "    SELECT * FROM [users]" ++ nl ++ "    " ++ nl ++ "    ;" ++ nl ++ "  ", [])]).
Proof.
  refine (eq_trans (proj1 (@find_with_null_filters_is_findAll
                             "UsersDao" "users" ["id"; "name"; "age"] ageFailures allTyped
                             nullFilters None _)) _).
  - intros item k fv [<-|[]] [E|[E|[]]]; injection E as <- <-; reflexivity.
  - reflexivity.
Defined.

(* ------------------------------------------------------------------ *)
(** ** [insert] through the DAO *)

Lemma validateField_pass className failures (data : EntityParameters) :
  (forall item, In item (ensureArray data) -> failures item = []) ->
  validateField className failures data = Ok (ensureArray data).
Proof.
  intros H. unfold validateField. rewrite validateFrom_spec. cbn [app].
  assert (E : forall index,
             concat (mapiFrom index (fun item i => map (pair i) (failures item))
                              (ensureArray data)) = []).
  { induction (ensureArray data) as [|item items IH]; intros index; [reflexivity|].
    cbn [mapiFrom concat]. rewrite (H item) by now left.
    cbn [map app]. apply IH. intros it Hit. apply H. now right. }
  rewrite (E 0). cbn [length Nat.ltb Nat.leb].
  now rewrite (no_failures_all_pass _ _ _ (E 0)).
Qed.

Lemma bindParams_typed className (hasSqlType : string -> bool) action
    (ps : list (string * ValueKey)) :
  (forall p, In p ps -> hasSqlType (key (snd p)) = true) ->
  bindParams className hasSqlType ps action = Ok tt.
Proof.
  induction ps as [|[n v] ps IH]; intros H; [reflexivity|].
  cbn [bindParams]. pose proof (H (n, v) (or_introl eq_refl)) as Hv. cbn [snd] in Hv.
  rewrite Hv. apply IH. intros p Hp. apply H. now right.
Qed.

Lemma dropNilFields_plain (item : EntityParameter) :
  singleValued item = true -> plainItem (dropNilFields item) = true.
Proof.
  unfold singleValued, plainItem, dropNilFields. rewrite !forallb_forall.
  intros H kv Hin. apply filter_In in Hin. destruct Hin as [Hin Hnn].
  specialize (H kv Hin). unfold isPlainField. destruct (snd kv) as [[v|vs]|]; try discriminate.
  exact Hnn.
Qed.

Lemma in_cleanParameters (data : EntityParameters) (columnFiltered : ColumnFilter)
    (item : EntityParameter) :
  In item (cleanParameters data columnFiltered) ->
  exists original, In original (ensureArray data) /\ item = dropNilFields original.
Proof.
  unfold cleanParameters. intros H.
  assert (H' : In item (filter notEmpty (map dropNilFields (ensureArray data)))).
  { destruct (truthyFilter columnFiltered); [now apply filter_In in H | exact H]. }
  apply filter_In in H'. destruct H' as [H' _]. apply in_map_iff in H'.
  destruct H' as (o & <- & Ho). now exists o.
Qed.

Lemma recordGet_absent {V : Type} (k : string) (rec : list (string * V)) :
  ~ In k (map fst rec) -> recordGet k rec = None.
Proof.
  induction rec as [|[k' v] rec IH]; [reflexivity|]. cbn [map fst In recordGet].
  intros H. destruct (String.eqb_spec k k') as [->|Hk]; [tauto|]. apply IH. tauto.
Qed.

Lemma recordGet_filter (f : string * FieldValue -> bool) (item : EntityParameter) (k : string) :
  NoDup (keys item) ->
  recordGet k (filter f item)
  = match recordGet k item with
    | Some v => if f (k, v) then Some v else None
    | None => None
    end.
Proof.
  unfold keys. induction item as [|[k' v'] item IH]; [reflexivity|].
  cbn [map fst]. intros Hnd. inversion Hnd as [|? ? Hk Hrest]; subst.
  cbn [filter recordGet]. destruct (String.eqb_spec k k') as [->|Hne].
  - destruct (f (k', v')) eqn:Ef.
    + cbn [recordGet]. now rewrite String.eqb_refl.
    + rewrite (IH Hrest). now rewrite (recordGet_absent _ _ Hk).
  - destruct (f (k', v')).
    + cbn [recordGet]. apply String.eqb_neq in Hne. rewrite Hne. now apply IH.
    + now apply IH.
Qed.

(** Dropping the null and undefined fields of an object does not make it
    array-like. *)
Lemma dropNilFields_notArrayLike (item : EntityParameter) :
  NoDup (keys item) -> notArrayLike item = true -> notArrayLike (dropNilFields item) = true.
Proof.
  intros Hnd. unfold notArrayLike, arrayLikeLength, dropNilFields.
  rewrite recordGet_filter by exact Hnd.
  destruct (recordGet "length" item) as [fv|]; [|reflexivity].
  cbn [snd]. now destruct (negb (isNilValue fv)).
Qed.

(** X17.  [insert] on items that are read field by field (no [length] column
    that holds a length) and whose fields are single plain values with
    pairwise distinct columns, when the schema accepts the cleaned items and
    types their columns and some field is neither null nor undefined: it
    runs exactly one batch, whose statements never list a field that was
    null or undefined nor the column [id], and in which every placeholder
    [@col_i] is bound to the value, not null, that row [i] gives the
    column. *)
Theorem dao_insert_writes_the_fields_that_have_values :
  forall className tableName failures hasSqlType data,
    let cleaned := cleanParameters data CFNil in
    let rows := entityParametersFilter (EPMany cleaned) defaultColumnFiltered FOut in
    let groups := shapeGroups (columnListsOf rows) in
    (forall item, In item (ensureArray data) ->
                  singleValued item = true /\ NoDup (keys item) /\ notArrayLike item = true) ->
    cleaned <> [] ->
    (forall item, In item cleaned -> failures item = []) ->
    (forall item k, In item cleaned -> In k (keys item) -> hasSqlType k = true) ->
    exists q,
      insert className tableName failures hasSqlType data = (Ok tt, [(sql q, params q)])
      /\ sql q = join (map (insertStatement tableName) groups) nl
      /\ (forall p, In p (params q) -> key (snd p) <> "id")
      /\ (forall columns i col,
            inGroup groups columns i -> In col columns ->
            col <> "id"
            /\ exists item v,
                 nth_error rows i = Some item
                 /\ In (col, Raw (One v)) item
                 /\ isNil v = false
                 /\ recordGet (col ++ "_" ++ natToString i) (params q)
                    = Some (mkValueKey v col)).
Proof.
  intros className tableName failures hasSqlType data cleaned rows groups
         Hdata Hne Hpass Htyped.
  assert (Hcleaned : forall item, In item cleaned ->
                                  plainItem item = true /\ NoDup (keys item)
                                  /\ notArrayLike item = true).
  { intros item Hin. apply in_cleanParameters in Hin. destruct Hin as (o & Ho & ->).
    destruct (Hdata o Ho) as (Hs & Hnd & Hna). split; [|split].
    - now apply dropNilFields_plain.
    - now apply NoDup_keys_filter.
    - now apply dropNilFields_notArrayLike. }
  assert (Hrows : forall item, In item rows ->
                               plainItem item = true /\ NoDup (keys item)
                               /\ notArrayLike item = true
                               /\ exists c, In c cleaned
                                            /\ forall k, In k (keys item) ->
                                                         k <> "id" /\ In k (keys c)).
  { intros item Hin. apply in_entityParametersFilter_out in Hin.
    destruct Hin as (c & Hc & ->). cbn [ensureArray] in Hc.
    destruct (Hcleaned c Hc) as (Hp & Hnd & Hna). split; [now apply omit_plain|].
    split; [now apply NoDup_keys_filter|]. split; [now apply omit_notArrayLike|].
    exists c. split; [exact Hc|].
    intros k Hk. apply omit_keys in Hk. destruct Hk as [Hk1 Hk2]. split; [|exact Hk2].
    intros ->. discriminate. }
  destruct (plain_items_bound tableName MInsert noKvOptions rows
              (fun item Hin => conj (proj1 (Hrows item Hin))
                                 (conj (proj1 (proj2 (Hrows item Hin)))
                                       (proj1 (proj2 (proj2 (Hrows item Hin)))))))
    as (ps & Hps & Hbound).
  assert (Hkeys : forall p, In p ps ->
                            key (snd p) <> "id" /\ hasSqlType (key (snd p)) = true).
  { intros p Hp. destruct (getParams_keys _ _ _ _ Hps p Hp) as (item & Hitem & Hk).
    cbn [ensureArray] in Hitem.
    destruct (Hrows item Hitem) as (_ & _ & Hna & c & Hc & Hsub).
    rewrite visitedFields_plain in Hk by now apply notArrayLike_spec.
    destruct (Hsub _ Hk) as [H1 H2]. split; [exact H1|]. exact (Htyped c _ Hc H2). }
  exists (mkQuery (join (map (insertStatement tableName) groups) nl) ps).
  cbn [sql params]. split; [|split; [reflexivity|split]].
  - unfold insert, before, runBefore, defaultBeforeHook. fold cleaned.
    destruct cleaned as [|c0 cs] eqn:Ec; [congruence|]. cbn [length Nat.eqb andb].
    rewrite validateField_pass by exact Hpass. cbn [ensureArray].
    rewrite insertSql_spec. fold rows. rewrite Hps. cbn [raise bind]. fold groups.
    cbn [params sql]. rewrite bindParams_typed; [reflexivity|].
    intros p Hp. exact (proj2 (Hkeys p Hp)).
  - intros p Hp. exact (proj1 (Hkeys p Hp)).
  - intros columns i col Hg Hcol.
    destruct (Hbound columns i col Hg Hcol) as (item & v & H1 & H2 & H3 & H4).
    split.
    + apply nth_error_In in H1. destruct (Hrows item H1) as (_ & _ & _ & c & _ & Hsub).
      apply (Hsub col). change col with (fst (col, Raw (One v))). now apply in_map.
    + exists item, v. auto.
Qed.

Lemma dao_insert_writes_the_fields_that_have_values_witness :
  exists q,
    insert "UsersDao" "users" ageFailures allTyped withNulls = (Ok tt, [(sql q, params q)])
    /\ sql q = "INSERT INTO [users] ([name]) VALUES (@name_0);" ++ nl
               ++ "INSERT INTO [users] ([age],  [name]) VALUES (@age_1, @name_1);"
    /\ (forall p, In p (params q) -> key (snd p) <> "id").
Proof.
  destruct (@dao_insert_writes_the_fields_that_have_values
              "UsersDao" "users" ageFailures allTyped withNulls) as (q & H1 & H2 & H3 & _).
  - intros item [<-|[<-|[<-|[]]]]; (split; [reflexivity|]); (split; [|reflexivity]);
      repeat constructor; simpl; intuition discriminate.
  - discriminate.
  - intros item [<-|[<-|[]]]; reflexivity.
  - reflexivity.
  - exists q. split; [exact H1|]. split; [exact H2 | exact H3].
Defined.

(* ------------------------------------------------------------------ *)
(** ** [fetchWithRelations]: the values asked for and the rows attached *)

Lemma setAdd_spec (s : list prim) (v : prim) :
  NoDup s -> NoDup (setAdd s v) /\ forall x, In x (setAdd s v) <-> In x s \/ x = v.
Proof.
  intros H. unfold setAdd. destruct (member v s) eqn:E.
  - split; [exact H|]. intros x. split; [now left|].
    intros [Hx| ->]; [exact Hx | now apply member_In].
  - split.
    + apply NoDup_app_intro; [exact H | repeat constructor; intros [] |].
      intros x Hx [<-|[]]. apply member_In in Hx. congruence.
    + intros x. rewrite in_app_iff. cbn. intuition.
Qed.

Lemma addColumnValues_spec (column : string) (mainRecords : list Row) (s : list prim) :
  NoDup s ->
  NoDup (addColumnValues column mainRecords s)
  /\ forall x, In x (addColumnValues column mainRecords s)
               <-> In x s \/ (isNil x = false
                              /\ exists rec, In rec mainRecords /\ getField rec column = x).
Proof.
  unfold addColumnValues. revert s.
  induction mainRecords as [|rec recs IH]; intros s H.
  - split; [exact H|]. intros x. split; [now left|]. intros [Hx|(_ & r & [] & _)]. exact Hx.
  - cbn [fold_left]. destruct (isNil (getField rec column)) eqn:En; cbn [negb].
    + destruct (IH s H) as [H1 H2]. split; [exact H1|]. intros x. rewrite H2. split.
      * intros [Hx|(Hn & r & Hr & E)]; [now left|]. right. split; [exact Hn|].
        exists r. split; [now right | exact E].
      * intros [Hx|(Hn & r & [<-|Hr] & E)]; [now left | congruence |].
        right. split; [exact Hn|]. now exists r.
    + destruct (setAdd_spec (getField rec column) H) as [Hs1 Hs2].
      destruct (IH _ Hs1) as [H1 H2]. split; [exact H1|]. intros x. rewrite H2, Hs2. split.
      * intros [[Hx| ->]|(Hn & r & Hr & E)].
        -- now left.
        -- right. split; [exact En|]. exists rec. split; [now left | reflexivity].
        -- right. split; [exact Hn|]. exists r. split; [now right | exact E].
      * intros [Hx|(Hn & r & [<-|Hr] & E)].
        -- left. now left.
        -- left. right. now symmetry.
        -- right. split; [exact Hn|]. now exists r.
Qed.

(** What the sets of [tableToValues] hold after some foreign keys. *)
Lemma relationValues_from (mainRecords : list Row) (fks : list ForeignKey) :
  forall (done : list ForeignKey) (acc : list (string * list prim)),
    (forall t, NoDup (orDefault (recordGet t acc) [])) ->
    (forall t x, In x (orDefault (recordGet t acc) [])
                 <-> isNil x = false
                     /\ exists fk, In fk done /\ fkTable fk = t
                                   /\ exists rec, In rec mainRecords
                                                  /\ getField rec (fkColumn fk) = x) ->
    let r := fold_left (fun tableToValues fk =>
                          let setForTable :=
                            addColumnValues (fkColumn fk) mainRecords
                              (orDefault (recordGet (fkTable fk) tableToValues) []) in
                          if negb (Nat.eqb (length setForTable) 0)
                          then recordSet (fkTable fk) setForTable tableToValues
                          else tableToValues)
                       fks acc in
    (forall t, NoDup (orDefault (recordGet t r) []))
    /\ (forall t x, In x (orDefault (recordGet t r) [])
                    <-> isNil x = false
                        /\ exists fk, In fk (done ++ fks)%list /\ fkTable fk = t
                                      /\ exists rec, In rec mainRecords
                                                     /\ getField rec (fkColumn fk) = x).
Proof.
  induction fks as [|fk fks IH]; intros done acc Hnd Hin.
  - cbn [fold_left]. rewrite app_nil_r. split; [exact Hnd | exact Hin].
  - cbn [fold_left].
    replace (done ++ fk :: fks)%list with ((done ++ [fk]) ++ fks)%list
      by now rewrite <- app_assoc.
    destruct (addColumnValues_spec (fkColumn fk) mainRecords (Hnd (fkTable fk))) as [Hs1 Hs2].
    set (s := addColumnValues (fkColumn fk) mainRecords
                (orDefault (recordGet (fkTable fk) acc) [])) in *.
    assert (Hget : forall t,
               orDefault (recordGet t (if negb (Nat.eqb (length s) 0)
                                       then recordSet (fkTable fk) s acc else acc)) []
               = if String.eqb t (fkTable fk) then s
                 else orDefault (recordGet t acc) []).
    { intros t. destruct (String.eqb_spec t (fkTable fk)) as [->|Hne].
      - destruct s as [|x s'] eqn:Es; cbn [length Nat.eqb negb].
        + destruct (orDefault (recordGet (fkTable fk) acc) []) as [|y l] eqn:Eo;
            [reflexivity|].
          exfalso. assert (Hy : In y []) by (apply Hs2; left; now left). exact Hy.
        + now rewrite recordGet_recordSet_same.
      - destruct (negb (Nat.eqb (length s) 0)); [|reflexivity].
        now rewrite recordGet_recordSet_other. }
    apply IH.
    + intros t. rewrite Hget. destruct (String.eqb t (fkTable fk)); [exact Hs1 | apply Hnd].
    + intros t x. rewrite Hget. destruct (String.eqb_spec t (fkTable fk)) as [->|Hne].
      * rewrite Hs2, Hin. split.
        -- intros [(Hn & fk' & Hfk' & Et & Hrec)|(Hn & Hrec)].
           ++ split; [exact Hn|]. exists fk'. split; [apply in_or_app; now left | auto].
           ++ split; [exact Hn|]. exists fk. split; [apply in_or_app; right; now left | auto].
        -- intros (Hn & fk' & Hfk' & Et & Hrec). apply in_app_or in Hfk'.
           destruct Hfk' as [Hfk'|[<-|[]]].
           ++ left. split; [exact Hn|]. exists fk'. auto.
           ++ right. auto.
      * rewrite Hin. split.
        -- intros (Hn & fk' & Hfk' & Et & Hrec).
           split; [exact Hn|]. exists fk'. split; [apply in_or_app; now left | auto].
        -- intros (Hn & fk' & Hfk' & Et & Hrec). apply in_app_or in Hfk'.
           destruct Hfk' as [Hfk'|[<-|[]]]; [|congruence].
           split; [exact Hn|]. exists fk'. auto.
Qed.

Lemma relationValues_spec (fks : list ForeignKey) (mainRecords : list Row) :
  (forall t, NoDup (orDefault (recordGet t (relationValues fks mainRecords)) []))
  /\ (forall t x, In x (orDefault (recordGet t (relationValues fks mainRecords)) [])
                  <-> isNil x = false
                      /\ exists fk, In fk fks /\ fkTable fk = t
                                    /\ exists rec, In rec mainRecords
                                                   /\ getField rec (fkColumn fk) = x).
Proof.
  apply (relationValues_from mainRecords fks [] []).
  - intros t. constructor.
  - intros t x. cbn. split; [tauto|]. intros (_ & fk & [] & _).
Qed.

Lemma relationValues_no_empty_set (mainRecords : list Row) (table : string)
    (fks : list ForeignKey) :
  forall acc,
    recordGet table acc <> Some [] ->
    recordGet table
      (fold_left (fun tableToValues fk =>
                    let setForTable :=
                      addColumnValues (fkColumn fk) mainRecords
                        (orDefault (recordGet (fkTable fk) tableToValues) []) in
                    if negb (Nat.eqb (length setForTable) 0)
                    then recordSet (fkTable fk) setForTable tableToValues
                    else tableToValues)
                 fks acc) <> Some [].
Proof.
  induction fks as [|fk fks IH]; intros acc Hacc; [exact Hacc|].
  cbn [fold_left]. apply IH.
  destruct (addColumnValues (fkColumn fk) mainRecords
              (orDefault (recordGet (fkTable fk) acc) [])) as [|x s] eqn:Es;
    cbn [length Nat.eqb negb]; [exact Hacc|].
  destruct (String.eqb_spec table (fkTable fk)) as [->|Hne].
  - rewrite recordGet_recordSet_same. discriminate.
  - now rewrite recordGet_recordSet_other.
Qed.

(** X18.  The values [fetchWithRelations] asks a related table for are
    exactly the values, neither null nor undefined, that the main records
    hold in the foreign-key columns pointing to that table, each of them
    once; a table for which there is no such value gets no entry. *)
Theorem relation_values_are_the_distinct_foreign_keys :
  forall fks mainRecords table,
    let values := orDefault (recordGet table (relationValues fks mainRecords)) [] in
    NoDup values
    /\ (forall x, In x values
                  <-> isNil x = false
                      /\ exists fk, In fk fks /\ fkTable fk = table
                                    /\ exists rec, In rec mainRecords
                                                   /\ getField rec (fkColumn fk) = x)
    /\ recordGet table (relationValues fks mainRecords) <> Some [].
Proof.
  intros fks mainRecords table values.
  destruct (relationValues_spec fks mainRecords) as [H1 H2].
  split; [apply H1|]. split; [apply H2|].
  apply relationValues_no_empty_set. discriminate.
Qed.

Lemma attach_lookup (related : list (string * list Row)) (rec : Row) (fks : list ForeignKey) :
  forall (out : list (string * list Row)) (fk : ForeignKey),
    NoDup (map fkTable fks) -> In fk fks ->
    recordGet (fkTable fk)
      (fold_left (fun out fk => recordSet (fkTable fk) (matchedRows related rec fk) out) fks out)
    = Some (matchedRows related rec fk).
Proof.
  induction fks as [|fk0 fks IH]; intros out fk Hnd Hin; [contradiction|].
  cbn [map] in Hnd. inversion Hnd as [|? ? Hfresh Hrest]; subst.
  cbn [fold_left]. destruct Hin as [<-|Hin]; [|now apply IH].
  assert (G : forall l acc,
             ~ In (fkTable fk0) (map fkTable l) ->
             recordGet (fkTable fk0)
               (fold_left (fun out fk => recordSet (fkTable fk) (matchedRows related rec fk) out)
                          l acc)
             = recordGet (fkTable fk0) acc).
  { induction l as [|f l IHl]; intros acc Hl; [reflexivity|].
    cbn [fold_left]. rewrite IHl by (intros H; apply Hl; now right).
    apply recordGet_recordSet_other. intros E. apply Hl. left. now symmetry. }
  rewrite (G fks _ Hfresh). apply recordGet_recordSet_same.
Qed.

Lemma filter_filter_implied {A : Type} (f g : A -> bool) (l : list A) :
  (forall x, f x = true -> g x = true) -> filter f (filter g l) = filter f l.
Proof.
  intros H. induction l as [|x l IH]; [reflexivity|]. cbn [filter].
  destruct (g x) eqn:Eg; cbn [filter].
  - now rewrite IH.
  - destruct (f x) eqn:Ef; [|exact IH]. apply H in Ef. congruence.
Qed.

(** X19.  Loading relations in one batch gives each record what a lookup
    of its own would give: when the foreign keys point to pairwise distinct
    tables and the related table has answered the IN query on the collected
    values, every main record is returned once, in order, with, for each
    foreign key, exactly the rows of the related table whose key equals its
    value of the column, and with no row when that value is null or
    undefined. *)
Theorem batched_relations_match_each_record :
  forall fks mainRecords related fk table,
    NoDup (map fkTable fks) -> In fk fks ->
    recordGet (fkTable fk) related
    = Some (match recordGet (fkTable fk) (relationValues fks mainRecords) with
            | Some values => inQueryRows (fkKey fk) values table
            | None => []
            end) ->
    map fst (attachRelated fks related mainRecords) = mainRecords
    /\ forall rec rel,
         In (rec, rel) (attachRelated fks related mainRecords) ->
         recordGet (fkTable fk) rel
         = Some (if isNil (getField rec (fkColumn fk)) then []
                 else filter (fun record =>
                                primEqb (getField record (fkKey fk))
                                        (getField rec (fkColumn fk)))
                             table).
Proof.
  intros fks mainRecords related fk table Hnd Hfk Hrel. split.
  - unfold attachRelated. rewrite map_map. cbn [fst]. apply map_id.
  - intros rec rel Hin. unfold attachRelated in Hin. apply in_map_iff in Hin.
    destruct Hin as (rec' & E & Hrec). injection E as -> <-.
    rewrite (attach_lookup related rec fks [] fk Hnd Hfk). f_equal.
    unfold matchedRows. rewrite Hrel. cbn [orDefault].
    destruct (isNil (getField rec (fkColumn fk))) eqn:En; [reflexivity|].
    destruct (relationValues_spec fks mainRecords) as [_ Hvals].
    assert (Hval : In (getField rec (fkColumn fk))
                      (orDefault (recordGet (fkTable fk) (relationValues fks mainRecords)) [])).
    { apply Hvals. split; [exact En|]. exists fk. split; [exact Hfk|]. split; [reflexivity|].
      now exists rec. }
    destruct (recordGet (fkTable fk) (relationValues fks mainRecords)) as [values|];
      [|contradiction].
    cbn [orDefault] in Hval. unfold inQueryRows. apply filter_filter_implied.
    intros record Heq. apply primEqb_eq in Heq. rewrite Heq. now apply member_In.
Qed.

Lemma batched_relations_match_each_record_witness :
  let related := [("users", inQueryRows "id" [PNum 10; PNum 11] users)] in
  exists rel,
    nth_error (attachRelated [mkForeignKey "user_id" "users" "id"] related photos) 1
    = Some ([("id", PNum 2); ("user_id", PNum 11); ("album_id", PNum 5)], rel)
    /\ recordGet "users" rel = Some [[("id", PNum 11); ("name", PStr "b")]].
Proof.
  intros related. eexists. split; [reflexivity|].
  refine (proj2 (@batched_relations_match_each_record
                   [mkForeignKey "user_id" "users" "id"] photos related
                   (mkForeignKey "user_id" "users" "id") users _ _ _)
                [("id", PNum 2); ("user_id", PNum 11); ("album_id", PNum 5)] _ _).
  - repeat constructor. intros [].
  - now left.
  - reflexivity.
  - right. left. reflexivity.
Defined.

(* ------------------------------------------------------------------ *)
(** ** Blob names: [ensureExt] *)

Lemma lastIndexOf_none (c : ascii) (s : string) :
  lastIndexOf c s = None <-> ~ In c (chars s).
Proof.
  induction s as [|x s IH]; cbn [lastIndexOf chars list_ascii_of_string].
  - split; [intros _ [] | reflexivity].
  - fold (chars s). destruct (lastIndexOf c s) as [i|].
    + split; [discriminate|]. intros H. exfalso.
      destruct IH as [_ IH]. assert (Hn : ~ In c (chars s)) by (intros Hc; apply H; now right).
      specialize (IH Hn). discriminate.
    + destruct (Ascii.eqb_spec x c) as [->|Hne].
      * split; [discriminate|]. intros H. exfalso. apply H. now left.
      * split; [|reflexivity]. intros _ [E|Hc]; [congruence|].
        now apply (proj1 IH).
Qed.

Lemma lastIndexOf_app (c : ascii) (a b : string) :
  ~ In c (chars b) -> lastIndexOf c (a ++ String c b) = Some (String.length a).
Proof.
  intros Hb. induction a as [|x a IH]; cbn [append lastIndexOf String.length].
  - apply lastIndexOf_none in Hb. rewrite Hb. now rewrite Ascii.eqb_refl.
  - now rewrite IH.
Qed.

Lemma lastIndexOf_some (c : ascii) (s : string) (i : nat) :
  lastIndexOf c s = Some i ->
  exists a b, s = a ++ String c b /\ String.length a = i /\ ~ In c (chars b).
Proof.
  revert i. induction s as [|x s IH]; intros i H; [discriminate|].
  cbn [lastIndexOf] in H. destruct (lastIndexOf c s) as [j|] eqn:E.
  - injection H as <-. destruct (IH j eq_refl) as (a & b & -> & Hlen & Hb).
    exists (String x a), b. cbn [append String.length]. auto.
  - destruct (Ascii.eqb_spec x c) as [->|Hne]; [|discriminate]. injection H as <-.
    exists "", s. split; [reflexivity|]. split; [reflexivity|]. now apply lastIndexOf_none.
Qed.

Lemma substring_prefix (a b : string) : String.substring 0 (String.length a) (a ++ b) = a.
Proof.
  induction a as [|x a IH]; cbn [String.length append String.substring].
  - now destruct b.
  - now rewrite IH.
Qed.

Lemma substring_whole (s : string) : String.substring 0 (String.length s) s = s.
Proof. induction s as [|x s IH]; cbn; [reflexivity | now rewrite IH]. Qed.

Lemma substring_suffix (a b : string) :
  String.substring (String.length a) (String.length b) (a ++ b) = b.
Proof.
  induction a as [|x a IH]; cbn [String.length append String.substring].
  - apply substring_whole.
  - exact IH.
Qed.

Lemma length_append (a b : string) :
  String.length (a ++ b) = String.length a + String.length b.
Proof. induction a as [|x a IH]; cbn; [reflexivity | now rewrite IH]. Qed.

Lemma containsStr_char (c : ascii) (s : string) :
  containsStr (String c "") s = true <-> In c (chars s).
Proof.
  induction s as [|x s IH]; cbn [containsStr String.prefix chars list_ascii_of_string].
  - split; [discriminate | intros []].
  - fold (chars s). destruct (ascii_dec c x) as [->|Hne].
    + split; [now left|]. intros _. now destruct s.
    + rewrite IH. split; [now right|]. intros [E|H]; [congruence | exact H].
Qed.

(** A file name splits at its last slash and, after it, at its last dot. *)
Lemma filename_parts (filename : string) :
  exists dir clean rest,
    filename = dir ++ clean ++ rest
    /\ (dir = "" \/ exists d, dir = d ++ "/")
    /\ ~ In "/"%char (chars clean) /\ ~ In "/"%char (chars rest)
    /\ ((rest = "" /\ ~ In "."%char (chars clean))
        \/ exists old, rest = String "." old /\ ~ In "."%char (chars old)).
Proof.
  assert (Hbase : forall base, ~ In "/"%char (chars base) ->
            exists clean rest,
              base = clean ++ rest
              /\ ~ In "/"%char (chars clean) /\ ~ In "/"%char (chars rest)
              /\ ((rest = "" /\ ~ In "."%char (chars clean))
                  \/ exists old, rest = String "." old /\ ~ In "."%char (chars old))).
  { intros base Hns. destruct (lastIndexOf "." base) as [j|] eqn:E.
    - apply lastIndexOf_some in E. destruct E as (a & b & -> & _ & Hb).
      rewrite chars_append in Hns. exists a, (String "." b).
      split; [reflexivity|]. split; [intros H; apply Hns, in_or_app; now left|].
      split; [intros H; apply Hns, in_or_app; now right|]. right. now exists b.
    - apply lastIndexOf_none in E. exists base, "". rewrite append_nil_r.
      split; [reflexivity|]. split; [exact Hns|]. split; [intros []|]. now left. }
  destruct (lastIndexOf "/" filename) as [i|] eqn:E.
  - apply lastIndexOf_some in E. destruct E as (a & b & -> & _ & Hb).
    destruct (Hbase b Hb) as (clean & rest & -> & H1 & H2 & H3).
    exists (a ++ "/"), clean, rest. split; [now rewrite append_assoc|].
    split; [right; now exists a|]. auto.
  - apply lastIndexOf_none in E. destruct (Hbase filename E) as (clean & rest & -> & H1 & H2 & H3).
    exists "", clean, rest. split; [reflexivity|]. split; [now left|]. auto.
Qed.

Lemma ensureExt_of_parts (dir clean rest ext : string) :
  (dir = "" \/ exists d, dir = d ++ "/") ->
  ~ In "/"%char (chars clean) -> ~ In "/"%char (chars rest) ->
  ((rest = "" /\ ~ In "."%char (chars clean))
   \/ exists old, rest = String "." old /\ ~ In "."%char (chars old)) ->
  ensureExt (dir ++ clean ++ rest) ext = dir ++ clean ++ "." ++ ext.
Proof.
  intros Hdir Hc Hr Hrest.
  assert (Hns : ~ In "/"%char (chars (clean ++ rest))).
  { rewrite chars_append. intros H. apply in_app_or in H. tauto. }
  assert (Hclean : (if containsStr "." (clean ++ rest)
                    then slice (clean ++ rest) 0
                               (match lastIndexOf "." (clean ++ rest) with
                                | Some j => j
                                | None => String.length (clean ++ rest) - 1
                                end)
                    else clean ++ rest) = clean).
  { destruct Hrest as [[-> Hnd]|(old & -> & Hnd)].
    - rewrite append_nil_r.
      destruct (containsStr "." clean) eqn:E; [|reflexivity].
      apply containsStr_char in E. contradiction.
    - assert (E : containsStr "." (clean ++ String "." old) = true).
      { apply containsStr_char. rewrite chars_append. apply in_or_app. right. now left. }
      rewrite E, (@lastIndexOf_app _ clean _ Hnd). unfold slice. rewrite Nat.sub_0_r.
      apply substring_prefix. }
  unfold ensureExt. destruct Hdir as [->|(d & ->)].
  - cbn [append]. apply lastIndexOf_none in Hns. rewrite Hns. cbn [isSome].
    now rewrite Hclean.
  - rewrite append_assoc. cbn [append].
    rewrite (@lastIndexOf_app _ d _ Hns). cbn [isSome].
    assert (E1 : slice (d ++ String "/" (clean ++ rest)) 0 (S (String.length d))
                 = d ++ "/").
    { unfold slice. rewrite Nat.sub_0_r.
      replace (S (String.length d)) with (String.length (d ++ "/"))
        by (rewrite length_append; cbn; lia).
      replace (d ++ String "/" (clean ++ rest)) with ((d ++ "/") ++ (clean ++ rest))
        by (now rewrite append_assoc).
      apply substring_prefix. }
    assert (E2 : sliceFrom (d ++ String "/" (clean ++ rest)) (S (String.length d))
                 = clean ++ rest).
    { unfold sliceFrom.
      replace (d ++ String "/" (clean ++ rest)) with ((d ++ "/") ++ (clean ++ rest))
        by (now rewrite append_assoc).
      replace (S (String.length d)) with (String.length (d ++ "/"))
        by (rewrite length_append; cbn; lia).
      rewrite (length_append (d ++ "/")).
      replace (String.length (d ++ "/") + String.length (clean ++ rest)
               - String.length (d ++ "/"))
        with (String.length (clean ++ rest)) by lia.
      apply substring_suffix. }
    rewrite E1, E2, Hclean. now rewrite append_assoc.
Qed.

(** X20.  [ensureExt] changes the extension of the last path segment only:
    it splits the name at its last slash and, after it, at its last dot,
    keeps the directory and the stem as they are, and puts the new extension
    in place of the old one, or after the name when the last segment has no
    dot; dots in directory names are left alone. *)
Theorem ensureExt_replaces_the_last_extension :
  forall filename ext,
    exists dir clean rest,
      filename = dir ++ clean ++ rest
      /\ ensureExt filename ext = dir ++ clean ++ "." ++ ext
      /\ (dir = "" \/ exists d, dir = d ++ "/")
      /\ ~ In "/"%char (chars clean) /\ ~ In "/"%char (chars rest)
      /\ ((rest = "" /\ ~ In "."%char (chars clean))
          \/ exists old, rest = String "." old /\ ~ In "."%char (chars old)).
Proof.
  intros filename ext.
  destruct (filename_parts filename) as (dir & clean & rest & E & Hdir & Hc & Hr & Hrest).
  exists dir, clean, rest. split; [exact E|]. split; [|auto].
  rewrite E. now apply ensureExt_of_parts.
Qed.

(** X21.  For an extension without dot and slash, as the extensions of the
    image formats and [json] are, [ensureExt] is idempotent: a name that
    already went through it is returned as it is. *)
Theorem ensureExt_is_idempotent :
  forall filename ext,
    ~ In "."%char (chars ext) -> ~ In "/"%char (chars ext) ->
    ensureExt (ensureExt filename ext) ext = ensureExt filename ext.
Proof.
  intros filename ext Hd Hs.
  destruct (filename_parts filename) as (dir & clean & rest & E & Hdir & Hc & Hr & Hrest).
  rewrite E, (@ensureExt_of_parts dir clean rest ext Hdir Hc Hr Hrest).
  apply ensureExt_of_parts; [exact Hdir | exact Hc | |].
  - cbn [append chars list_ascii_of_string]. intros [H|H]; [discriminate | now apply Hs].
  - right. exists ext. split; [reflexivity | exact Hd].
Qed.

Lemma ensureExt_is_idempotent_witness :
  ensureExt (ensureExt "logs/v1.2/report.final.txt" "json") "json"
  = ensureExt "logs/v1.2/report.final.txt" "json".
Proof.
  apply (@ensureExt_is_idempotent "logs/v1.2/report.final.txt" "json");
    cbn; intuition discriminate.
Defined.

(* ------------------------------------------------------------------ *)
(** ** The [orderBy] query parameter *)

Lemma splitOn_nonempty (c : ascii) (s : string) : splitOn c s <> [].
Proof.
  destruct s as [|x s]; cbn [splitOn]; [discriminate|].
  destruct (Ascii.eqb x c); [discriminate|]. destruct (splitOn c s); discriminate.
Qed.

Lemma parseOrderPart_names_a_column (upperCase : string -> string) (p : string) :
  orderColumn (parseOrderPart upperCase p) <> None.
Proof.
  unfold parseOrderPart. pose proof (splitOn_nonempty ":" p) as H.
  destruct (splitOn ":" p) as [|col [|dir rest]]; [congruence | discriminate |].
  destruct (String.eqb dir ""); discriminate.
Qed.

(** X22.  Whatever the [orderBy] query string is, [parseOrderBy] returns
    nothing or a non-empty list whose entries all name a column, with a
    direction that is DESC or ASC; so the ORDER BY clause built from it
    raises no error other than the one for a column outside the whitelist,
    and is built exactly when every parsed column is whitelisted. *)
Theorem parsed_order_by_raises_only_unknown_column :
  forall upperCase q tableName columnsList sk tk default,
    let parsed := parseOrderBy upperCase q in
    let options := mkOrderOptions sk tk parsed default in
    match parsed with
    | None => True
    | Some entries =>
        entries <> []
        /\ Forall (fun o => orderColumn o <> None) entries
        /\ (isOk (buildOrderBySql tableName columnsList options)
            = forallb (validOrder columnsList) entries)
    end
    /\ (forall e, buildOrderBySql tableName columnsList options = Err e ->
                  e = Sql (invalidOrderByColumn tableName MFind)).
Proof.
  intros upperCase q tableName columnsList sk tk default parsed options.
  assert (Hcols : forall entries, parsed = Some entries ->
                                  entries <> []
                                  /\ Forall (fun o => orderColumn o <> None) entries).
  { unfold parsed, parseOrderBy. intros entries H.
    destruct (truthyStr q); [|discriminate].
    destruct (cleanSplit q ",") as [|p parts]; [discriminate|].
    cbn [length Nat.eqb] in H. injection H as <-. split; [discriminate|].
    apply Forall_forall. intros o Ho. apply (in_map_iff _ (p :: parts)) in Ho.
    destruct Ho as (p' & <- & _). apply parseOrderPart_names_a_column. }
  assert (Hbuild : forall entries, parsed = Some entries ->
             (isOk (buildOrderBySql tableName columnsList options)
              = forallb (validOrder columnsList) entries)
             /\ forall e, buildOrderBySql tableName columnsList options = Err e ->
                          e = Sql (invalidOrderByColumn tableName MFind)).
  { intros entries Hp. destruct (Hcols entries Hp) as [Hne Hall].
    unfold buildOrderBySql, options. cbn [orderBy]. rewrite Hp.
    destruct entries as [|o os]; [congruence|]. cbv beta iota.
    destruct (forallb (validOrder columnsList) (o :: os)) eqn:E.
    - rewrite (@mapM_orderByEntry_valid tableName _ _ E). cbn [bind isOk].
      split; [reflexivity | discriminate].
    - destruct (forallb_false_split _ _ E) as (b & bad & a & El & Hb & Hbad).
      rewrite El, (@mapM_orderByEntry_invalid tableName _ _ _ a Hb Hbad). cbn [bind isOk].
      split; [reflexivity|]. intros e He.
      assert (Hin : In bad (o :: os)) by (rewrite El; apply in_or_app; right; now left).
      rewrite Forall_forall in Hall. specialize (Hall bad Hin).
      destruct bad; cbn [orderColumn] in Hall; congruence. }
  subst options parsed. destruct (parseOrderBy upperCase q) as [entries|] eqn:Ep.
  - destruct (Hcols entries eq_refl) as [H1 H2]. destruct (Hbuild entries eq_refl) as [H3 H4].
    split; [auto | exact H4].
  - split; [exact I|]. intros e He. unfold buildOrderBySql in He.
    cbn [orderBy skip take] in He.
    destruct (truthyNum sk || truthyNum tk); discriminate.
Qed.

(* ------------------------------------------------------------------ *)
(** ** The connection pool: retries *)

Lemma retryWarnings_snoc (delay retries k : nat) :
  (retryWarnings delay retries k ++ [connectionWarn delay (retries - k)])%list
  = retryWarnings delay retries (S k).
Proof.
  revert retries. induction k as [|k IH]; intros retries; cbn [retryWarnings app].
  - now rewrite Nat.sub_0_r.
  - replace (retries - S k) with (retries - 1 - k) by lia.
    rewrite <- app_comm_cons. f_equal. exact (IH (retries - 1)).
Qed.

Lemma repeat_snoc {A : Type} (x : A) (k : nat) : (repeat x k ++ [x])%list = repeat x (S k).
Proof. induction k as [|k IH]; cbn; [reflexivity | now rewrite IH]. Qed.

(** [getPool] after [k] failed attempts, seen from the first call. *)
Lemma getPool_after_failures (connect : nat -> result string Pool) (delay : nat)
    (old : option Pool) (first : nat) (out : list string) (waited : list nat) :
  (match old with Some p => connected p = false | None => True end) ->
  forall k retries total,
    total = k + retries ->
    (forall i, i < k -> exists message, connect (first + i) = Err message) ->
    getPool connect total delay (mkDbState old first out waited)
    = getPool connect retries delay
        (mkDbState old (first + k) (out ++ retryWarnings delay total k)%list
                   (waited ++ repeat delay k)%list).
Proof.
  intros Hold. induction k as [|k IH]; intros retries total Ht Hfail.
  - cbn [retryWarnings repeat]. rewrite !app_nil_r, Nat.add_0_r. now subst.
  - rewrite (IH (S retries) total) by (try lia; intros i Hi; apply Hfail; lia).
    destruct (Hfail k (Nat.lt_succ_diag_r k)) as [message Hk].
    cbn [getPool pool connects console waits].
    assert (Hre : match old with
                  | Some p => if connected p then Some p else None
                  | None => None
                  end = None).
    { destruct old as [p|]; [now rewrite Hold | reflexivity]. }
    rewrite Hre, Hk.
    replace (S retries) with (total - k) by lia.
    rewrite <- !app_assoc, retryWarnings_snoc, repeat_snoc.
    now replace (S (first + k)) with (first + S k) by lia.
Qed.

(** X23.  [getPool] with no usable pool calls [sql.connect] until it
    succeeds, at most [retries + 1] times.  When the first [k <= retries]
    calls fail and the next one succeeds, it returns that pool and keeps it,
    after [k] warnings that count the retries down and [k] waits of [delay];
    when all [retries + 1] calls fail, it raises the connection error with
    the message of the last failure and leaves no pool. *)
Theorem getPool_retries_then_gives_up :
  forall connect retries delay old first out waited,
    (match old with Some p => connected p = false | None => True end) ->
    let st := mkDbState old first out waited in
    (forall k p,
        k <= retries ->
        (forall i, i < k -> exists message, connect (first + i) = Err message) ->
        connect (first + k) = Ok p ->
        getPool connect retries delay st
        = (Ok p, mkDbState (Some p) (first + k + 1)
                           (out ++ retryWarnings delay retries k
                                ++ [dBConnectedSuccessfully])%list
                           (waited ++ repeat delay k)%list))
    /\ (forall message,
           (forall i, i < retries -> exists m, connect (first + i) = Err m) ->
           connect (first + retries) = Err message ->
           getPool connect retries delay st
           = (Err (connectionError message),
              mkDbState None (first + retries + 1)
                        (out ++ retryWarnings delay retries retries)%list
                        (waited ++ repeat delay retries)%list)).
Proof.
  intros connect retries delay old first out waited Hold st.
  assert (Hre : match old with
                | Some p => if connected p then Some p else None
                | None => None
                end = None).
  { destruct old as [p|]; [now rewrite Hold | reflexivity]. }
  split.
  - intros k p Hk Hfail Hok. unfold st.
    rewrite (@getPool_after_failures connect delay old first out waited Hold
               k (retries - k) retries) by (try lia; exact Hfail).
    destruct (retries - k); cbn [getPool pool connects console waits];
      rewrite Hre, Hok; rewrite <- app_assoc; repeat f_equal; lia.
  - intros message Hfail Hlast. unfold st.
    rewrite (@getPool_after_failures connect delay old first out waited Hold
               retries 0 retries) by (try lia; exact Hfail).
    cbn [getPool pool connects console waits]. rewrite Hre, Hlast.
    repeat f_equal. lia.
Qed.

Lemma getPool_retries_then_gives_up_witness :
  getPool thirdTimeLucky 5 3000 freshDb
  = (Ok (mkPool 2 true),
     mkDbState (Some (mkPool 2 true)) 3
               [connectionWarn 3000 5; connectionWarn 3000 4; dBConnectedSuccessfully]
               [3000; 3000])
  /\ getPool alwaysDown 1 500 freshDb
     = (Err "[Db: CONNECTION FAILED] No retries left: ETIMEOUT",
        mkDbState None 2 [connectionWarn 500 1] [500]).
Proof.
  destruct (@getPool_retries_then_gives_up thirdTimeLucky 5 3000 None 0 [] [] I) as [H1 _].
  destruct (@getPool_retries_then_gives_up alwaysDown 1 500 None 0 [] [] I) as [_ H2].
  split.
  - apply (H1 2 (mkPool 2 true)); [lia | | reflexivity].
    intros i Hi. exists "ETIMEOUT". destruct i as [|[|i]]; [reflexivity | reflexivity | lia].
  - apply (H2 "ETIMEOUT"); [|reflexivity]. intros i Hi. now exists "ETIMEOUT".
Defined.

(* ------------------------------------------------------------------ *)
(** ** UPDATE by [id]: every placeholder is bound *)

Lemma recordSet_same_value {V : Type} (k : string) (v : V) (rec : list (string * V)) :
  recordGet k rec = Some v -> recordSet k v rec = rec.
Proof.
  induction rec as [|[k' v'] rec IH]; cbn [recordGet recordSet]; [discriminate|].
  destruct (String.eqb k k'); intros H.
  - now injection H as ->.
  - now rewrite IH.
Qed.

Lemma prepare_scalar_keys (items : list EntityParameter) (keyColumn : string) :
  (forall item, In item items ->
                exists v, recordGet keyColumn item = Some (Raw (One v)) /\ isNil v = false) ->
  prepareUpdateEntityParamsByKey (EPMany items) keyColumn = items.
Proof.
  unfold prepareUpdateEntityParamsByKey. cbn [ensureArray].
  induction items as [|item items IH]; intros H; [reflexivity|].
  cbn [flat_map]. destruct (H item (or_introl eq_refl)) as (v & Hv & Hn).
  rewrite Hv. cbn [isNilValue ensureArrayField]. rewrite Hn. cbn [map app].
  rewrite (@recordSet_same_value _ keyColumn (Raw (One v)) item Hv).
  rewrite <- app_comm_cons, app_nil_l.
  rewrite IH; [reflexivity|]. intros it Hit. apply H. now right.
Qed.

(** X24.  For a batch of plain values, none of them null or undefined,
    with pairwise distinct columns in each item, an [id] in every item and
    items read field by field (no [length] column that holds a length),
    [updateByKeySql] by [id] raises nothing, keeps every item as one row,
    emits one MERGE per column shape, and binds every placeholder [@col_i]
    of every VALUES row, [@id_i] included, to the value the item [i] gives
    the column. *)
Theorem update_binds_every_placeholder :
  forall tableName items options,
    (forall item, In item items ->
                  plainItem item = true /\ NoDup (keys item) /\ In "id" (keys item)
                  /\ notArrayLike item = true) ->
    let groups := shapeGroups (columnListsOf items) in
    exists q,
      updateByKeySql tableName (EPMany items) "id" options = Ok q
      /\ sql q = join (map (updateStatement tableName "id") groups) nl
      /\ (forall columns i col,
            inGroup groups columns i -> In col columns ->
            exists item v,
              nth_error items i = Some item
              /\ In (col, Raw (One v)) item
              /\ recordGet (col ++ "_" ++ natToString i) (params q)
                 = Some (mkValueKey v col)).
Proof.
  intros tableName items options H groups.
  assert (Hprep : preparedUpdateItems (EPMany items) "id" = items).
  { unfold preparedUpdateItems. cbn [String.eqb Ascii.eqb Bool.eqb negb andb].
    apply prepare_scalar_keys. intros item Hin. destruct (H item Hin) as (Hp & Hnd & Hid & _).
    apply in_keys_field in Hid. destruct Hid as [fv Hfv].
    unfold plainItem in Hp. rewrite forallb_forall in Hp. pose proof (Hp _ Hfv) as Hf.
    unfold isPlainField in Hf. cbn [snd] in Hf. destruct fv as [[v|vs]|]; try discriminate.
    exists v. split; [|now apply negb_true_iff].
    apply recordGet_In; [exact Hnd | exact Hfv]. }
  destruct (plain_items_bound tableName MUpdate options items
              (fun item Hin => conj (proj1 (H item Hin))
                                 (conj (proj1 (proj2 (H item Hin)))
                                       (proj2 (proj2 (proj2 (H item Hin)))))))
    as (ps & Hps & Hbound).
  exists (mkQuery (join (map (updateStatement tableName "id") groups) nl) ps).
  split; [|split].
  - rewrite updateByKeySql_spec. cbv zeta. rewrite Hprep, Hps. reflexivity.
  - reflexivity.
  - cbn [params]. intros columns i col Hg Hcol.
    destruct (Hbound columns i col Hg Hcol) as (item & v & H1 & H2 & _ & H3).
    exists item, v. auto.
Qed.

Lemma update_binds_every_placeholder_witness :
  exists q,
    updateByKeySql "t" (EPMany [idAndName; [("id", Raw (One (PNum 2)))]]) "id" noKvOptions = Ok q
    /\ recordGet "id_1" (params q) = Some (mkValueKey (PNum 2) "id").
Proof.
  destruct (@update_binds_every_placeholder "t" [idAndName; [("id", Raw (One (PNum 2)))]]
              noKvOptions) as (q & H1 & _ & H3).
  - intros item [<-|[<-|[]]]; (split; [reflexivity|]); (split; [|split; [|reflexivity]]);
      try (repeat constructor; simpl; intuition discriminate); simpl; auto.
  - exists q. split; [exact H1|].
    destruct (H3 ["id"] 1 "id") as (item & v & Hn & Hin & Hget).
    + exists [1]. split; [right; now left | now left].
    + now left.
    + injection Hn as <-. destruct Hin as [E|[]]. injection E as <-. exact Hget.
Defined.
